(** * A chained hash map: shallow embedding of [hashmap.h]

    The class [HashMap<KeyT, ValT>] keeps an array of bucket heads, each
    the first node of a singly linked chain allocated with [new].  The
    embedding keeps that shape: nodes live in a store indexed by address,
    a bucket holds an optional address, and every method is a function on
    the store and on the fields of [this].

    Reading a freed or never allocated node, indexing the bucket array out
    of range and [x % 0] are undefined behaviour in C++; the model gives
    them the outcome [Fault].  A loop over a cyclic chain does not end; the
    model gives it the outcome [Diverge]. *)

From Stdlib Require Import SpecFloat.
From stdpp Require Import base numbers option list gmap strings.

Local Open Scope Z_scope.

(** ** Outcomes *)

(** Address of a [ChainNode]; [nullptr] is [None] in an [option loc]. *)
Definition loc := positive.

(** Identity of a [HashMap] object (what [this] and [&other] compare). *)
Definition oid := positive.

Inductive exn : Type :=
  | out_of_range (what : string).

(** Result of a loop or of an expression that reads memory. *)
Inductive res (A : Type) : Type :=
  | Ret (a : A)
  | Undef
  | Loop.
Arguments Ret {A} a.
Arguments Undef {A}.
Arguments Loop {A}.

Global Instance res_ret : MRet res := @Ret.
Global Instance res_bind : MBind res := λ A B f r,
  match r with
  | Ret a => f a
  | Undef => Undef
  | Loop => Loop
  end.

(** Result of a method call: normal return or exception, both with the
    state they leave behind, or no defined behaviour at all. *)
Inductive outcome (St A : Type) : Type :=
  | Ok (a : A) (s : St)
  | Throw (e : exn) (s : St)
  | Fault
  | Diverge.
Arguments Ok {St A} a s.
Arguments Throw {St A} e s.
Arguments Fault {St A}.
Arguments Diverge {St A}.

Definition of_res {St A B} (r : res A) (k : A → outcome St B) : outcome St B :=
  match r with
  | Ret a => k a
  | Undef => Fault
  | Loop => Diverge
  end.

(** What the caller sees of an outcome when the state is left aside. *)
Definition answer {St A} (o : outcome St A) : outcome unit A :=
  match o with
  | Ok a _ => Ok a tt
  | Throw e _ => Throw e tt
  | Fault => Fault
  | Diverge => Diverge
  end.

(** ** Machine integers and arrays *)

(** [size_t] is 64 bits wide; [++], [--] and [*] wrap. *)
Definition size_t_mod : Z := 2 ^ 64.
Definition wrap (z : Z) : Z := z mod size_t_mod.

(** [a[i]] on an array of [length a] slots. *)
Definition array_get {A} (a : list A) (i : Z) : res A :=
  if decide (0 ≤ i) then
    match a !! Z.to_nat i with
    | Some x => Ret x
    | None => Undef
    end
  else Undef.

(** [a[i] = x], after [a[i]] was found to be in range. *)
Definition array_set {A} (a : list A) (i : Z) (x : A) : list A :=
  <[Z.to_nat i := x]> a.

(** [x % n] on [size_t]. *)
Definition umod (x n : Z) : res Z :=
  if decide (n = 0) then Undef else Ret (x mod n).

(** ** Doubles

    [double] is IEEE 754 binary64: 53 bits of precision, round to nearest
    even.  [static_cast<double>] of a [size_t] rounds the integer, [/] is
    the correctly rounded quotient and [>] is the IEEE comparison. *)
Definition prec : Z := 53.
Definition emax : Z := 1024.

(** [static_cast<double>(z)]. *)
Definition to_double (z : Z) : spec_float :=
  binary_normalize prec emax z 0 false.

(** The literal [1.5], and its mantissa at exponent [-52]. *)
Definition N15 : Z := 6755399441055744.
Definition double_1_5 : spec_float :=
  S754_finite false 6755399441055744 (-52).

(** [static_cast<double>(sz) / static_cast<double>(capacity) > 1.5]. *)
Definition load_factor_gt (sz capacity : Z) : bool :=
  SFltb double_1_5 (SFdiv prec emax (to_double sz) (to_double capacity)).

(** The second half of [binary_round_aux], which renormalizes a rounded
    mantissa; used to follow the rounding of the quotient. *)
Definition finish (s : bool) (m e : Z) : spec_float :=
  let '(mrs, e') := shr_fexp prec emax m e loc_Exact in
  match shr_m mrs with
  | Z0 => S754_zero s
  | Zpos m => if e' <=? emax - prec then S754_finite s m e' else S754_infinity s
  | _ => S754_nan
  end.

(** The location of a value after one more bit is shifted out. *)
Definition loc_shift (odd : bool) (l : location) : location :=
  match odd, l with
  | false, loc_Exact => loc_Exact
  | false, _ => loc_Inexact Lt
  | true, loc_Exact => loc_Inexact Eq
  | true, _ => loc_Inexact Gt
  end.

(** ** Data *)

Record ChainNode {KeyT ValT : Type} : Type := mkNode {
  key : KeyT;
  value : ValT;
  next : option loc
}.
Arguments ChainNode : clear implicits.
Arguments mkNode {KeyT ValT} key value next.
Arguments key {KeyT ValT} c.
Arguments value {KeyT ValT} c.
Arguments next {KeyT ValT} c.

Record HashMap : Type := mkMap {
  data : list (option loc);
  sz : Z;
  capacity : Z;
  curr : option loc;
  curr_idx : Z
}.

(** The objects of a program and the store of nodes they all allocate
    from.  The bucket array of an object is kept with its fields: no
    method hands it to another object. *)
Record world {KeyT ValT : Type} : Type := mkWorld {
  nodes : gmap loc (ChainNode KeyT ValT);
  objects : gmap oid HashMap
}.
Arguments world : clear implicits.
Arguments mkWorld {KeyT ValT} nodes objects.
Arguments nodes {KeyT ValT} w.
Arguments objects {KeyT ValT} w.

(** * A table from [int] to [int]

    The instance used to run the theorems: keys and values are integers
    and the hash of a key is the key as a [size_t], as libstdc++ does for
    [int]. *)

Definition int_hash (k : Z) : Z := wrap k.

(** A store with no node. *)
Definition ex_empty : gmap loc (ChainNode Z Z) := ∅.

(** The table of capacity 2 after [insert(1, 10)], in a store that holds
    nothing else. *)
Definition ex_heap : gmap loc (ChainNode Z Z) :=
  {[ 1%positive := mkNode 1 10 None ]}.
Definition ex_map : HashMap := mkMap [None; Some 1%positive] 1 2 None 0.
Definition ex_buckets : list (list (loc * ChainNode Z Z)) :=
  [[]; [(1%positive, mkNode 1 10 None)]].

(** The same table as the object 1, and a table of capacity 1 holding
    [(5, 50)] as the object 2. *)
Definition ex_heap2 : gmap loc (ChainNode Z Z) :=
  {[ 1%positive := mkNode 1 10 None; 2%positive := mkNode 5 50 None ]}.
Definition ex_map2 : HashMap := mkMap [Some 2%positive] 1 1 None 0.
Definition ex_buckets2 : list (list (loc * ChainNode Z Z)) :=
  [[(2%positive, mkNode 5 50 None)]].
Definition ex_world : world Z Z :=
  mkWorld ex_heap2 {[ 1%positive := ex_map; 2%positive := ex_map2 ]}.

(** The table of [(1, 10)] in the middle of a traversal: [curr] is at
    its only node. *)
Definition ex_map_at : HashMap :=
  mkMap [None; Some 1%positive] 1 2 (Some 1%positive) 1.

(** A hash under which all keys collide. *)
Definition zero_hash (k : Z) : Z := 0.

(** The table of [(3, 30)] and [(1, 10)], both in bucket 1 of 2, after
    [begin] and one [next]: the cursor is on the second node. *)
Definition ex_heap3 : gmap loc (ChainNode Z Z) :=
  {[ 1%positive := mkNode 1 10 None;
     2%positive := mkNode 3 30 (Some 1%positive) ]}.
Definition ex_map3 : HashMap :=
  mkMap [None; Some 2%positive] 2 2 (Some 1%positive) 1.
Definition ex_buckets3 : list (list (loc * ChainNode Z Z)) :=
  [[]; [(2%positive, mkNode 3 30 (Some 1%positive));
        (1%positive, mkNode 1 10 None)]].

Section HashMap.

Context {KeyT ValT : Type} `{EqDecision KeyT}.

(** [std::hash<KeyT>{}(key)], a [size_t]. *)
Variable hash : KeyT → Z.

(** In this section the nodes, the store, the state of a method and the
    worlds are those of [KeyT] and [ValT]. *)
Abbreviation ChainNode := (ChainNode KeyT ValT).
Abbreviation heap := (gmap loc ChainNode).
Abbreviation state := (heap * HashMap)%type.
Abbreviation world := (world KeyT ValT).

Definition set_next (n : ChainNode) (p : option loc) : ChainNode :=
  mkNode (key n) (value n) p.

(** Enough steps to walk any chain of distinct nodes of [h]. *)
Definition chain_fuel (h : heap) : nat := S (size h).

(** ** Constructors *)

(** [new ChainNode*[n]] followed by the loop that stores [nullptr] in
    every slot. *)
Definition new_buckets (n : Z) : list (option loc) :=
  replicate (Z.to_nat n) None.

(** [HashMap(size_t capacity)].  The cursor fields are not initialised:
    they hold whatever [curr0] and [idx0] the memory held. *)
Definition HashMap_new (capacity : Z) (curr0 : option loc) (idx0 : Z) : HashMap :=
  mkMap (new_buckets capacity) 0 capacity curr0 idx0.

(** [HashMap()]. *)
Definition HashMap_default (curr0 : option loc) (idx0 : Z) : HashMap :=
  HashMap_new 10 curr0 idx0.

(** ** Reporters *)

Definition empty (m : HashMap) : bool := bool_decide (sz m = 0).
Definition size (m : HashMap) : Z := sz m.
Definition get_capacity (m : HashMap) : Z := capacity m.

(** ** Searching a chain *)

(** [std::hash<KeyT>{}(key) % capacity] *)
Definition bucket_index (m : HashMap) (k : KeyT) : res Z :=
  umod (hash k) (capacity m).

(** The loop shared by [insert], [at] and [contains]:
    [while (current != nullptr) { if (current->key == key) ...;
    current = current->next; }].  Returns the node that stopped it. *)
Fixpoint scan (fuel : nat) (h : heap) (current : option loc) (k : KeyT)
    : res (option (loc * ChainNode)) :=
  match fuel with
  | O => Loop
  | S fuel =>
      match current with
      | None => Ret None
      | Some l =>
          match h !! l with
          | None => Undef
          | Some n =>
              if decide (key n = k) then Ret (Some (l, n))
              else scan fuel h (next n) k
          end
      end
  end.

(** Head of the bucket of [k], then the scan of its chain. *)
Definition probe (h : heap) (m : HashMap) (k : KeyT)
    : res (Z * option loc * option (loc * ChainNode)) :=
  index ← bucket_index m k;
  head ← array_get (data m) index;
  found ← scan (chain_fuel h) h head k;
  mret (index, head, found).

(** ** rehash *)

(** The inner [while] of [rehash]: every node of the old chain is pushed
    on the new bucket of its key. *)
Fixpoint rehash_chain (fuel : nat) (new_capacity : Z) (h : heap)
    (d : list (option loc)) (current : option loc)
    : res (heap * list (option loc)) :=
  match fuel with
  | O => Loop
  | S fuel =>
      match current with
      | None => Ret (h, d)
      | Some l =>
          match h !! l with
          | None => Undef
          | Some n =>
              let nxt := next n in
              new_index ← umod (hash (key n)) new_capacity;
              head ← array_get d new_index;
              rehash_chain fuel new_capacity
                (<[l := set_next n head]> h)
                (array_set d new_index (Some l)) nxt
          end
      end
  end.

(** The outer [for (i = 0; i < old_capacity; ++i)] of [rehash], over the
    indices still to visit. *)
Fixpoint rehash_buckets (new_capacity : Z) (old_data : list (option loc))
    (idxs : list nat) (h : heap) (d : list (option loc))
    : res (heap * list (option loc)) :=
  match idxs with
  | [] => Ret (h, d)
  | i :: idxs =>
      current ← array_get old_data (Z.of_nat i);
      '(h', d') ← rehash_chain (chain_fuel h) new_capacity h d current;
      rehash_buckets new_capacity old_data idxs h' d'
  end.

Definition rehash (new_capacity : Z) (s : state) : outcome state unit :=
  let '(h, m) := s in
  let old_data := data m in
  let old_capacity := capacity m in
  of_res
    (rehash_buckets new_capacity old_data (seq 0 (Z.to_nat old_capacity)) h
       (new_buckets new_capacity))
    (λ '(h', d'),
      Ok tt (h', mkMap d' (sz m) new_capacity (curr m) (curr_idx m))).

(** ** insert *)

Definition insert (k : KeyT) (v : ValT) (s : state) : outcome state unit :=
  let '(h, m) := s in
  of_res (probe h m k) (λ '(index, head, found),
    match found with
    | Some _ => Ok tt (h, m)
    | None =>
        let new_node := fresh (dom h) in
        let h1 := <[new_node := mkNode k v head]> h in
        let m1 := mkMap (array_set (data m) index (Some new_node))
                    (wrap (sz m + 1)) (capacity m) (curr m) (curr_idx m) in
        if load_factor_gt (sz m1) (capacity m1)
        then rehash (wrap (capacity m1 * 2)) (h1, m1)
        else Ok tt (h1, m1)
    end).

(** ** at and contains *)

(** [at] returns a reference to the [value] field of the node found; the
    model returns the value read through it. *)
Definition at_ (k : KeyT) (s : state) : outcome state ValT :=
  let '(h, m) := s in
  of_res (probe h m k) (λ '(_, _, found),
    match found with
    | Some (_, n) => Ok (value n) (h, m)
    | None => Throw (out_of_range "out_of_range") (h, m)
    end).

Definition contains (k : KeyT) (s : state) : outcome state bool :=
  let '(h, m) := s in
  of_res (probe h m k) (λ '(_, _, found),
    match found with
    | Some _ => Ok true (h, m)
    | None => Ok false (h, m)
    end).

(** ** clear *)

(** The inner [while] of [clear]: [delete] every node of the chain. *)
Fixpoint free_chain (fuel : nat) (h : heap) (current : option loc) : res heap :=
  match fuel with
  | O => Loop
  | S fuel =>
      match current with
      | None => Ret h
      | Some to_delete =>
          match h !! to_delete with
          | None => Undef
          | Some n => free_chain fuel (delete to_delete h) (next n)
          end
      end
  end.

(** The outer [for] of [clear], over the indices still to visit. *)
Fixpoint clear_buckets (idxs : list nat) (h : heap) (d : list (option loc))
    : res (heap * list (option loc)) :=
  match idxs with
  | [] => Ret (h, d)
  | i :: idxs =>
      current ← array_get d (Z.of_nat i);
      h' ← free_chain (chain_fuel h) h current;
      clear_buckets idxs h' (array_set d (Z.of_nat i) None)
  end.

Definition clear (s : state) : outcome state unit :=
  let '(h, m) := s in
  of_res (clear_buckets (seq 0 (Z.to_nat (capacity m))) h (data m))
    (λ '(h', d'), Ok tt (h', mkMap d' 0 (capacity m) (curr m) (curr_idx m))).

(** ** erase *)

(** The loop of [erase] up to the node it stops on, with [prev]. *)
Fixpoint erase_scan (fuel : nat) (h : heap) (prev current : option loc)
    (k : KeyT) : res (option (option loc * loc * ChainNode)) :=
  match fuel with
  | O => Loop
  | S fuel =>
      match current with
      | None => Ret None
      | Some l =>
          match h !! l with
          | None => Undef
          | Some n =>
              if decide (key n = k) then Ret (Some (prev, l, n))
              else erase_scan fuel h (Some l) (next n) k
          end
      end
  end.

(** The unlinking done on the node found: [data[index] = current->next]
    for a head, [prev->next = current->next] otherwise. *)
Definition unlink (h : heap) (d : list (option loc)) (index : Z)
    (prev : option loc) (n : ChainNode) : res (heap * list (option loc)) :=
  match prev with
  | None => Ret (h, array_set d index (next n))
  | Some p =>
      match h !! p with
      | None => Undef
      | Some pn => Ret (<[p := set_next pn (next n)]> h, d)
      end
  end.

Definition erase (k : KeyT) (s : state) : outcome state ValT :=
  let '(h, m) := s in
  of_res
    (index ← bucket_index m k;
     head ← array_get (data m) index;
     found ← erase_scan (chain_fuel h) h None head k;
     match found with
     | None => mret None
     | Some (prev, l, n) =>
         '(h1, d1) ← unlink h (data m) index prev n;
         mret (Some (value n, delete l h1, d1))
     end)
    (λ r,
      match r with
      | Some (val, h', d') =>
          Ok val (h', mkMap d' (wrap (sz m - 1)) (capacity m) (curr m) (curr_idx m))
      | None => Throw (out_of_range "Key not found in erase") (h, m)
      end).

(** ** The traversal cursor *)

(** The [while] of [begin]: skip the empty buckets. *)
Fixpoint skip_empty (fuel : nat) (d : list (option loc)) (capacity idx : Z)
    : res Z :=
  match fuel with
  | O => Loop
  | S fuel =>
      if decide (idx < capacity) then
        head ← array_get d idx;
        match head with
        | None => skip_empty fuel d capacity (wrap (idx + 1))
        | Some _ => Ret idx
        end
      else Ret idx
  end.

Definition begin (s : state) : outcome state unit :=
  let '(h, m) := s in
  of_res
    (idx ← skip_empty (S (Z.to_nat (capacity m))) (data m) (capacity m) 0;
     c ← (if decide (idx < capacity m) then array_get (data m) idx
          else mret None);
     mret (c, idx))
    (λ '(c, idx), Ok tt (h, mkMap (data m) (sz m) (capacity m) c idx)).

(** The [while (curr == nullptr && ++curr_idx < capacity)] of [next]. *)
Fixpoint advance (fuel : nat) (d : list (option loc)) (capacity : Z)
    (c : option loc) (idx : Z) : res (option loc * Z) :=
  match fuel with
  | O => Loop
  | S fuel =>
      match c with
      | Some _ => Ret (c, idx)
      | None =>
          let idx := wrap (idx + 1) in
          if decide (idx < capacity) then
            c' ← array_get d idx;
            advance fuel d capacity c' idx
          else Ret (None, idx)
      end
  end.

(** [next(key, value)]: [None] is the return value [false], which leaves
    the two reference parameters alone; [Some (k, v)] is [true] with the
    pair written to them. *)
Definition next_ (s : state) : outcome state (option (KeyT * ValT)) :=
  let '(h, m) := s in
  match curr m with
  | None => Ok None (h, m)
  | Some l =>
      match h !! l with
      | None => Fault
      | Some n =>
          of_res
            (advance (S (S (Z.to_nat (capacity m)))) (data m) (capacity m)
               (next n) (curr_idx m))
            (λ '(c, idx),
              Ok (Some (key n, value n))
                 (h, mkMap (data m) (sz m) (capacity m) c idx))
      end
  end.

(** ** Copying *)

(** What [ChainNode** ptr] points to: a bucket of the new array or the
    [next] field of a node. *)
Inductive slot : Type :=
  | BucketSlot (i : Z)
  | NextSlot (l : loc).

(** [*ptr = p] *)
Definition store_slot (h : heap) (d : list (option loc)) (ptr : slot)
    (p : option loc) : res (heap * list (option loc)) :=
  match ptr with
  | BucketSlot i => _ ← array_get d i; mret (h, array_set d i p)
  | NextSlot l =>
      match h !! l with
      | None => Undef
      | Some n => Ret (<[l := set_next n p]> h, d)
      end
  end.

(** The inner [while] of the copy constructor and of [operator=]. *)
Fixpoint copy_chain (fuel : nat) (h : heap) (d : list (option loc))
    (ptr : slot) (current : option loc) : res (heap * list (option loc)) :=
  match fuel with
  | O => Loop
  | S fuel =>
      match current with
      | None => Ret (h, d)
      | Some c =>
          match h !! c with
          | None => Undef
          | Some n =>
              let new_node := fresh (dom h) in
              let h1 := <[new_node := mkNode (key n) (value n) None]> h in
              '(h2, d2) ← store_slot h1 d ptr (Some new_node);
              copy_chain fuel h2 d2 (NextSlot new_node) (next n)
          end
      end
  end.

(** The outer [for] of the copy constructor and of [operator=]. *)
Fixpoint copy_buckets (other_data : list (option loc)) (idxs : list nat)
    (h : heap) (d : list (option loc)) : res (heap * list (option loc)) :=
  match idxs with
  | [] => Ret (h, d)
  | i :: idxs =>
      current ← array_get other_data (Z.of_nat i);
      '(h', d') ← copy_chain (chain_fuel h) h d (BucketSlot (Z.of_nat i)) current;
      copy_buckets other_data idxs h' d'
  end.

(** Steps 1 and 2 of both: a new array of [other.capacity] empty buckets,
    then the deep copy of each chain of [other]. *)
Definition copy_from (other : HashMap) (h : heap)
    : res (heap * list (option loc)) :=
  copy_buckets (data other) (seq 0 (Z.to_nat (capacity other))) h
    (new_buckets (capacity other)).

(** [HashMap(const HashMap& other)]: the new object and the store.  The
    cursor fields are not initialised. *)
Definition HashMap_copy (other : HashMap) (curr0 : option loc) (idx0 : Z)
    (h : heap) : outcome state unit :=
  of_res (copy_from other h) (λ '(h', d'),
    Ok tt (h', mkMap d' (sz other) (capacity other) curr0 idx0)).

(** A method called on the object [this]. *)
Definition call {A} (this : oid) (f : state → outcome state A) (w : world)
    : outcome world A :=
  match objects w !! this with
  | None => Fault
  | Some m =>
      match f (nodes w, m) with
      | Ok a (h', m') => Ok a (mkWorld h' (<[this := m']> (objects w)))
      | Throw e (h', m') => Throw e (mkWorld h' (<[this := m']> (objects w)))
      | Fault => Fault
      | Diverge => Diverge
      end
  end.

(** [HashMap this(other);] *)
Definition construct_copy (this other : oid) (curr0 : option loc) (idx0 : Z)
    (w : world) : outcome world unit :=
  match objects w !! other with
  | None => Fault
  | Some o =>
      match HashMap_copy o curr0 idx0 (nodes w) with
      | Ok a (h', m') => Ok a (mkWorld h' (<[this := m']> (objects w)))
      | Throw e _ => Throw e w
      | Fault => Fault
      | Diverge => Diverge
      end
  end.

(** [this = other;]  After [clear] the old array is released and the
    body of the copy constructor runs on the fields of [this]. *)
Definition assign (this other : oid) (w : world) : outcome world unit :=
  if decide (this = other) then Ok tt w
  else
    match call this clear w with
    | Ok _ w1 =>
        match objects w1 !! this, objects w1 !! other with
        | Some m, Some o =>
            of_res (copy_from o (nodes w1)) (λ '(h', d'),
              Ok tt (mkWorld h'
                (<[this := mkMap d' (sz o) (capacity o) (curr m) (curr_idx m)]>
                   (objects w1))))
        | _, _ => Fault
        end
    | Throw e w1 => Throw e w1
    | Fault => Fault
    | Diverge => Diverge
    end.

(** * Well-formed tables and client programs *)

(** ** What a well-formed table looks like *)

(** [chain h p ns]: following [next] from [p] in [h] visits exactly the
    nodes [ns], with their addresses, and ends on [nullptr]. *)
Inductive chain (h : heap) : option loc → list (loc * ChainNode) → Prop :=
  | chain_nil : chain h None []
  | chain_cons l n ns :
      h !! l = Some n → chain h (next n) ns → chain h (Some l) ((l, n) :: ns).

(** The (key, value) pairs held by a list of nodes. *)
Definition kvs (ns : list (loc * ChainNode)) : list (KeyT * ValT) :=
  (λ x, (key x.2, value x.2)) <$> ns.

(** First node with key [k]. *)
Fixpoint find_node (k : KeyT) (ns : list (loc * ChainNode))
    : option (loc * ChainNode) :=
  match ns with
  | [] => None
  | x :: ns => if decide (key x.2 = k) then Some x else find_node k ns
  end.

(** Value associated with [k] in a list of pairs. *)
Fixpoint assoc (k : KeyT) (l : list (KeyT * ValT)) : option ValT :=
  match l with
  | [] => None
  | x :: l => if decide (x.1 = k) then Some x.2 else assoc k l
  end.

(** The class invariant: [bs] lists, bucket by bucket, the nodes of the
    table [m] in the store [h]. *)
Record rep (h : heap) (m : HashMap) (bs : list (list (loc * ChainNode)))
    : Prop := mkRep {
  rep_capacity : 0 < capacity m < size_t_mod;
  rep_length : Z.of_nat (length (data m)) = capacity m;
  rep_chains : Forall2 (chain h) (data m) bs;
  rep_nodup : NoDup (mjoin bs).*1;
  rep_sz : sz m = Z.of_nat (length (mjoin bs));
  rep_index : ∀ i b x, bs !! i = Some b → x ∈ b →
                hash (key x.2) mod capacity m = Z.of_nat i;
  rep_keys : NoDup (kvs (mjoin bs)).*1;
  rep_sz_lt : sz m < size_t_mod
}.

(** Sizes for which [size_t] arithmetic does not wrap and the conversion
    to [double] is exact. *)
Definition size_bound : Z := 2 ^ 52.

Definition fits (m : HashMap) : Prop :=
  sz m < size_bound ∧ capacity m < size_bound.

(** ** Reading a well-formed table *)

(** All (key, value) pairs of the table, in bucket order. *)
Definition content (bs : list (list (loc * ChainNode))) : list (KeyT * ValT) :=
  kvs (mjoin bs).

(** The value the table associates with [k], if any. *)
Definition mapping (bs : list (list (loc * ChainNode))) (k : KeyT)
    : option ValT :=
  assoc k (content bs).

(** ** Ownership *)

(** Addresses of the nodes of a table. *)
Definition locs (bs : list (list (loc * ChainNode))) : list loc :=
  (mjoin bs).*1.

(** Address, key and value of each node: what [rehash] keeps when it
    rewrites the [next] fields. *)
Definition ents (ns : list (loc * ChainNode)) : list (loc * (KeyT * ValT)) :=
  (λ x, (x.1, (key x.2, value x.2))) <$> ns.

(** A method run on a table that owned [bs] in [h] and owns [bs'] in [h']:
    nodes of other owners are left as they were, and the nodes now owned
    were owned before or have just been allocated. *)
Definition evolves (h : heap) (bs : list (list (loc * ChainNode)))
    (h' : heap) (bs' : list (list (loc * ChainNode))) : Prop :=
  (∀ l, l ∉ locs bs → is_Some (h !! l) → h' !! l = h !! l) ∧
  (∀ l, l ∈ locs bs' → l ∈ locs bs ∨ h !! l = None).

(** ** What [erase] finds *)

(** What the loop of [erase] stops on, read off the list of nodes. *)
Fixpoint erase_find (prev : option loc) (k : KeyT)
    (ns : list (loc * ChainNode)) : option (option loc * loc * ChainNode) :=
  match ns with
  | [] => None
  | x :: ns =>
      if decide (key x.2 = k) then Some (prev, x.1, x.2)
      else erase_find (Some x.1) k ns
  end.

(** ** Traversals *)

(** [rem] is what a traversal has still to yield: the rest [r] of the
    current chain, then the buckets after [curr_idx]. *)
Definition cursor (h : heap) (m : HashMap) (bs : list (list (loc * ChainNode)))
    (rem : list (loc * ChainNode)) : Prop :=
  (rem = [] ∧ curr m = None) ∨
  (∃ (i : nat) r, curr_idx m = Z.of_nat i ∧ (i < length bs)%nat ∧ r ≠ [] ∧
     chain h (curr m) r ∧ rem = r ++ mjoin (drop (S i) bs)).

(** [n] calls of [next] in a row, with what each returned. *)
Fixpoint nexts (n : nat) (s : state)
    : outcome state (list (option (KeyT * ValT))) :=
  match n with
  | O => Ok [] s
  | S n =>
      match next_ s with
      | Ok r s' =>
          match nexts n s' with
          | Ok rs s'' => Ok (r :: rs) s''
          | o => o
          end
      | Throw e s' => Throw e s'
      | Fault => Fault
      | Diverge => Diverge
      end
  end.

(** Two tables that differ at most in the cursor fields. *)
Definition same_table (m m' : HashMap) : Prop :=
  data m' = data m ∧ sz m' = sz m ∧ capacity m' = capacity m.

(** ** Slots of a copy in progress *)

(** The slot [ptr] exists and holds [nullptr]. *)
Definition slot_null (h : heap) (d : list (option loc)) (ptr : slot) : Prop :=
  match ptr with
  | BucketSlot i => 0 ≤ i ∧ d !! Z.to_nat i = Some None
  | NextSlot l0 => ∃ n0, h !! l0 = Some n0 ∧ next n0 = None
  end.

(** The state [(h', d')] is [(h, d)] with [p] stored in the slot [ptr] and
    nothing else changed among the nodes that [h] had. *)
Definition slot_stored (h : heap) (d : list (option loc)) (ptr : slot)
    (p : option loc) (h' : heap) (d' : list (option loc)) : Prop :=
  match ptr with
  | BucketSlot i =>
      d' = array_set d i p ∧ ∀ l, is_Some (h !! l) → h' !! l = h !! l
  | NextSlot l0 =>
      d' = d ∧
      (∃ n0, h !! l0 = Some n0 ∧ h' !! l0 = Some (set_next n0 p)) ∧
      ∀ l, l ≠ l0 → is_Some (h !! l) → h' !! l = h !! l
  end.

(** ** Programs that use one table *)

(** The public methods, as the calls of a client. *)
Inductive op : Type :=
  | Insert (k : KeyT) (v : ValT)
  | Erase (k : KeyT)
  | Clear
  | At (k : KeyT)
  | Contains (k : KeyT)
  | Begin
  | Next
  | Rehash (new_capacity : Z).

(** An outcome with the returned value dropped. *)
Definition void {St A} (o : outcome St A) : outcome St unit :=
  match o with
  | Ok _ s => Ok tt s
  | Throw e s => Throw e s
  | Fault => Fault
  | Diverge => Diverge
  end.

Definition exec (o : op) (s : state) : outcome state unit :=
  match o with
  | Insert k v => insert k v s
  | Erase k => void (erase k s)
  | Clear => clear s
  | At k => void (at_ k s)
  | Contains k => void (contains k s)
  | Begin => begin s
  | Next => void (next_ s)
  | Rehash n => rehash n s
  end.

(** A client that makes the calls [ops] in order and catches the
    [out_of_range] exceptions of [at] and [erase]. *)
Fixpoint run (ops : list op) (s : state) : outcome state unit :=
  match ops with
  | [] => Ok tt s
  | o :: ops =>
      match exec o s with
      | Ok _ s' | Throw _ s' => run ops s'
      | Fault => Fault
      | Diverge => Diverge
      end
  end.

(** What a call does to the association of keys with values: [insert]
    keeps the value of a key already present, [erase] and [clear] forget. *)
Definition apply_op (o : op) (f : KeyT → option ValT) : KeyT → option ValT :=
  match o with
  | Insert k v =>
      λ k', if decide (k' = k)
            then match f k with Some v0 => Some v0 | None => Some v end
            else f k'
  | Erase k => λ k', if decide (k' = k) then None else f k'
  | Clear => λ _, None
  | _ => f
  end.

(** The association after the calls [ops], from [f]. *)
Definition history (ops : list op) (f : KeyT → option ValT)
    : KeyT → option ValT :=
  foldl (λ f o, apply_op o f) f ops.

(** The usage the class asks of its client: [next] only in a traversal
    opened by [begin] and not closed since by a call that changes the
    table, and [rehash] with at least one bucket.  [open] tells whether a
    traversal is open. *)
Definition opens (open : bool) (o : op) : bool :=
  match o with
  | Begin => true
  | Next | At _ | Contains _ => open
  | _ => false
  end.

Definition usable (open : bool) (o : op) : bool :=
  match o with
  | Next => open
  | Rehash n => bool_decide (0 < n)
  | _ => true
  end.

Fixpoint well_used (open : bool) (ops : list op) : bool :=
  match ops with
  | [] => true
  | o :: ops => usable open o && well_used (opens open o) ops
  end.

(** How far a call can push [capacity] and twice [sz]. *)
Definition cost (o : op) : Z :=
  match o with
  | Insert _ _ => 2
  | Rehash n => n
  | _ => 0
  end.

Definition total_cost (ops : list op) : Z := foldr (λ o c, cost o + c) 0 ops.

Definition is_rehash (o : op) : bool :=
  match o with Rehash _ => true | _ => false end.

(** [capacity] and twice [sz] stay below [B]. *)
Definition within (B : Z) (m : HashMap) : Prop :=
  capacity m ≤ B ∧ 2 * sz m ≤ B.

(** ** Two tables in one store *)

(** The objects [a] and [b] are two well-formed tables that own no node
    in common. *)
Definition separate (w : world) (a b : oid) (ma mb : HashMap)
    (bsa bsb : list (list (loc * ChainNode))) : Prop :=
  a ≠ b ∧
  objects w !! a = Some ma ∧ objects w !! b = Some mb ∧
  rep (nodes w) ma bsa ∧ rep (nodes w) mb bsb ∧
  ∀ l, l ∈ locs bsa → l ∉ locs bsb.

(** ** Programs on a table just built *)

(** The calls [insert(k, v)] for the pairs of [ins], in order. *)
Definition inserts (ins : list (KeyT * ValT)) : list op :=
  (λ kv, Insert kv.1 kv.2) <$> ins.

(** ** Cursor calls *)

Definition is_cursor_op (o : op) : bool :=
  match o with Begin | Next => true | _ => false end.

(** * The rest of the class, and how it is used *)

(** ** The destructor *)

(** [~HashMap()]: [clear()], then [delete[] data], which ends the life of
    the object. *)
Definition destructor (this : oid) (w : world) : outcome world unit :=
  match call this clear w with
  | Ok _ w1 => Ok tt (mkWorld (nodes w1) (delete this (objects w1)))
  | Throw e w1 => Throw e w1
  | Fault => Fault
  | Diverge => Diverge
  end.

(** ** The loop of a traversal *)

(** The loop that the comment of [next] gives as its usage,
    [hm.begin(); while (hm.next(key, val)) { ... }], with the pairs its
    body sees. *)
Fixpoint drain (fuel : nat) (s : state) : outcome state (list (KeyT * ValT)) :=
  match fuel with
  | O => Diverge
  | S fuel =>
      match next_ s with
      | Ok None s' => Ok [] s'
      | Ok (Some kv) s' =>
          match drain fuel s' with
          | Ok rest s'' => Ok (kv :: rest) s''
          | o => o
          end
      | Throw e s' => Throw e s'
      | Fault => Fault
      | Diverge => Diverge
      end
  end.

Definition traverse (fuel : nat) (s : state)
    : outcome state (list (KeyT * ValT)) :=
  match begin s with
  | Ok _ s1 => drain fuel s1
  | Throw e s1 => Throw e s1
  | Fault => Fault
  | Diverge => Diverge
  end.

(** ** What a node holds *)

(** Key and value of the node allocated at [l], if there is one: a node
    with its [next] field left aside. *)
Definition payload (h : heap) (l : loc) : option (KeyT * ValT) :=
  (λ n, (key n, value n)) <$> h !! l.

(** * Lemmas *)

(** ** Chains *)

Lemma chain_lookup h p ns x :
  chain h p ns → x ∈ ns → h !! x.1 = Some x.2.
Proof.
  induction 1 as [|l n ns Hl _ IH]; intros Hx.
  - by apply elem_of_nil in Hx.
  - apply elem_of_cons in Hx as [->|Hx]; [done|by apply IH].
Qed.

Lemma chain_frame h h' p ns :
  chain h p ns → (∀ l, l ∈ ns.*1 → h' !! l = h !! l) → chain h' p ns.
Proof.
  induction 1 as [|l n ns Hl _ IH]; intros Hsame; [constructor|].
  constructor.
  - rewrite Hsame; [done|]. set_solver.
  - apply IH. intros l' Hl'. apply Hsame. set_solver.
Qed.

Lemma chain_functional h p ns ns' :
  chain h p ns → chain h p ns' → ns = ns'.
Proof.
  intros Hc. revert ns'.
  induction Hc as [|l n ns Hl _ IH]; inversion 1; simplify_eq; [done|].
  f_equal. by apply IH.
Qed.

Lemma chain_dom h p ns l : chain h p ns → l ∈ ns.*1 → l ∈ dom h.
Proof.
  intros Hc Hl. apply list_elem_of_fmap in Hl as [x [-> Hx]].
  apply elem_of_dom. rewrite (chain_lookup _ _ _ _ Hc Hx). eauto.
Qed.

Lemma locs_length_size (h : heap) (ls : list loc) :
  NoDup ls → (∀ l, l ∈ ls → l ∈ dom h) → (length ls ≤ base.size h)%nat.
Proof.
  intros Hnd Hdom. rewrite <-size_dom.
  unfold base.size at 1, set_size. simpl.
  apply submseteq_length, NoDup_submseteq; [done|].
  intros l Hl. apply elem_of_elements. auto.
Qed.

Lemma chain_fuel_enough h p ns :
  chain h p ns → NoDup ns.*1 → (length ns < chain_fuel h)%nat.
Proof.
  intros Hc Hnd. unfold chain_fuel.
  pose proof (locs_length_size h ns.*1 Hnd) as Hle.
  rewrite length_fmap in Hle.
  specialize (Hle (λ l, chain_dom _ _ _ l Hc)). lia.
Qed.

Lemma scan_spec fuel h p ns k :
  chain h p ns → (length ns < fuel)%nat →
  scan fuel h p k = Ret (find_node k ns).
Proof.
  intros Hc. revert fuel.
  induction Hc as [|l n ns Hl _ IH]; intros [|fuel] Hfuel; simpl in *;
    try lia; [done|].
  rewrite Hl. case_decide; [done|]. apply IH. lia.
Qed.

Lemma find_node_Some k ns x :
  find_node k ns = Some x → x ∈ ns ∧ key x.2 = k.
Proof.
  induction ns as [|y ns IH]; simpl; [done|].
  case_decide; intros; simplify_eq.
  - split; [left|done].
  - destruct IH as [? ?]; [done|]. split; [by right|done].
Qed.

Lemma find_node_None k ns :
  find_node k ns = None ↔ k ∉ (kvs ns).*1.
Proof.
  induction ns as [|y ns IH]; simpl.
  - split; [intros _; apply not_elem_of_nil|done].
  - rewrite not_elem_of_cons. case_decide; simpl; naive_solver.
Qed.

Lemma find_node_assoc k ns :
  (λ x, value x.2) <$> find_node k ns = assoc k (kvs ns).
Proof.
  induction ns as [|y ns IH]; simpl; [done|].
  case_decide; [done|]. apply IH.
Qed.

Lemma assoc_Some k v (l : list (KeyT * ValT)) :
  NoDup l.*1 → assoc k l = Some v ↔ (k, v) ∈ l.
Proof.
  induction l as [|[k' v'] l IH]; simpl; intros Hnd.
  - split; [done|]. by intros ?%elem_of_nil.
  - apply NoDup_cons in Hnd as [Hk' Hnd]. rewrite elem_of_cons.
    case_decide; simplify_eq; simpl.
    + split; [by intros [= ->]; left|].
      intros [?|Hin]; [by simplify_eq|].
      destruct Hk'. apply list_elem_of_fmap. by exists (k, v).
    + rewrite IH by done. split; [by right|]. intros [?|?]; [by simplify_eq|done].
Qed.

Lemma assoc_None k (l : list (KeyT * ValT)) :
  assoc k l = None ↔ k ∉ l.*1.
Proof.
  induction l as [|[k' v'] l IH]; simpl.
  - split; [intros _; apply not_elem_of_nil|done].
  - rewrite not_elem_of_cons. case_decide; simpl; naive_solver.
Qed.

Lemma assoc_perm k (l l' : list (KeyT * ValT)) :
  NoDup l.*1 → l ≡ₚ l' → assoc k l = assoc k l'.
Proof.
  intros Hnd Hp.
  assert (NoDup l'.*1) as Hnd' by (by rewrite <-Hp).
  destruct (assoc k l) as [v|] eqn:Hl.
  - symmetry. apply assoc_Some; [done|]. rewrite <-Hp. by apply assoc_Some.
  - symmetry. apply assoc_None. rewrite <-Hp. by apply assoc_None.
Qed.

Lemma concat_lookup_split {A} (bs : list (list A)) i b :
  bs !! i = Some b →
  mjoin bs = mjoin (take i bs) ++ b ++ mjoin (drop (S i) bs).
Proof.
  intros Hi. rewrite <-(take_drop_middle bs i b Hi) at 1.
  by rewrite join_app.
Qed.

Lemma bucket_NoDup (bs : list (list (loc * ChainNode))) i b :
  bs !! i = Some b → NoDup (mjoin bs).*1 → NoDup b.*1.
Proof.
  intros Hi. rewrite (concat_lookup_split bs i b Hi), !fmap_app.
  intros [_ [_ [? _]%NoDup_app]]%NoDup_app. done.
Qed.

Lemma elem_of_concat_lookup {A} (bs : list (list A)) x :
  x ∈ mjoin bs ↔ ∃ i b, bs !! i = Some b ∧ x ∈ b.
Proof.
  rewrite list_elem_of_join. split.
  - intros [b [Hx [i Hi]%list_elem_of_lookup]]. eauto.
  - intros [i [b [Hi Hx]]]. exists b. split; [done|].
    apply list_elem_of_lookup. eauto.
Qed.

Lemma find_node_app k ns1 ns2 :
  find_node k (ns1 ++ ns2) =
    match find_node k ns1 with
    | Some x => Some x
    | None => find_node k ns2
    end.
Proof.
  induction ns1 as [|x ns1 IH]; simpl; [done|]. by case_decide.
Qed.

Lemma find_node_not_in k ns :
  (∀ x, x ∈ ns → key x.2 ≠ k) → find_node k ns = None.
Proof.
  intros Hne. destruct (find_node k ns) as [x|] eqn:Hf; [|done].
  apply find_node_Some in Hf as [Hx Hk]. by destruct (Hne x Hx).
Qed.

Lemma find_node_concat k (bs : list (list (loc * ChainNode))) i b :
  bs !! i = Some b →
  (∀ j b' x, bs !! j = Some b' → x ∈ b' → key x.2 = k → j = i) →
  find_node k (mjoin bs) = find_node k b.
Proof.
  intros Hi Honly.
  rewrite (concat_lookup_split bs i b Hi), !find_node_app.
  rewrite (find_node_not_in k (mjoin (take i bs))).
  - destruct (find_node k b); [done|].
    apply find_node_not_in. intros x Hx Hk.
    apply elem_of_concat_lookup in Hx as [j [b' [Hj Hx]]].
    rewrite lookup_drop in Hj.
    specialize (Honly _ _ _ Hj Hx Hk). lia.
  - intros x Hx Hk.
    apply elem_of_concat_lookup in Hx as [j [b' [Hj Hx]]].
    apply lookup_take_Some in Hj as [Hj Hlt].
    specialize (Honly _ _ _ Hj Hx Hk). lia.
Qed.

Lemma rep_bucket h m bs k :
  rep h m bs →
  let i := hash k mod capacity m in
  0 ≤ i < capacity m ∧
  ∃ p b, data m !! Z.to_nat i = Some p ∧ bs !! Z.to_nat i = Some b ∧
         chain h p b ∧ NoDup b.*1 ∧
         find_node k (mjoin bs) = find_node k b.
Proof.
  intros Hrep i.
  assert (0 ≤ i < capacity m) as Hi
    by (apply Z.mod_pos_bound; apply (rep_capacity _ _ _ Hrep)).
  split; [done|].
  destruct (lookup_lt_is_Some_2 (data m) (Z.to_nat i)) as [p Hp].
  { pose proof (rep_length _ _ _ Hrep). lia. }
  destruct (Forall2_lookup_l _ _ _ _ _ (rep_chains _ _ _ Hrep) Hp)
    as [b [Hb Hc]].
  exists p, b. repeat split; try done.
  - eapply bucket_NoDup; [done|]. apply (rep_nodup _ _ _ Hrep).
  - apply (find_node_concat k bs (Z.to_nat i) b Hb).
    intros j b' x Hj Hx Hk.
    pose proof (rep_index _ _ _ Hrep j b' x Hj Hx) as Hidx.
    rewrite Hk in Hidx. fold i in Hidx. lia.
Qed.

Lemma res_bind_Ret {A B} (a : A) (f : A → res B) : Ret a ≫= f = f a.
Proof. done. Qed.

Lemma array_get_Some {A} (a : list A) i x :
  0 ≤ i → a !! Z.to_nat i = Some x → array_get a i = Ret x.
Proof. intros Hi Hx. unfold array_get. rewrite decide_True by done. by rewrite Hx. Qed.

Lemma probe_spec h m bs k :
  rep h m bs →
  ∃ p b, let i := hash k mod capacity m in
    probe h m k = Ret (i, p, find_node k (mjoin bs)) ∧
    0 ≤ i < capacity m ∧
    data m !! Z.to_nat i = Some p ∧ bs !! Z.to_nat i = Some b ∧
    chain h p b.
Proof.
  intros Hrep.
  destruct (rep_bucket h m bs k Hrep) as [Hi [p [b (Hp & Hb & Hc & Hnd & Hf)]]].
  exists p, b. simpl. repeat split; try done; try apply Hi.
  unfold probe, bucket_index, umod.
  rewrite decide_False by (pose proof (rep_capacity _ _ _ Hrep); lia).
  rewrite res_bind_Ret, (array_get_Some _ _ p) by (done || apply Hi).
  rewrite res_bind_Ret, (scan_spec _ _ p b)
    by (done || (eapply chain_fuel_enough; eassumption)).
  by rewrite res_bind_Ret, Hf.
Qed.

Lemma mapping_find bs k :
  mapping bs k = (λ x, value x.2) <$> find_node k (mjoin bs).
Proof. unfold mapping, content. by rewrite find_node_assoc. Qed.

Lemma at_spec h m bs k :
  rep h m bs →
  at_ k (h, m) =
    match mapping bs k with
    | Some v => Ok v (h, m)
    | None => Throw (out_of_range "out_of_range") (h, m)
    end.
Proof.
  intros Hrep. destruct (probe_spec h m bs k Hrep) as [p [b [Hpr _]]].
  unfold at_. rewrite Hpr, mapping_find. simpl.
  by destruct (find_node k (mjoin bs)) as [[l n]|].
Qed.

Lemma contains_spec h m bs k :
  rep h m bs →
  contains k (h, m) =
    match mapping bs k with
    | Some _ => Ok true (h, m)
    | None => Ok false (h, m)
    end.
Proof.
  intros Hrep. destruct (probe_spec h m bs k Hrep) as [p [b [Hpr _]]].
  unfold contains. rewrite Hpr, mapping_find. simpl.
  by destruct (find_node k (mjoin bs)) as [[l n]|].
Qed.

Lemma ents_locs ns : (ents ns).*1 = ns.*1.
Proof. unfold ents. rewrite <-list_fmap_compose. by apply list_fmap_ext. Qed.

Lemma ents_kvs ns : (ents ns).*2 = kvs ns.
Proof. unfold ents, kvs. rewrite <-list_fmap_compose. by apply list_fmap_ext. Qed.

Lemma ents_perm_locs ns ns' : ents ns ≡ₚ ents ns' → ns.*1 ≡ₚ ns'.*1.
Proof. intros Hp. rewrite <-!ents_locs. by rewrite Hp. Qed.

Lemma ents_perm_kvs ns ns' : ents ns ≡ₚ ents ns' → kvs ns ≡ₚ kvs ns'.
Proof. intros Hp. rewrite <-!ents_kvs. by rewrite Hp. Qed.

Lemma evolves_refl h bs : evolves h bs h bs.
Proof. split; auto. Qed.

Lemma evolves_trans h bs h1 bs1 h2 bs2 :
  evolves h bs h1 bs1 → evolves h1 bs1 h2 bs2 → evolves h bs h2 bs2.
Proof.
  intros [Hf1 Ho1] [Hf2 Ho2]. split.
  - intros l Hl Hsome. rewrite <-(Hf1 l Hl Hsome). apply Hf2.
    + intros Hl1. destruct (Ho1 l Hl1) as [?|Hnone]; [done|].
      rewrite Hnone in Hsome. by destruct Hsome.
    + by rewrite (Hf1 l Hl Hsome).
  - intros l Hl2. destruct (Ho2 l Hl2) as [Hl1|Hnone]; [by apply Ho1|].
    destruct (decide (l ∈ locs bs)) as [?|Hl]; [by left|]. right.
    destruct (h !! l) as [n|] eqn:Hh; [|done].
    rewrite (Hf1 l Hl) in Hnone by (by rewrite Hh). congruence.
Qed.

(** ** Updating one bucket *)

Lemma join_insert {A} (bs : list (list A)) i b b' :
  bs !! i = Some b →
  mjoin (<[i:=b']> bs) = mjoin (take i bs) ++ b' ++ mjoin (drop (S i) bs).
Proof.
  intros Hi. rewrite insert_take_drop by (by eapply lookup_lt_Some).
  by rewrite join_app.
Qed.

Lemma join_insert_perm {A} (bs : list (list A)) i b b' extra :
  bs !! i = Some b → b' ≡ₚ extra ++ b →
  mjoin (<[i:=b']> bs) ≡ₚ extra ++ mjoin bs.
Proof.
  intros Hi Hp.
  rewrite (join_insert bs i b b' Hi), (concat_lookup_split bs i b Hi), Hp.
  rewrite <-(assoc_L (++) extra). apply Permutation_app_swap_app.
Qed.

Lemma chain_insert_fresh h p ns l n :
  h !! l = None → chain h p ns → chain (<[l:=n]> h) p ns.
Proof.
  intros Hl Hc. apply (chain_frame h); [done|].
  intros l' Hl'. apply lookup_insert_ne. intros ->.
  apply (chain_dom _ _ _ _ Hc), elem_of_dom in Hl'.
  rewrite Hl in Hl'. by destruct Hl'.
Qed.

Lemma chains_frame h h' (d : list (option loc)) bs :
  Forall2 (chain h) d bs →
  (∀ l, l ∈ locs bs → h' !! l = h !! l) →
  Forall2 (chain h') d bs.
Proof.
  intros Hc Hsame. apply Forall2_same_length_lookup.
  split; [by eapply Forall2_length|].
  intros i p b Hp Hb. apply (chain_frame h).
  - by eapply Forall2_lookup_lr.
  - intros l Hl. apply Hsame. unfold locs.
    apply list_elem_of_fmap in Hl as [x [-> Hx]].
    apply list_elem_of_fmap_2, elem_of_concat_lookup. eauto.
Qed.

Lemma wrap_small z : 0 ≤ z < size_t_mod → wrap z = z.
Proof. intros. unfold wrap. by apply Z.mod_small. Qed.

Lemma rep_sz_nonneg h m bs : rep h m bs → 0 ≤ sz m.
Proof. intros Hrep. rewrite (rep_sz _ _ _ Hrep). lia. Qed.

Lemma mapping_None bs k : mapping bs k = None ↔ k ∉ (content bs).*1.
Proof. apply assoc_None. Qed.

(** Linking a new node at the head of bucket [i]: lines 107-109. *)
Lemma rep_push h m bs k v i p b l :
  rep h m bs → mapping bs k = None → h !! l = None →
  i = hash k mod capacity m →
  data m !! Z.to_nat i = Some p → bs !! Z.to_nat i = Some b →
  sz m + 1 < size_t_mod →
  rep (<[l := mkNode k v p]> h)
      (mkMap (array_set (data m) i (Some l)) (wrap (sz m + 1)) (capacity m)
         (curr m) (curr_idx m))
      (<[Z.to_nat i := (l, mkNode k v p) :: b]> bs).
Proof.
  intros Hrep Hk Hl -> Hp Hb Hsz.
  pose proof (rep_capacity _ _ _ Hrep) as Hcap.
  assert (0 ≤ hash k mod capacity m < capacity m) as Hi
    by (apply Z.mod_pos_bound; lia).
  set (i := hash k mod capacity m) in *.
  assert (mjoin (<[Z.to_nat i := (l, mkNode k v p) :: b]> bs)
            ≡ₚ (l, mkNode k v p) :: mjoin bs) as Hperm
    by (by apply (join_insert_perm bs _ b _ [_])).
  assert (l ∉ locs bs) as Hfresh.
  { intros Hin. unfold locs in Hin.
    apply list_elem_of_fmap in Hin as [x [-> Hx]].
    apply elem_of_concat_lookup in Hx as [j [b' [Hj Hx]]].
    destruct (Forall2_lookup_r _ _ _ _ _ (rep_chains _ _ _ Hrep) Hj)
      as [p' [_ Hc]].
    rewrite (chain_lookup _ _ _ _ Hc Hx) in Hl. done. }
  split; simpl.
  - done.
  - unfold array_set. rewrite length_insert. apply (rep_length _ _ _ Hrep).
  - unfold array_set. apply Forall2_insert.
    + apply (chains_frame h); [apply (rep_chains _ _ _ Hrep)|].
      intros l' Hl'. apply lookup_insert_ne. by intros ->.
    + constructor; [by rewrite lookup_insert_eq|]. simpl.
      apply chain_insert_fresh; [done|].
      eapply Forall2_lookup_lr; [apply (rep_chains _ _ _ Hrep)|done..].
  - rewrite Hperm. simpl. apply NoDup_cons. split; [done|].
    apply (rep_nodup _ _ _ Hrep).
  - rewrite Hperm. simpl. rewrite wrap_small, (rep_sz _ _ _ Hrep).
    + lia.
    + pose proof (rep_sz_nonneg _ _ _ Hrep). lia.
  - intros j b' x Hj Hx.
    apply list_lookup_insert_Some in Hj as [(<- & <- & _)|[Hne Hj]].
    + apply elem_of_cons in Hx as [->|Hx]; simpl; [lia|].
      rewrite (rep_index _ _ _ Hrep _ _ _ Hb Hx). done.
    + by apply (rep_index _ _ _ Hrep _ b').
  - unfold kvs. rewrite Hperm. simpl. apply NoDup_cons. split.
    + by apply mapping_None.
    + apply (rep_keys _ _ _ Hrep).
  - pose proof (rep_sz_nonneg _ _ _ Hrep). rewrite wrap_small; lia.
Qed.

(** ** rehash *)

Lemma new_buckets_length n : length (new_buckets n) = Z.to_nat n.
Proof. apply length_replicate. Qed.

Lemma new_buckets_chains h n :
  Forall2 (chain h) (new_buckets n) (replicate (Z.to_nat n) []).
Proof. apply Forall2_replicate. constructor. Qed.

Lemma join_replicate_nil {A} n : mjoin (replicate n (@nil A)) = [].
Proof. induction n; simpl; auto. Qed.

(** The inner loop moves the nodes [rem] still to visit into the new
    buckets [bsn]. *)
Lemma rehash_chain_spec new_capacity rem :
  0 < new_capacity →
  ∀ fuel h d bsn current,
  chain h current rem → (length rem < fuel)%nat →
  Z.of_nat (length d) = new_capacity →
  Forall2 (chain h) d bsn →
  NoDup (rem.*1 ++ locs bsn) →
  (∀ j b x, bsn !! j = Some b → x ∈ b →
     hash (key x.2) mod new_capacity = Z.of_nat j) →
  ∃ h' d' bsn',
    rehash_chain fuel new_capacity h d current = Ret (h', d') ∧
    length d' = length d ∧
    Forall2 (chain h') d' bsn' ∧
    ents (mjoin bsn') ≡ₚ ents (rem ++ mjoin bsn) ∧
    (∀ j b x, bsn' !! j = Some b → x ∈ b →
       hash (key x.2) mod new_capacity = Z.of_nat j) ∧
    (∀ l, l ∉ rem.*1 → h' !! l = h !! l).
Proof.
  intros Hcap.
  induction rem as [|[l n] rem IH];
    intros fuel h d bsn current Hc Hfuel;
    inversion Hc as [|? ? ? Hln Hcn]; simplify_eq;
    intros Hlen Hbs Hnd Hidx;
    destruct fuel as [|fuel]; simpl in Hfuel; try lia.
  { exists h, d, bsn. simpl. repeat split; auto. }
  simpl. rewrite Hln. unfold umod.
  rewrite decide_False by lia. rewrite res_bind_Ret.
  set (j := hash (key n) mod new_capacity).
  assert (0 ≤ j < new_capacity) as Hj by (apply Z.mod_pos_bound; lia).
  destruct (lookup_lt_is_Some_2 d (Z.to_nat j)) as [head Hhead]; [lia|].
  destruct (Forall2_lookup_l _ _ _ _ _ Hbs Hhead) as [bj [Hbj Hcj]].
  rewrite (array_get_Some _ _ head) by (done || lia).
  rewrite res_bind_Ret.
  simpl in Hnd. apply NoDup_cons in Hnd as [Hl Hnd].
  rewrite elem_of_app in Hl.
  set (n' := set_next n head).
  assert (mjoin (<[Z.to_nat j := (l, n') :: bj]> bsn) ≡ₚ (l, n') :: mjoin bsn)
    as Hperm by (by apply (join_insert_perm bsn _ bj _ [_])).
  destruct (IH fuel (<[l := n']> h) (array_set d j (Some l))
              (<[Z.to_nat j := (l, n') :: bj]> bsn) (next n))
    as (h' & d' & bsn' & Hrun & Hlen' & Hbs' & Hp' & Hidx' & Hfr').
  - apply (chain_frame h); [done|]. intros l' Hl'.
    apply lookup_insert_ne. intros ->. tauto.
  - lia.
  - unfold array_set. by rewrite length_insert.
  - unfold array_set. apply Forall2_insert.
    + apply (chains_frame h); [done|]. intros l' Hl'.
      apply lookup_insert_ne. intros ->. tauto.
    + constructor; [by rewrite lookup_insert_eq|]. simpl.
      apply (chain_frame h); [done|]. intros l' Hl'.
      apply lookup_insert_ne. intros ->. apply Hl. right.
      unfold locs. apply list_elem_of_fmap in Hl' as [x [-> Hx]].
      apply list_elem_of_fmap_2, elem_of_concat_lookup. eauto.
  - unfold locs. rewrite Hperm. simpl.
    apply NoDup_app in Hnd as (Hnd1 & Hdisj & Hnd2).
    apply NoDup_app. repeat split.
    + done.
    + intros x Hx. rewrite not_elem_of_cons. split; [|by apply Hdisj].
      intros ->. tauto.
    + apply NoDup_cons. split; [tauto|done].
  - intros j' b' x Hj' Hx.
    apply list_lookup_insert_Some in Hj' as [(<- & <- & _)|[Hne Hj']].
    + apply elem_of_cons in Hx as [->|Hx]; simpl; [fold j; lia|].
      by apply (Hidx _ bj).
    + by apply (Hidx _ b').
  - exists h', d', bsn'. repeat split; try done.
    + unfold array_set in Hlen'. by rewrite length_insert in Hlen'.
    + rewrite Hp'. unfold ents. rewrite !fmap_app, Hperm. simpl.
      by rewrite <-Permutation_middle.
    + intros l' Hl'. simpl in Hl'. apply not_elem_of_cons in Hl' as [Hne Hl'].
      rewrite Hfr' by done. by apply lookup_insert_ne.
Qed.

Lemma drop_cons_inv {A} (l : list A) i x tl :
  drop i l = x :: tl → l !! i = Some x ∧ tl = drop (S i) l.
Proof.
  intros Hd. split.
  - rewrite <-(Nat.add_0_r i), <-lookup_drop, Hd. done.
  - replace (S i) with (i + 1)%nat by lia.
    rewrite <-drop_drop, Hd. done.
Qed.

Lemma array_get_nat {A} (a : list A) (i : nat) x :
  a !! i = Some x → array_get a (Z.of_nat i) = Ret x.
Proof. intros Hx. apply array_get_Some; [lia|]. by rewrite Nat2Z.id. Qed.

(** The outer loop moves the old buckets [rest], from index [i0] on. *)
Lemma rehash_buckets_spec new_capacity old_data rest :
  0 < new_capacity →
  ∀ i0 h d bsn,
  Forall2 (chain h) (drop i0 old_data) rest →
  Z.of_nat (length d) = new_capacity →
  Forall2 (chain h) d bsn →
  NoDup (locs rest ++ locs bsn) →
  (∀ j b x, bsn !! j = Some b → x ∈ b →
     hash (key x.2) mod new_capacity = Z.of_nat j) →
  ∃ h' d' bsn',
    rehash_buckets new_capacity old_data (seq i0 (length rest)) h d
      = Ret (h', d') ∧
    length d' = length d ∧
    Forall2 (chain h') d' bsn' ∧
    ents (mjoin bsn') ≡ₚ ents (mjoin rest ++ mjoin bsn) ∧
    (∀ j b x, bsn' !! j = Some b → x ∈ b →
       hash (key x.2) mod new_capacity = Z.of_nat j) ∧
    (∀ l, l ∉ locs rest → h' !! l = h !! l).
Proof.
  intros Hcap.
  induction rest as [|r rest IH]; intros i0 h d bsn Hold.
  { intros Hlen Hbs Hnd Hidx. exists h, d, bsn. simpl. repeat split; auto. }
  inversion Hold as [|p ? tl ? Hr Hrest Hdrop]; simplify_eq.
  intros Hlen Hbs Hnd Hidx. symmetry in Hdrop. apply drop_cons_inv in Hdrop as [Hp ->].
  unfold locs in Hnd. simpl in Hnd. rewrite fmap_app in Hnd.
  assert (NoDup (r.*1 ++ locs bsn) ∧ NoDup (locs rest ++ locs bsn) ∧
          (∀ l, l ∈ r.*1 → l ∉ locs rest)) as (Hnd1 & Hnd2 & Hdisj).
  { rewrite <-(assoc_L (++)) in Hnd.
    apply NoDup_app in Hnd as (Hr1 & Hr2 & Hr3).
    apply NoDup_app in Hr3 as (Hr4 & Hr5 & Hr6).
    repeat split.
    - apply NoDup_app. repeat split; [done| |done].
      intros x Hx. specialize (Hr2 x Hx). rewrite elem_of_app in Hr2. tauto.
    - apply NoDup_app. by repeat split.
    - intros x Hx. specialize (Hr2 x Hx). rewrite elem_of_app in Hr2. tauto. }
  destruct (rehash_chain_spec new_capacity r Hcap (chain_fuel h) h d bsn p)
    as (h1 & d1 & bsn1 & Hrun1 & Hlen1 & Hbs1 & Hp1 & Hidx1 & Hfr1);
    try done.
  { apply (chain_fuel_enough h p); [done|].
    by apply NoDup_app in Hnd1 as [? _]. }
  destruct (IH (S i0) h1 d1 bsn1)
    as (h' & d' & bsn' & Hrun & Hlen' & Hbs' & Hp' & Hidx' & Hfr');
    try done.
  - apply (chains_frame h); [done|]. intros l Hl. apply Hfr1.
    intros Hlr. by apply (Hdisj l).
  - lia.
  - apply NoDup_app in Hnd2 as (Hn1 & Hn2 & Hn3).
    apply ents_perm_locs in Hp1. rewrite fmap_app in Hp1.
    apply NoDup_app. repeat split; [done| |].
    + intros x Hx. unfold locs. rewrite Hp1, elem_of_app.
      intros [Hxr|Hxb]; [by apply (Hdisj x)|by apply (Hn2 x)].
    + unfold locs. by rewrite Hp1.
  - exists h', d', bsn'. repeat split; try done.
    + cbn [length seq rehash_buckets].
      rewrite (array_get_nat _ _ p Hp), res_bind_Ret, Hrun1.
      by rewrite res_bind_Ret.
    + lia.
    + rewrite Hp'. unfold ents in *. rewrite !fmap_app, Hp1. simpl.
      rewrite !fmap_app. rewrite !(assoc_L (++)).
      apply Permutation_app_tail, Permutation_app_comm.
    + intros l Hl. unfold locs in Hl. simpl in Hl.
      rewrite fmap_app, elem_of_app in Hl.
      rewrite Hfr' by (unfold locs; tauto). apply Hfr1. tauto.
Qed.

Lemma drop_0' {A} (l : list A) : drop 0 l = l.
Proof. done. Qed.

(** [rehash] relinks every node in a table of [new_capacity] buckets. *)
Lemma rehash_spec h m bs new_capacity :
  rep h m bs → 0 < new_capacity < size_t_mod →
  ∃ h' d' bs',
    rehash new_capacity (h, m)
      = Ok tt (h', mkMap d' (sz m) new_capacity (curr m) (curr_idx m)) ∧
    rep h' (mkMap d' (sz m) new_capacity (curr m) (curr_idx m)) bs' ∧
    ents (mjoin bs') ≡ₚ ents (mjoin bs) ∧
    evolves h bs h' bs'.
Proof.
  intros Hrep Hcap.
  pose proof (rep_length _ _ _ Hrep) as Hlen.
  pose proof (Forall2_length _ _ _ (rep_chains _ _ _ Hrep)) as Hlen2.
  destruct (rehash_buckets_spec new_capacity (data m) bs (proj1 Hcap) 0%nat h
              (new_buckets new_capacity) (replicate (Z.to_nat new_capacity) []))
    as (h' & d' & bs' & Hrun & Hlen' & Hbs' & Hp' & Hidx' & Hfr').
  - apply (rep_chains _ _ _ Hrep).
  - rewrite new_buckets_length. lia.
  - apply new_buckets_chains.
  - unfold locs at 2. rewrite join_replicate_nil. simpl.
    rewrite app_nil_r. apply (rep_nodup _ _ _ Hrep).
  - intros j b x Hj Hx. apply lookup_replicate in Hj as [-> _].
    by apply elem_of_nil in Hx.
  - rewrite join_replicate_nil, app_nil_r in Hp'.
    exists h', d', bs'. repeat split; simpl; try done; try lia.
    + unfold rehash. rewrite <-Hlen, Nat2Z.id, Hlen2, Hrun. done.
    + rewrite Hlen', new_buckets_length. lia.
    + apply ents_perm_locs in Hp'. rewrite Hp'. apply (rep_nodup _ _ _ Hrep).
    + rewrite (rep_sz _ _ _ Hrep). f_equal.
      apply Permutation_length in Hp'. unfold ents in Hp'.
      by rewrite !length_fmap in Hp'.
    + apply ents_perm_kvs in Hp'. rewrite Hp'. apply (rep_keys _ _ _ Hrep).
    + apply (rep_sz_lt _ _ _ Hrep).
    + intros l Hl _. by apply Hfr'.
    + intros l Hl. left. apply ents_perm_locs in Hp'.
      unfold locs in *. by rewrite <-Hp'.
Qed.

(** ** The load factor test on doubles *)

Lemma digits2_pos_bounds p :
  2 ^ (Z.pos (digits2_pos p) - 1) ≤ Z.pos p < 2 ^ Z.pos (digits2_pos p).
Proof.
  induction p as [p IH|p IH|]; simpl.
  - rewrite Pos2Z.inj_succ. replace (Z.succ (Z.pos (digits2_pos p)) - 1) with (Z.succ (Z.pos (digits2_pos p) - 1)) by lia.
    rewrite !Z.pow_succ_r by lia. lia.
  - rewrite Pos2Z.inj_succ. replace (Z.succ (Z.pos (digits2_pos p)) - 1) with (Z.succ (Z.pos (digits2_pos p) - 1)) by lia.
    rewrite !Z.pow_succ_r by lia. lia.
  - done.
Qed.

Lemma digits2_pos_unique p d :
  2 ^ (d - 1) ≤ Z.pos p < 2 ^ d → Z.pos (digits2_pos p) = d.
Proof.
  intros [Hlo Hhi]. pose proof (digits2_pos_bounds p) as [Hlo' Hhi'].
  assert (0 < d).
  { destruct (decide (0 < d)); [done|].
    assert (2 ^ d ≤ 1).
    { destruct (decide (d = 0)) as [->|]; [done|].
      rewrite Z.pow_neg_r by lia. lia. }
    lia. }
  destruct (Z.lt_trichotomy (Z.pos (digits2_pos p)) d) as [Hlt|[->|Hgt]]; [|done|].
  - assert (2 ^ Z.pos (digits2_pos p) ≤ 2 ^ (d - 1)) by (apply Z.pow_le_mono_r; lia). lia.
  - assert (2 ^ d ≤ 2 ^ (Z.pos (digits2_pos p) - 1)) by (apply Z.pow_le_mono_r; lia). lia.
Qed.

Lemma iter_xO_pow p k : Z.pos (Pos.iter xO p k) = Z.pos p * 2 ^ Z.pos k.
Proof.
  induction k as [|k IH] using Pos.peano_ind.
  - simpl. lia.
  - rewrite Pos.iter_succ, Pos2Z.inj_succ, Z.pow_succ_r by lia.
    rewrite Pos2Z.inj_xO, IH. lia.
Qed.

(** An exact, normalized mantissa is left as it is. *)
Lemma binary_round_aux_exact s m e :
  2 ^ 52 ≤ Z.pos m < 2 ^ 53 → -1074 ≤ e ≤ 971 →
  binary_round_aux prec emax s (Z.pos m) e loc_Exact = S754_finite s m e.
Proof.
  intros Hm He.
  assert (Z.pos (digits2_pos m) = 53) as Hd by (by apply digits2_pos_unique).
  unfold binary_round_aux, shr_fexp, fexp, emin. cbn [Zdigits2].
  rewrite Hd. unfold prec, emax.
  replace (Z.max (53 + e - 53) (3 - 1024 - 53) - e) with 0 by lia.
  cbn [shr shr_record_of_loc shr_m loc_of_shr_record round_nearest_even Zdigits2].
  rewrite Hd.
  replace (Z.max (53 + e - 53) (3 - 1024 - 53) - e) with 0 by lia.
  cbn [shr shr_record_of_loc shr_m].
  destruct (Z.leb_spec e (1024 - 53)); [done|lia].
Qed.

Lemma to_double_pos z :
  0 < z < 2 ^ 53 →
  ∃ m k, to_double z = S754_finite false m (- k) ∧
         2 ^ 52 ≤ Z.pos m < 2 ^ 53 ∧ 0 ≤ k ≤ 52 ∧ Z.pos m = z * 2 ^ k.
Proof.
  intros Hz. destruct z as [|p|p]; try lia.
  pose proof (digits2_pos_bounds p) as Hb.
  set (d := Z.pos (digits2_pos p)) in *.
  assert (1 ≤ d ≤ 53) as Hd.
  { split; [unfold d; lia|].
    destruct (decide (d ≤ 53)); [done|].
    assert (2 ^ 53 ≤ 2 ^ (d - 1)) by (apply Z.pow_le_mono_r; lia). lia. }
  unfold to_double, binary_normalize, binary_round, shl_align, fexp, emin.
  fold d. unfold prec, emax.
  replace (Z.max (d + 0 - 53) (3 - 1024 - 53) - 0) with (d - 53) by lia.
  replace (Z.max (d + 0 - 53) (3 - 1024 - 53)) with (d - 53) by lia.
  destruct (d - 53) as [|k|k] eqn:Hk; try lia.
  - exists p, 0. rewrite binary_round_aux_exact; [|by replace d with 53 in Hb by lia|lia].
    split; [done|]. replace d with 53 in Hb by lia. split; [done|]. lia.
  - exists (Pos.iter xO p k), (Z.pos k).
    assert (Z.pos (Pos.iter xO p k) = Z.pos p * 2 ^ Z.pos k) as Hm by apply iter_xO_pow.
    assert (Z.pos k = 53 - d) as Hkd by lia.
    assert (2 ^ 52 ≤ Z.pos p * 2 ^ Z.pos k < 2 ^ 53) as Hrange.
    { rewrite Hkd.
      replace (2 ^ 52) with (2 ^ (d - 1) * 2 ^ (53 - d))
        by (rewrite <-Z.pow_add_r by lia; f_equal; lia).
      replace (2 ^ 53) with (2 ^ d * 2 ^ (53 - d))
        by (rewrite <-Z.pow_add_r by lia; f_equal; lia).
      assert (0 < 2 ^ (53 - d)) by (apply Z.pow_pos_nonneg; lia). nia. }
    rewrite binary_round_aux_exact; [|by rewrite Hm|lia].
    split; [done|]. rewrite Hm. split; [done|]. split; [lia|done].
Qed.

Lemma ltb_1_5 m e :
  SFltb double_1_5 (S754_finite false m e) =
    match -52 ?= e with
    | Lt => true
    | Eq => N15 <? Z.pos m
    | Gt => false
    end.
Proof.
  unfold SFltb, double_1_5. cbn [SFcompare].
  destruct (-52 ?= e); reflexivity.
Qed.

Lemma div_core m1 k1 m2 k2 :
  2 ^ 52 ≤ Z.pos m1 < 2 ^ 53 → 2 ^ 52 ≤ Z.pos m2 < 2 ^ 53 →
  0 ≤ k1 ≤ 52 → 0 ≤ k2 ≤ 52 →
  SFdiv_core_binary prec emax (Z.pos m1) (- k1) (Z.pos m2) (- k2) =
    ((Z.pos m1 * 2 ^ 53) / Z.pos m2, k2 - k1 - 53,
     new_location (Z.pos m2) ((Z.pos m1 * 2 ^ 53) mod Z.pos m2)).
Proof.
  intros H1 H2 Hk1 Hk2.
  unfold SFdiv_core_binary. cbn [Zdigits2].
  rewrite (digits2_pos_unique m1 53), (digits2_pos_unique m2 53) by done.
  unfold fexp, emin, prec, emax.
  replace (Z.min (Z.max (53 + - k1 - (53 + - k2) - 53) (3 - 1024 - 53)) (- k1 - - k2))
    with (k2 - k1 - 53) by lia.
  replace (- k1 - - k2 - (k2 - k1 - 53)) with 53 by lia.
  rewrite Z.shiftl_mul_pow2 by lia.
  unfold Z.div, Z.modulo.
  destruct (Z.div_eucl (Z.pos m1 * 2 ^ 53) (Z.pos m2)) as [q r]. done.
Qed.

Lemma binary_round_aux_finish s mx ex lx :
  binary_round_aux prec emax s mx ex lx =
    let '(mrs, e) := shr_fexp prec emax mx ex lx in
    finish s (round_nearest_even (shr_m mrs) (loc_of_shr_record mrs)) e.
Proof. unfold binary_round_aux, finish. by destruct (shr_fexp _ _ _ _ _). Qed.

Lemma finish_normal s m e :
  2 ^ 52 ≤ Z.pos m < 2 ^ 53 → -1074 ≤ e ≤ 971 →
  finish s (Z.pos m) e = S754_finite s m e.
Proof.
  intros Hm He. unfold finish, shr_fexp, fexp, emin. cbn [Zdigits2].
  rewrite (digits2_pos_unique m 53) by done. unfold prec, emax.
  replace (Z.max (53 + e - 53) (3 - 1024 - 53) - e) with 0 by lia.
  cbn [shr shr_record_of_loc shr_m].
  destruct (Z.leb_spec e (1024 - 53)); [done|lia].
Qed.

Lemma shr_record_of_loc_m m l : shr_m (shr_record_of_loc m l) = m.
Proof. by destruct l as [|[]]. Qed.

Lemma loc_of_shr_record_of_loc m l :
  loc_of_shr_record (shr_record_of_loc m l) = l.
Proof. by destruct l as [|[]]. Qed.

(** A quotient of 53 digits is rounded where it is. *)
Lemma round_53 s q e l :
  2 ^ 52 ≤ Z.pos q < 2 ^ 53 → -1074 ≤ e →
  binary_round_aux prec emax s (Z.pos q) e l =
    finish s (round_nearest_even (Z.pos q) l) e.
Proof.
  intros Hq He. rewrite binary_round_aux_finish.
  unfold shr_fexp, fexp, emin. cbn [Zdigits2].
  rewrite (digits2_pos_unique q 53) by done. unfold prec, emax.
  replace (Z.max (53 + e - 53) (3 - 1024 - 53) - e) with 0 by lia.
  cbn [shr]. by rewrite shr_record_of_loc_m, loc_of_shr_record_of_loc.
Qed.

(** A quotient of 54 digits loses its last bit first. *)
Lemma round_54 s q e l :
  2 ^ 53 ≤ Z.pos q < 2 ^ 54 → -1074 ≤ e →
  binary_round_aux prec emax s (Z.pos q) e l =
    finish s (round_nearest_even (Z.pos q / 2)
                (loc_shift (Z.odd (Z.pos q)) l)) (e + 1).
Proof.
  intros Hq He. rewrite binary_round_aux_finish.
  unfold shr_fexp, fexp, emin. cbn [Zdigits2].
  rewrite (digits2_pos_unique q 54) by done. unfold prec, emax.
  replace (Z.max (54 + e - 53) (3 - 1024 - 53) - e) with 1 by lia.
  cbn [shr iter_pos].
  destruct q as [p|p|]; [| |lia].
  - replace (Z.pos p~1 / 2) with (Z.pos p)
      by (rewrite Pos2Z.inj_xI; apply (Z.div_unique _ 2 _ 1); lia).
    by destruct l as [|[]].
  - replace (Z.pos p~0 / 2) with (Z.pos p)
      by (rewrite Pos2Z.inj_xO; apply (Z.div_unique _ 2 _ 0); lia).
    by destruct l as [|[]].
Qed.

Lemma rne_bounds m l : m ≤ round_nearest_even m l ≤ m + 1.
Proof. destruct l as [|[]]; simpl; try lia. destruct (Z.even m); lia. Qed.

Lemma rne_exact m : round_nearest_even m loc_Exact = m.
Proof. done. Qed.

Lemma rne_gt m : round_nearest_even m (loc_Inexact Gt) = m + 1.
Proof. done. Qed.

Lemma new_location_even_divisor M r :
  Z.even M = true →
  new_location M r = if r =? 0 then loc_Exact else loc_Inexact (2 * r ?= M).
Proof. intros He. unfold new_location, new_location_even. by rewrite He. Qed.

(** The quotient of two normalized mantissas, the divisor being even,
    compared with 1.5 at the exponent where the mantissas decide. *)
Lemma quotient_53 (a b : positive) :
  2 ^ 52 ≤ Z.pos a < 2 ^ 53 → 2 ^ 52 ≤ Z.pos b < 2 ^ 53 →
  Z.even (Z.pos b) = true → Z.pos a < Z.pos b →
  let q := (Z.pos a * 2 ^ 53) / Z.pos b in
  let l := new_location (Z.pos b) ((Z.pos a * 2 ^ 53) mod Z.pos b) in
  2 ^ 52 ≤ q ∧ round_nearest_even q l < 2 ^ 53 ∧
  (N15 < round_nearest_even q l ↔ 3 * Z.pos b < 4 * Z.pos a).
Proof.
  intros Ha Hb Heven Hlt q l.
  pose proof (Z_div_mod (Z.pos a * 2 ^ 53) (Z.pos b) eq_refl) as Hdm.
  unfold Z.div, Z.modulo in q, l.
  destruct (Z.div_eucl (Z.pos a * 2 ^ 53) (Z.pos b)) as [q0 r] eqn:Hqr.
  subst q l. destruct Hdm as [HX Hr].
  apply Z.even_spec in Heven as [b' Hb'].
  rewrite new_location_even_divisor by (apply Z.even_spec; by exists b').
  pose proof (rne_bounds q0 (if r =? 0 then loc_Exact else loc_Inexact (2 * r ?= Z.pos b)))
    as Hrne.
  unfold N15.
  assert (2 ^ 52 ≤ q0) as Hq1 by nia.
  assert (q0 ≤ 2 ^ 53 - 2) as Hq2 by nia.
  split; [done|]. split; [lia|]. split.
  - intros Hgt. destruct (Z.eqb_spec r 0) as [->|Hr0].
    + rewrite rne_exact in Hgt. nia.
    + nia.
  - intros Hratio.
    assert (6755399441055744 ≤ q0) as Hq3 by nia.
    destruct (decide (q0 = 6755399441055744)) as [->|Hne]; [|lia].
    destruct (Z.eqb_spec r 0) as [->|Hr0]; [nia|].
    assert (2 * r ?= Z.pos b = Gt) as -> by (apply Z.compare_gt_iff; nia).
    rewrite rne_gt. lia.
Qed.

Lemma quotient_54 (a b : positive) :
  2 ^ 52 ≤ Z.pos a < 2 ^ 53 → 2 ^ 52 ≤ Z.pos b < 2 ^ 53 →
  Z.even (Z.pos b) = true → Z.pos b ≤ Z.pos a →
  let q := (Z.pos a * 2 ^ 53) / Z.pos b in
  let l := new_location (Z.pos b) ((Z.pos a * 2 ^ 53) mod Z.pos b) in
  let m := round_nearest_even (q / 2) (loc_shift (Z.odd q) l) in
  2 ^ 53 ≤ q < 2 ^ 54 ∧ 2 ^ 52 ≤ m < 2 ^ 53 ∧
  (N15 < m ↔ 3 * Z.pos b < 2 * Z.pos a).
Proof.
  intros Ha Hb Heven Hle q l m.
  pose proof (Z.div_mod (Z.pos a * 2 ^ 53) (Z.pos b) ltac:(done)) as HX.
  pose proof (Z.mod_pos_bound (Z.pos a * 2 ^ 53) (Z.pos b) ltac:(done)) as Hr.
  subst q l m. revert HX Hr.
  generalize ((Z.pos a * 2 ^ 53) / Z.pos b), ((Z.pos a * 2 ^ 53) mod Z.pos b).
  intros q0 r HX Hr.
  apply Z.even_spec in Heven as [b' Hb'].
  rewrite new_location_even_divisor by (apply Z.even_spec; by exists b').
  set (l := if r =? 0 then loc_Exact else loc_Inexact (2 * r ?= Z.pos b)).
  pose proof (rne_bounds (q0 / 2) (loc_shift (Z.odd q0) l)) as Hrne.
  pose proof (Z.div_mod q0 2 ltac:(done)) as Hq0.
  pose proof (Z.mod_pos_bound q0 2 ltac:(done)) as Hq0'.
  assert (Z.odd q0 = bool_decide (q0 mod 2 = 1)) as Hodd.
  { case_bool_decide as Hd.
    - apply Z.odd_spec. exists (q0 / 2). lia.
    - apply not_true_is_false. intros [k Hk]%Z.odd_spec. lia. }
  unfold N15.
  assert (2 ^ 53 ≤ q0) as Hq1 by nia.
  assert (q0 ≤ 2 ^ 54 - 2) as Hq2 by nia.
  split; [lia|].
  assert (round_nearest_even (q0 / 2) (loc_shift (Z.odd q0) l) < 2 ^ 53) as Hlt.
  { destruct (decide (q0 = 2 ^ 54 - 2)) as [Heq|Hne]; [|lia].
    assert (r = 0) as -> by nia.
    rewrite Hodd, bool_decide_eq_false_2 by lia.
    subst l. change (0 =? 0) with true. cbv iota. unfold loc_shift.
    rewrite rne_exact. lia. }
  split; [lia|]. split.
  - intros Hgt.
    destruct (decide (q0 / 2 < 6755399441055744)) as [Hs|Hs]; [lia|].
    destruct (decide (6755399441055744 < q0 / 2)) as [Hb2|Hb2]; [nia|].
    assert (q0 / 2 = 6755399441055744) as Hh by lia.
    rewrite Hh in Hgt, Hq0.
    destruct (decide (q0 mod 2 = 1)) as [Ho|Ho]; [nia|].
    assert (q0 mod 2 = 0) as Hev by lia.
    rewrite Hodd, bool_decide_eq_false_2 in Hgt by done.
    subst l. destruct (Z.eqb_spec r 0) as [->|Hr0].
    + cbn in Hgt. lia.
    + cbn in Hgt. lia.
  - intros Hratio.
    assert (2 * 6755399441055744 + 1 ≤ q0) as Hq3 by nia.
    destruct (decide (q0 / 2 = 6755399441055744)) as [Hh|Hne]; [|lia].
    assert (q0 mod 2 = 1) as Ho by lia.
    rewrite Hh, Hodd, bool_decide_eq_true_2 by done.
    assert (r ≠ 0) as Hr0 by nia.
    subst l. destruct (Z.eqb_spec r 0) as [|_]; [done|].
    cbn. lia.
Qed.

Lemma div_normal (a b : positive) (ka kb : Z) :
  2 ^ 52 ≤ Z.pos a < 2 ^ 53 → 2 ^ 52 ≤ Z.pos b < 2 ^ 53 →
  0 ≤ ka ≤ 52 → 0 ≤ kb ≤ 52 → Z.even (Z.pos b) = true →
  ∃ m : positive,
    SFdiv prec emax (S754_finite false a (- ka)) (S754_finite false b (- kb)) =
      S754_finite false m
        (if bool_decide (Z.pos a < Z.pos b) then kb - ka - 53 else kb - ka - 52) ∧
    (N15 < Z.pos m ↔
       if bool_decide (Z.pos a < Z.pos b) then 3 * Z.pos b < 4 * Z.pos a
       else 3 * Z.pos b < 2 * Z.pos a).
Proof.
  intros Ha Hb Hka Hkb Heven. unfold SFdiv.
  rewrite div_core by done. cbv beta iota zeta. change (xorb false false) with false.
  case_bool_decide as Hlt.
  - destruct (quotient_53 a b Ha Hb Heven Hlt) as (Hq & Hm & Hiff).
    pose proof (rne_bounds (Z.pos a * 2 ^ 53 / Z.pos b)
      (new_location (Z.pos b) ((Z.pos a * 2 ^ 53) mod Z.pos b))) as Hrne.
    revert Hq Hm Hiff Hrne.
    generalize (new_location (Z.pos b) ((Z.pos a * 2 ^ 53) mod Z.pos b)).
    generalize (Z.pos a * 2 ^ 53 / Z.pos b). intros q l Hq Hm Hiff Hrne.
    destruct q as [|q|q]; [lia| |lia].
    rewrite round_53 by lia.
    destruct (round_nearest_even (Z.pos q) l) as [|m|m] eqn:Hr; [lia| |lia].
    exists m. split; [|done]. apply finish_normal; lia.
  - destruct (quotient_54 a b Ha Hb Heven ltac:(lia)) as (Hq & Hm & Hiff).
    revert Hq Hm Hiff.
    generalize (new_location (Z.pos b) ((Z.pos a * 2 ^ 53) mod Z.pos b)).
    generalize (Z.pos a * 2 ^ 53 / Z.pos b). intros q l Hq Hm Hiff.
    destruct q as [|q|q]; [lia| |lia].
    rewrite round_54 by lia.
    destruct (round_nearest_even (Z.pos q / 2) (loc_shift (Z.odd (Z.pos q)) l))
      as [|m|m] eqn:Hr; [lia| |lia].
    exists m. split; [|done].
    replace (kb - ka - 53 + 1) with (kb - ka - 52) by lia.
    apply finish_normal; lia.
Qed.

Lemma pow2_split (k1 k2 : Z) :
  0 ≤ k1 ≤ k2 → 2 ^ k2 = 2 ^ (k2 - k1) * 2 ^ k1 ∧ 0 < 2 ^ k1 ∧ 1 ≤ 2 ^ (k2 - k1).
Proof.
  intros Hk. rewrite <-Z.pow_add_r by lia. replace (k2 - k1 + k1) with k2 by lia.
  split; [done|]. split; [apply Z.pow_pos_nonneg; lia|].
  pose proof (Z.pow_pos_nonneg 2 (k2 - k1)). lia.
Qed.

Lemma load_factor_gt_exact (s c : Z) :
  0 < c < 2 ^ 52 → 0 ≤ s ≤ 2 ^ 52 →
  load_factor_gt s c = bool_decide (3 * c < 2 * s).
Proof.
  intros Hc Hs. unfold load_factor_gt.
  destruct (to_double_pos c ltac:(lia)) as (b & kb & -> & Hb & Hkb & Hbc).
  destruct (decide (s = 0)) as [->|Hs0].
  { rewrite bool_decide_eq_false_2 by lia. reflexivity. }
  destruct (to_double_pos s ltac:(lia)) as (a & ka & -> & Ha & Hka & Has).
  assert (kb ≠ 0) as Hkb0.
  { intros ->. rewrite Z.pow_0_r in Hbc. lia. }
  assert (Z.even (Z.pos b) = true) as Heven.
  { apply Z.even_spec. exists (c * 2 ^ (kb - 1)).
    rewrite Hbc. replace kb with (Z.succ (kb - 1)) at 1 by lia.
    rewrite Z.pow_succ_r by lia. lia. }
  destruct (div_normal a b ka kb Ha Hb Hka Hkb Heven) as (m & -> & Hiff).
  rewrite ltb_1_5.
  destruct (Z.le_gt_cases ka kb) as [Hk|Hk].
  - destruct (pow2_split ka kb ltac:(lia)) as (HQ & HP & HD).
    assert (kb = ka ∨ kb = ka + 1 ∨ ka + 2 ≤ kb) as [->|[->|Hk2]] by lia.
    + rewrite Z.sub_diag, Z.pow_0_r in *.
      case_bool_decide as Hlt.
      * replace (ka - ka - 53) with (-53) by lia. cbn [Z.compare Z.opp Pos.compare Pos.compare_cont CompOpp].
        rewrite bool_decide_eq_false_2; [done|]. nia.
      * replace (ka - ka - 52) with (-52) by lia. cbn [Z.compare Z.opp Pos.compare Pos.compare_cont CompOpp].
        destruct (Z.ltb_spec N15 (Z.pos m)) as [Hm|Hm].
        -- rewrite bool_decide_eq_true_2; [done|]. apply Hiff in Hm. nia.
        -- rewrite bool_decide_eq_false_2; [done|]. intros Hr. apply Zle_not_lt in Hm.
           apply Hm, Hiff. nia.
    + replace (ka + 1 - ka) with 1 in * by lia. rewrite Z.pow_1_r in *.
      case_bool_decide as Hlt.
      * replace (ka + 1 - ka - 53) with (-52) by lia. cbn [Z.compare Z.opp Pos.compare Pos.compare_cont CompOpp].
        destruct (Z.ltb_spec N15 (Z.pos m)) as [Hm|Hm].
        -- rewrite bool_decide_eq_true_2; [done|]. apply Hiff in Hm. nia.
        -- rewrite bool_decide_eq_false_2; [done|]. intros Hr. apply Zle_not_lt in Hm.
           apply Hm, Hiff. nia.
      * replace (ka + 1 - ka - 52) with (-51) by lia. cbn [Z.compare Z.opp Pos.compare Pos.compare_cont CompOpp].
        rewrite bool_decide_eq_true_2; [done|]. nia.
    + assert (4 ≤ 2 ^ (kb - ka)) as HD4.
      { change 4 with (2 ^ 2). apply Z.pow_le_mono_r; lia. }
      assert (-52 < (if bool_decide (Z.pos a < Z.pos b)
                     then kb - ka - 53 else kb - ka - 52)) as HE
        by (case_bool_decide; lia).
      apply Z.compare_lt_iff in HE as ->.
      rewrite bool_decide_eq_true_2; [done|].
      revert HQ HD4. generalize (2 ^ (kb - ka)). intros D HQ HD4.
      rewrite HQ in Hbc. revert Has Hbc HP. generalize (2 ^ ka). intros P Has Hbc HP.
      assert (4 * (c * P) ≤ D * (c * P)) by nia.
      nia.
  - destruct (pow2_split kb ka ltac:(lia)) as (HP & HQ & HD).
    assert (2 ≤ 2 ^ (ka - kb)) as HD2.
    { change 2 with (2 ^ 1) at 1. apply Z.pow_le_mono_r; lia. }
    revert HP HD2. generalize (2 ^ (ka - kb)). intros D HP HD2.
    rewrite HP in Has. revert Hbc Has HQ. generalize (2 ^ kb). intros Q Hbc Has HQ.
    assert (¬ 3 * c < 2 * s) as Hno.
    { intros Hr. assert (2 * (s * Q) ≤ D * (s * Q)) by nia. nia. }
    rewrite (bool_decide_eq_false_2 _ Hno).
    case_bool_decide as Hlt.
    + assert (kb - ka - 53 < -52) as HE by lia.
      apply Z.compare_gt_iff in HE as ->. done.
    + destruct (decide (kb - ka - 52 = -52)) as [HE|HE]; [lia|].
      assert (kb - ka - 52 < -52) as HE' by lia.
      apply Z.compare_gt_iff in HE' as ->. done.
Qed.

(** ** insert *)

(** Past that range the quotient of the rounded operands can round
    down to 1.5: the bound of [load_factor_gt_exact] is not for
    convenience. *)
Lemma load_factor_gt_rounds :
  load_factor_gt (3 * 2 ^ 51 + 2) (2 ^ 52 + 1) = false ∧
  3 * (2 ^ 52 + 1) < 2 * (3 * 2 ^ 51 + 2).
Proof. split; [by vm_compute|lia]. Qed.

(** Below [2 ^ 52] the test on doubles is the test on integers. *)
Lemma load_factor_gt_spec s c :
  0 < c < size_bound → 0 ≤ s ≤ size_bound →
  load_factor_gt s c = bool_decide (3 * c < 2 * s).
Proof. unfold size_bound. apply load_factor_gt_exact. Qed.

Lemma size_bound_lt : 2 * size_bound + 2 < size_t_mod.
Proof. done. Qed.

Lemma fresh_heap_None (h : heap) : h !! fresh (dom h) = None.
Proof. apply not_elem_of_dom, is_fresh. Qed.

Lemma insert_present h m bs k v :
  rep h m bs → is_Some (mapping bs k) → insert k v (h, m) = Ok tt (h, m).
Proof.
  intros Hrep [v' Hv]. destruct (probe_spec h m bs k Hrep) as [p [b [Hpr _]]].
  unfold insert. rewrite Hpr. rewrite mapping_find in Hv. simpl.
  by destruct (find_node k (mjoin bs)).
Qed.

Lemma insert_absent h m bs k v :
  rep h m bs → mapping bs k = None → fits m →
  ∃ h' m' bs',
    insert k v (h, m) = Ok tt (h', m') ∧
    rep h' m' bs' ∧
    content bs' ≡ₚ (k, v) :: content bs ∧
    sz m' = sz m + 1 ∧
    capacity m' = (if bool_decide (3 * capacity m < 2 * (sz m + 1))
                   then 2 * capacity m else capacity m) ∧
    curr m' = curr m ∧ curr_idx m' = curr_idx m ∧
    evolves h bs h' bs'.
Proof.
  intros Hrep Hk [Hfs Hfc].
  pose proof size_bound_lt as Hsb.
  pose proof (rep_capacity _ _ _ Hrep) as Hcap.
  pose proof (rep_sz_nonneg _ _ _ Hrep) as Hsz0.
  destruct (probe_spec h m bs k Hrep) as (p & b & Hpr & Hi & Hp & Hb & Hc).
  set (l := fresh (dom h)).
  set (h1 := <[l := mkNode k v p]> h).
  set (i := hash k mod capacity m) in *.
  set (m1 := mkMap (array_set (data m) i (Some l)) (wrap (sz m + 1))
               (capacity m) (curr m) (curr_idx m)).
  set (bs1 := <[Z.to_nat i := (l, mkNode k v p) :: b]> bs).
  assert (rep h1 m1 bs1) as Hrep1
    by (apply rep_push; try done; [apply fresh_heap_None|lia]).
  assert (mjoin bs1 ≡ₚ (l, mkNode k v p) :: mjoin bs) as Hperm1
    by (by apply (join_insert_perm bs _ b _ [_])).
  assert (evolves h bs h1 bs1) as Hev1.
  { split.
    - intros l' _ Hsome. apply lookup_insert_ne. intros Heq.
      rewrite <-Heq in Hsome. unfold l in Hsome.
      rewrite fresh_heap_None in Hsome. by destruct Hsome.
    - intros l' Hl'. unfold locs in *. rewrite Hperm1 in Hl'. simpl in Hl'.
      apply elem_of_cons in Hl' as [Heq|?]; [right|by left].
      rewrite Heq. apply fresh_heap_None. }
  assert (wrap (sz m + 1) = sz m + 1) as Hw by (apply wrap_small; lia).
  assert (insert k v (h, m) =
            if load_factor_gt (sz m1) (capacity m1)
            then rehash (wrap (capacity m1 * 2)) (h1, m1)
            else Ok tt (h1, m1)) as Hins.
  { unfold insert. rewrite Hpr. rewrite mapping_find in Hk. simpl.
    by destruct (find_node k (mjoin bs)). }
  rewrite Hins.
  change (sz m1) with (wrap (sz m + 1)). change (capacity m1) with (capacity m).
  rewrite Hw, load_factor_gt_spec by lia.
  case_bool_decide as Hlf.
  - assert (wrap (capacity m * 2) = 2 * capacity m) as Hw2
      by (rewrite wrap_small; lia).
    rewrite Hw2.
    destruct (rehash_spec h1 m1 bs1 (2 * capacity m) Hrep1)
      as (h' & d' & bs' & Hrun & Hrep' & Hp' & Hev'); [lia|].
    assert (evolves h bs h' bs') as Hev by (by eapply evolves_trans).
    eexists h', _, bs'. split; [apply Hrun|].
    split; [done|]. split.
    { unfold content. rewrite (ents_perm_kvs _ _ Hp'). unfold kvs.
      by rewrite Hperm1. }
    by repeat (split; [done|]).
  - exists h1, m1, bs1. split; [done|]. split; [done|]. split.
    { unfold content, kvs. by rewrite Hperm1. }
    by repeat (split; [done|]).
Qed.

(** ** erase *)

Lemma erase_scan_spec fuel h prev p ns k :
  chain h p ns → (length ns < fuel)%nat →
  erase_scan fuel h prev p k = Ret (erase_find prev k ns).
Proof.
  intros Hc. revert fuel prev.
  induction Hc as [|l n ns Hl _ IH]; intros [|fuel] prev Hfuel; simpl in *;
    try lia; [done|].
  rewrite Hl. case_decide; [done|]. apply IH. lia.
Qed.

Lemma erase_find_find prev k ns :
  (λ r, (r.1.2, r.2)) <$> erase_find prev k ns = find_node k ns.
Proof.
  revert prev. induction ns as [|[l n] ns IH]; intros prev; simpl; [done|].
  case_decide; [done|]. apply IH.
Qed.

(** The node found splits the chain; [prev] is the node before it. *)
Lemma erase_find_Some prev k ns pv l n :
  erase_find prev k ns = Some (pv, l, n) →
  key n = k ∧
  ((pv = prev ∧ ∃ post, ns = (l, n) :: post) ∨
   (∃ pre pl pn post, pv = Some pl ∧
      ns = pre ++ (pl, pn) :: (l, n) :: post)).
Proof.
  revert prev. induction ns as [|[l0 n0] ns IH]; intros prev; simpl; [done|].
  case_decide as Hk.
  - intros [= <- <- <-]. split; [done|]. left. eauto.
  - intros Hf. destruct (IH _ Hf) as [Hkey [[-> [post ->]]|Hmid]].
    + split; [done|]. right. by exists [], l0, n0, post.
    + split; [done|]. right.
      destruct Hmid as (pre & pl & pn & post & -> & ->).
      by exists ((l0, n0) :: pre), pl, pn, post.
Qed.

(** A chain is a prefix followed by a chain, and the prefix can be put
    back in front of any chain that starts where it ended. *)
Lemma chain_app_inv h p pre ns :
  chain h p (pre ++ ns) →
  ∃ q, chain h q ns ∧
       ∀ h' ns', (∀ l, l ∈ pre.*1 → h' !! l = h !! l) →
                 chain h' q ns' → chain h' p (pre ++ ns').
Proof.
  revert p. induction pre as [|[l n] pre IH]; intros p Hc; simpl in *.
  - exists p. split; [done|]. auto.
  - inversion Hc as [|? ? ? Hl Hcn]; simplify_eq.
    destruct (IH _ Hcn) as [q [Hq Hre]]. exists q. split; [done|].
    intros h' ns' Hsame Hq'. constructor.
    + rewrite Hsame; [done|]. left.
    + apply Hre; [|done]. intros l' Hl'. apply Hsame. by right.
Qed.

Lemma join_insert_ents (bs : list (list (loc * ChainNode))) i b b' x :
  bs !! i = Some b → ents b ≡ₚ ents (x :: b') →
  ents (mjoin bs) ≡ₚ ents (x :: mjoin (<[i:=b']> bs)).
Proof.
  intros Hi Hp.
  rewrite (join_insert bs i b b' Hi), (concat_lookup_split bs i b Hi).
  unfold ents in *. rewrite !fmap_cons, !fmap_app, Hp, !fmap_cons.
  simpl. by rewrite <-Permutation_middle.
Qed.

Lemma elem_of_ents x ns :
  x ∈ ns → (x.1, (key x.2, value x.2)) ∈ ents ns.
Proof.
  intros Hx. unfold ents.
  by apply (list_elem_of_fmap_2 (λ x : loc * ChainNode, (x.1, (key x.2, value x.2)))).
Qed.

Lemma elem_of_ents_inv l k v ns :
  (l, (k, v)) ∈ ents ns → ∃ n, (l, n) ∈ ns ∧ key n = k ∧ value n = v.
Proof.
  unfold ents. intros [[l' n] [[= -> -> ->] Hx]]%list_elem_of_fmap. eauto.
Qed.

(** Replacing bucket [i] by a chain that lost the node [x]. *)
Lemma rep_remove h m bs i p b h' p' b' x :
  rep h m bs →
  data m !! i = Some p → bs !! i = Some b →
  chain h' p' b' →
  ents b ≡ₚ ents (x :: b') →
  (∀ l, l ∈ locs bs → l ∉ b.*1 → h' !! l = h !! l) →
  rep h' (mkMap (<[i:=p']> (data m)) (wrap (sz m - 1)) (capacity m)
            (curr m) (curr_idx m))
      (<[i:=b']> bs).
Proof.
  intros Hrep Hp Hb Hc' Hents Hframe.
  pose proof (rep_capacity _ _ _ Hrep) as Hcap.
  pose proof (join_insert_ents bs i b b' x Hb Hents) as Hperm.
  pose proof (ents_perm_locs _ _ Hperm) as Hpl.
  pose proof (ents_perm_kvs _ _ Hperm) as Hpk.
  pose proof (rep_nodup _ _ _ Hrep) as Hnd. rewrite Hpl in Hnd.
  pose proof (rep_keys _ _ _ Hrep) as Hkeys. rewrite Hpk in Hkeys.
  simpl in Hnd, Hkeys. apply NoDup_cons in Hnd as [Hx Hnd].
  apply NoDup_cons in Hkeys as [Hkx Hkeys].
  split; simpl; try done.
  - rewrite length_insert. apply (rep_length _ _ _ Hrep).
  - apply Forall2_same_length_lookup. split.
    { rewrite !length_insert. apply (Forall2_length _ _ _ (rep_chains _ _ _ Hrep)). }
    intros j pj bj Hpj Hbj.
    apply list_lookup_insert_Some in Hpj as [(<- & <- & _)|[Hne Hpj]].
    + rewrite list_lookup_insert_eq in Hbj by (by eapply lookup_lt_Some).
      by simplify_eq.
    + rewrite list_lookup_insert_ne in Hbj by done.
      apply (chain_frame h).
      { eapply Forall2_lookup_lr; [apply (rep_chains _ _ _ Hrep)|done..]. }
      intros l Hl. apply Hframe.
      * unfold locs. apply list_elem_of_fmap in Hl as [y [-> Hy]].
        apply list_elem_of_fmap_2, elem_of_concat_lookup. eauto.
      * intros Hlb. pose proof (rep_nodup _ _ _ Hrep) as Hnd0.
        rewrite <-(take_drop_middle bs i b Hb) in Hnd0, Hbj.
        rewrite join_app, fmap_app in Hnd0. simpl in Hnd0.
        rewrite fmap_app in Hnd0.
        apply NoDup_app in Hnd0 as (_ & Hd1 & Hnd0).
        apply NoDup_app in Hnd0 as (_ & Hd2 & _).
        destruct (decide (j < i)%nat) as [Hlt|Hge].
        -- rewrite lookup_app_l in Hbj
             by (rewrite length_take; apply lookup_lt_Some in Hb; lia).
           apply (Hd1 l); [|rewrite elem_of_app; by left].
           apply list_elem_of_fmap in Hl as [y [-> Hy]].
           apply list_elem_of_fmap_2, elem_of_concat_lookup. eauto.
        -- rewrite lookup_app_r in Hbj
             by (rewrite length_take; lia).
           rewrite length_take in Hbj.
           assert (length bs `min` i = i)%nat as Hmin
             by (apply lookup_lt_Some in Hb; lia).
           rewrite Nat.min_comm, Hmin in Hbj.
           destruct (j - i)%nat as [|j'] eqn:Hji; [lia|]. simpl in Hbj.
           apply (Hd2 l Hlb).
           apply list_elem_of_fmap in Hl as [y [-> Hy]].
           apply list_elem_of_fmap_2, elem_of_concat_lookup. eauto.
  - rewrite wrap_small.
    + rewrite (rep_sz _ _ _ Hrep).
      apply Permutation_length in Hperm. unfold ents in Hperm.
      rewrite !length_fmap in Hperm. simpl in Hperm. lia.
    + pose proof (rep_sz _ _ _ Hrep) as Hsz.
      pose proof (rep_sz_lt _ _ _ Hrep) as Hlt.
      apply Permutation_length in Hperm. unfold ents in Hperm.
      rewrite !length_fmap in Hperm. simpl in Hperm. lia.
  - intros j bj y Hj Hy.
    apply list_lookup_insert_Some in Hj as [(<- & <- & _)|[Hne Hj]].
    + assert ((y.1, (key y.2, value y.2)) ∈ ents b) as Hin.
      { rewrite Hents. unfold ents. rewrite fmap_cons. right.
        by apply elem_of_ents. }
      apply elem_of_ents_inv in Hin as (n & Hn & Hkn & _).
      rewrite <-Hkn. apply (rep_index _ _ _ Hrep _ _ _ Hb Hn).
    + by apply (rep_index _ _ _ Hrep _ bj).
  - pose proof (rep_sz _ _ _ Hrep) as Hsz.
    pose proof (rep_sz_lt _ _ _ Hrep) as Hlt.
    apply Permutation_length in Hperm. unfold ents in Hperm.
    rewrite !length_fmap in Hperm. simpl in Hperm.
    rewrite wrap_small; lia.
Qed.

Lemma erase_run h m bs k :
  rep h m bs →
  ∃ p b, let i := hash k mod capacity m in
    0 ≤ i < capacity m ∧
    data m !! Z.to_nat i = Some p ∧ bs !! Z.to_nat i = Some b ∧
    chain h p b ∧ NoDup b.*1 ∧
    find_node k (mjoin bs) = find_node k b ∧
    erase k (h, m) =
      of_res
        (match erase_find None k b with
         | None => mret None
         | Some (prev, l, n) =>
             '(h1, d1) ← unlink h (data m) i prev n;
             mret (Some (value n, delete l h1, d1))
         end)
        (λ r,
          match r with
          | Some (val, h', d') =>
              Ok val (h', mkMap d' (wrap (sz m - 1)) (capacity m)
                            (curr m) (curr_idx m))
          | None => Throw (out_of_range "Key not found in erase") (h, m)
          end).
Proof.
  intros Hrep.
  destruct (rep_bucket h m bs k Hrep) as [Hi [p [b (Hp & Hb & Hc & Hnd & Hf)]]].
  exists p, b. cbv zeta. repeat split; try done; try apply Hi.
  unfold erase, bucket_index, umod.
  rewrite decide_False by (pose proof (rep_capacity _ _ _ Hrep); lia).
  rewrite res_bind_Ret, (array_get_Some _ _ p) by (done || apply Hi).
  rewrite res_bind_Ret, (erase_scan_spec _ _ _ p b)
    by (done || (eapply chain_fuel_enough; eassumption)).
  by rewrite res_bind_Ret.
Qed.

Lemma erase_absent h m bs k :
  rep h m bs → mapping bs k = None →
  erase k (h, m) = Throw (out_of_range "Key not found in erase") (h, m).
Proof.
  intros Hrep Hk.
  destruct (erase_run h m bs k Hrep) as (p & b & _ & _ & _ & _ & _ & Hf & ->).
  rewrite mapping_find, Hf, <-(erase_find_find None) in Hk.
  by destruct (erase_find None k b).
Qed.

Lemma erase_present h m bs k v :
  rep h m bs → mapping bs k = Some v →
  ∃ h' m' bs',
    erase k (h, m) = Ok v (h', m') ∧
    rep h' m' bs' ∧
    content bs ≡ₚ (k, v) :: content bs' ∧
    sz m' = sz m - 1 ∧ capacity m' = capacity m ∧
    curr m' = curr m ∧ curr_idx m' = curr_idx m ∧
    evolves h bs h' bs'.
Proof.
  intros Hrep Hk.
  destruct (erase_run h m bs k Hrep)
    as (p & b & Hi & Hp & Hb & Hc & Hnd & Hf & Hrun).
  set (i := hash k mod capacity m) in *.
  rewrite mapping_find, Hf, <-(erase_find_find None) in Hk.
  destruct (erase_find None k b) as [[[pv l] n]|] eqn:Hfind; [|done].
  simpl in Hk. injection Hk as <-.
  destruct (erase_find_Some _ _ _ _ _ _ Hfind) as [Hkey Hshape].
  assert (∀ h' p' b',
    chain h' p' b' → ents b ≡ₚ ents ((l, n) :: b') →
    (∀ l', l' ∈ locs bs → l' ∉ b.*1 → h' !! l' = h !! l') →
    (∀ l', l' ∉ b.*1 → is_Some (h !! l') → h' !! l' = h !! l') →
    let m' := mkMap (<[Z.to_nat i:=p']> (data m)) (wrap (sz m - 1))
                (capacity m) (curr m) (curr_idx m) in
    let bs' := <[Z.to_nat i:=b']> bs in
    rep h' m' bs' ∧ content bs ≡ₚ (k, value n) :: content bs' ∧
    sz m' = sz m - 1 ∧ capacity m' = capacity m ∧
    curr m' = curr m ∧ curr_idx m' = curr_idx m ∧
    evolves h bs h' bs') as Hfinish.
  { intros h' p' b' Hc' Hents Hfr1 Hfr2 m' bs'.
    pose proof (rep_remove h m bs _ p b h' p' b' (l, n) Hrep Hp Hb Hc' Hents Hfr1)
      as Hrep'.
    pose proof (join_insert_ents bs _ b b' (l, n) Hb Hents) as Hperm.
    split; [done|]. split.
    { unfold content. rewrite (ents_perm_kvs _ _ Hperm). simpl.
      by rewrite Hkey. }
    split.
    { simpl. pose proof (rep_sz _ _ _ Hrep) as Hsz.
      pose proof (rep_sz_lt _ _ _ Hrep) as Hlt.
      apply Permutation_length in Hperm. unfold ents in Hperm.
      rewrite !length_fmap in Hperm. simpl in Hperm.
      rewrite wrap_small; lia. }
    repeat (split; [done|]). split.
    - intros l' Hl' Hsome. apply Hfr2; [|done]. intros Hlb. apply Hl'.
      unfold locs. apply list_elem_of_fmap in Hlb as [y [-> Hy]].
      apply list_elem_of_fmap_2, elem_of_concat_lookup. eauto.
    - intros l' Hl'. left. unfold locs.
      rewrite (ents_perm_locs _ _ Hperm). simpl. by right. }
  destruct Hshape as [[-> [post ->]]|(pre & pl & pn & post & -> & ->)].
  - (* the node is the head of its chain *)
    inversion Hc as [|? ? ? Hl Hcn]; simplify_eq.
    simpl in Hnd. apply NoDup_cons in Hnd as [Hlpost _].
    destruct (Hfinish (delete l h) (next n) post)
      as [Hrep' Hrest]; try done.
    + apply (chain_frame h); [done|]. intros l' Hl'.
      apply lookup_delete_ne. by intros ->.
    + intros l' _ Hl'. apply lookup_delete_ne. intros ->. apply Hl'. by left.
    + intros l' Hl' _. apply lookup_delete_ne. intros ->. apply Hl'. by left.
    + eexists _, _, _. split; [|split; [apply Hrep'|]].
      * rewrite Hrun. simpl. done.
      * exact Hrest.
  - (* the node comes after [pl] *)
    destruct (chain_app_inv _ _ _ _ Hc) as [q [Hq Hre]].
    inversion Hq as [|? ? ? Hpl Hq1]; simplify_eq.
    inversion Hq1 as [|? ? ? Hl Hq2 Hnext]; simplify_eq.
    rewrite !fmap_app, !fmap_cons in Hnd. simpl in Hnd.
    apply NoDup_app in Hnd as (_ & Hpre & Hnd).
    apply NoDup_cons in Hnd as [Hplnot Hnd].
    apply NoDup_cons in Hnd as [Hlnot _].
    rewrite not_elem_of_cons in Hplnot. destruct Hplnot as [Hne Hplpost].
    set (pn' := set_next pn (next n)).
    set (h' := delete l (<[pl := pn']> h)).
    assert (∀ l', l' ≠ l → l' ≠ pl → h' !! l' = h !! l') as Hsame.
    { intros l' H1 H2. unfold h'.
      rewrite lookup_delete_ne, lookup_insert_ne; done. }
    destruct (Hfinish h' p (pre ++ (pl, pn') :: post))
      as [Hrep' Hrest].
    + apply Hre.
      * intros l' Hl'. apply Hsame; intros ->; apply (Hpre _ Hl'); set_solver.
      * constructor.
        -- unfold h'. rewrite lookup_delete_ne, lookup_insert_eq; done.
        -- simpl. apply (chain_frame h); [done|]. intros l' Hl'.
           apply Hsame; by intros ->.
    + unfold ents. rewrite !fmap_app, !fmap_cons, !fmap_app, !fmap_cons.
      simpl. rewrite (Permutation_middle _ _ (l, (key n, value n))).
      apply Permutation_app_head. apply perm_swap.
    + intros l' _ Hl'. rewrite !fmap_app, !fmap_cons in Hl'. simpl in Hl'.
      apply Hsame; intros ->; apply Hl'; set_solver.
    + intros l' Hl' _. rewrite !fmap_app, !fmap_cons in Hl'. simpl in Hl'.
      apply Hsame; intros ->; apply Hl'; set_solver.
    + eexists _, _, _. split; [|split; [apply Hrep'|]].
      * rewrite Hrun. simpl. rewrite Hpl. simpl.
        rewrite (list_insert_id (data m) _ p Hp). done.
      * exact Hrest.
Qed.

(** ** clear *)

Lemma free_chain_spec ns :
  ∀ fuel h p,
  chain h p ns → NoDup ns.*1 → (length ns < fuel)%nat →
  ∃ h', free_chain fuel h p = Ret h' ∧
        (∀ l, l ∈ ns.*1 → h' !! l = None) ∧
        (∀ l, l ∉ ns.*1 → h' !! l = h !! l).
Proof.
  induction ns as [|[l n] ns IH]; intros fuel h p Hc Hnd Hfuel;
    inversion Hc as [|? ? ? Hl Hcn]; simplify_eq;
    destruct fuel as [|fuel]; simpl in Hfuel; try lia.
  { exists h. simpl. repeat split; auto. by intros l ?%elem_of_nil. }
  simpl in Hnd. apply NoDup_cons in Hnd as [Hlns Hnd].
  destruct (IH fuel (delete l h) (next n)) as (h' & Hrun & Hgone & Hsame);
    [|done|lia|].
  { apply (chain_frame h); [done|]. intros l' Hl'.
    apply lookup_delete_ne. by intros ->. }
  exists h'. simpl. rewrite Hl. repeat split; [done| |].
  - intros l' [->|Hl']%elem_of_cons; [|by apply Hgone].
    rewrite Hsame by done. apply lookup_delete_eq.
  - intros l' [Hne Hl']%not_elem_of_cons.
    rewrite Hsame by done. by apply lookup_delete_ne.
Qed.

(** The outer loop of [clear] on the buckets [rest], from index [i0] on. *)
Lemma clear_buckets_spec rest :
  ∀ i0 h d,
  Forall2 (chain h) (drop i0 d) rest → NoDup (locs rest) →
  ∃ h' d',
    clear_buckets (seq i0 (length rest)) h d = Ret (h', d') ∧
    length d' = length d ∧
    take i0 d' = take i0 d ∧
    (∀ j, (i0 ≤ j < length d)%nat → d' !! j = Some None) ∧
    (∀ l, l ∈ locs rest → h' !! l = None) ∧
    (∀ l, l ∉ locs rest → h' !! l = h !! l).
Proof.
  induction rest as [|r rest IH]; intros i0 h d Hd Hnd.
  { exists h, d. simpl. repeat split; auto.
    - intros j Hj. apply Forall2_length in Hd. rewrite length_drop in Hd.
      simpl in Hd. lia.
    - by intros l ?%elem_of_nil. }
  inversion Hd as [|p ? tl ? Hr Hrest Hdrop]; simplify_eq.
  symmetry in Hdrop. apply drop_cons_inv in Hdrop as [Hp ->].
  unfold locs in Hnd. simpl in Hnd. rewrite fmap_app in Hnd.
  apply NoDup_app in Hnd as (Hndr & Hdisj & Hndrest).
  destruct (free_chain_spec r (chain_fuel h) h p) as (h1 & Hrun1 & Hgone1 & Hsame1);
    [done|done|by eapply chain_fuel_enough|].
  assert (i0 < length d)%nat as Hi0 by (by eapply lookup_lt_Some).
  destruct (IH (S i0) h1 (array_set d (Z.of_nat i0) None))
    as (h' & d' & Hrun & Hlen & Htake & Hnone & Hgone & Hsame).
  - unfold array_set. rewrite Nat2Z.id, drop_insert_lt by lia.
    apply (chains_frame h); [done|]. intros l Hl. apply Hsame1.
    intros Hlr. by apply (Hdisj l).
  - done.
  - unfold array_set in *. rewrite Nat2Z.id, length_insert in *.
    exists h', d'. repeat split.
    + cbn [length seq clear_buckets].
      rewrite (array_get_nat _ _ p Hp), res_bind_Ret, Hrun1, res_bind_Ret.
      unfold array_set. by rewrite Nat2Z.id.
    + done.
    + apply (f_equal (take i0)) in Htake.
      rewrite !take_take in Htake.
      replace (i0 `min` S i0)%nat with i0 in Htake by lia.
      rewrite Htake. by rewrite take_insert_ge by lia.
    + intros j Hj. destruct (decide (j = i0)) as [->|Hne].
      * apply (f_equal (.!! i0)) in Htake.
        rewrite !lookup_take_lt in Htake by lia.
        rewrite Htake. by apply list_lookup_insert_eq.
      * apply Hnone. lia.
    + intros l Hl. unfold locs in Hl. simpl in Hl.
      rewrite fmap_app, elem_of_app in Hl.
      destruct (decide (l ∈ locs rest)) as [Hin|Hnin]; [by apply Hgone|].
      rewrite Hsame by done. apply Hgone1. unfold locs in Hnin. tauto.
    + intros l Hl. unfold locs in Hl. simpl in Hl.
      rewrite fmap_app, elem_of_app in Hl.
      rewrite Hsame by (unfold locs; tauto). apply Hsame1. tauto.
Qed.

Lemma clear_spec h m bs :
  rep h m bs →
  ∃ h',
    let m' := mkMap (new_buckets (capacity m)) 0 (capacity m)
                (curr m) (curr_idx m) in
    let bs' := replicate (Z.to_nat (capacity m)) [] in
    clear (h, m) = Ok tt (h', m') ∧
    rep h' m' bs' ∧
    (∀ l, l ∈ locs bs → h' !! l = None) ∧
    evolves h bs h' bs'.
Proof.
  intros Hrep.
  pose proof (rep_length _ _ _ Hrep) as Hlen.
  pose proof (Forall2_length _ _ _ (rep_chains _ _ _ Hrep)) as Hlen2.
  destruct (clear_buckets_spec bs 0%nat h (data m))
    as (h' & d' & Hrun & Hlen' & _ & Hnone & Hgone & Hsame).
  { apply (rep_chains _ _ _ Hrep). }
  { apply (rep_nodup _ _ _ Hrep). }
  assert (d' = new_buckets (capacity m)) as ->.
  { symmetry. apply replicate_as_Forall. split; [lia|].
    apply Forall_lookup. intros j x Hj.
    rewrite Hnone in Hj by (apply lookup_lt_Some in Hj; lia). congruence. }
  exists h'. cbv zeta. split; [|split; [|split]].
  - unfold clear. rewrite <-Hlen at 1. by rewrite Nat2Z.id, Hlen2, Hrun.
  - pose proof (rep_capacity _ _ _ Hrep).
    split; simpl; try done.
    + rewrite new_buckets_length. lia.
    + apply new_buckets_chains.
    + rewrite join_replicate_nil. constructor.
    + by rewrite join_replicate_nil.
    + intros j b x Hj Hx. apply lookup_replicate in Hj as [-> _].
      by apply elem_of_nil in Hx.
    + rewrite join_replicate_nil. constructor.
  - done.
  - split.
    + intros l Hl _. by apply Hsame.
    + intros l Hl. unfold locs in Hl. rewrite join_replicate_nil in Hl.
      by apply elem_of_nil in Hl.
Qed.

(** ** begin and next *)

Lemma chain_None_inv h ns : chain h None ns → ns = [].
Proof. by inversion 1. Qed.

Lemma chain_Some_inv h l ns : chain h (Some l) ns → ns ≠ [].
Proof. by inversion 1. Qed.

Lemma rep_cursor_irrelevant h m m' bs :
  rep h m bs → data m' = data m → sz m' = sz m → capacity m' = capacity m →
  rep h m' bs.
Proof.
  intros [] Hd Hs Hc. split; rewrite ?Hd, ?Hs, ?Hc; done.
Qed.

(** The loop of [begin], started at bucket [i]. *)
Lemma skip_empty_spec h (d : list (option loc)) bs cap :
  Forall2 (chain h) d bs → Z.of_nat (length d) = cap → cap < size_t_mod →
  ∀ rest (i : nat) fuel,
  rest = drop i bs → (i ≤ length bs)%nat → (length rest < fuel)%nat →
  ∃ j : nat,
    skip_empty fuel d cap (Z.of_nat i) = Ret (Z.of_nat j) ∧
    ((j = length bs ∧ mjoin rest = []) ∨
     (∃ p r, (j < length bs)%nat ∧ d !! j = Some p ∧ chain h p r ∧ r ≠ [] ∧
        mjoin rest = r ++ mjoin (drop (S j) bs))).
Proof.
  intros Hbs Hlen Hcap. pose proof (Forall2_length _ _ _ Hbs) as Hlen2.
  induction rest as [|r rest IH]; intros i [|fuel] Hrest Hle Hfuel;
    simpl in Hfuel; try lia.
  - assert (i = length bs) as ->.
    { apply (f_equal length) in Hrest. rewrite length_drop in Hrest.
      simpl in Hrest. lia. }
    exists (length bs). simpl. rewrite decide_False by lia. eauto.
  - symmetry in Hrest. apply drop_cons_inv in Hrest as [Hr ->].
    assert (i < length bs)%nat as Hi by (by eapply lookup_lt_Some).
    destruct (Forall2_lookup_r _ _ _ _ _ Hbs Hr) as [p [Hp Hc]].
    simpl. rewrite decide_True by lia.
    rewrite (array_get_nat _ _ p Hp), res_bind_Ret.
    destruct p as [l|].
    + exists i. split; [done|]. right. exists (Some l), r.
      repeat split; try done. by eapply chain_Some_inv.
    + apply chain_None_inv in Hc as ->.
      rewrite wrap_small by lia.
      replace (Z.of_nat i + 1) with (Z.of_nat (S i)) by lia.
      destruct (IH (S i) fuel) as [j [Hrun Hj]]; [done|lia|lia|].
      exists j. split; [done|]. simpl. done.
Qed.

(** The loop of [next], entered with [curr == nullptr] at bucket [i]. *)
Lemma advance_spec h (d : list (option loc)) bs cap :
  Forall2 (chain h) d bs → Z.of_nat (length d) = cap → cap < size_t_mod →
  ∀ rest (i : nat) fuel,
  rest = drop (S i) bs → (i < length bs)%nat → (S (length rest) < fuel)%nat →
  ∃ c (j : nat),
    advance fuel d cap None (Z.of_nat i) = Ret (c, Z.of_nat j) ∧
    ((c = None ∧ mjoin rest = []) ∨
     (∃ r, (j < length bs)%nat ∧ chain h c r ∧ r ≠ [] ∧
        mjoin rest = r ++ mjoin (drop (S j) bs))).
Proof.
  intros Hbs Hlen Hcap. pose proof (Forall2_length _ _ _ Hbs) as Hlen2.
  induction rest as [|r rest IH]; intros i [|fuel] Hrest Hlt Hfuel;
    simpl in Hfuel; try lia.
  - assert (S i = length bs) as Hi.
    { apply (f_equal length) in Hrest. rewrite length_drop in Hrest.
      simpl in Hrest. lia. }
    exists None, (S i). simpl. rewrite wrap_small by lia.
    rewrite decide_False by lia.
    replace (Z.of_nat i + 1) with (Z.of_nat (S i)) by lia. eauto.
  - symmetry in Hrest. apply drop_cons_inv in Hrest as [Hr ->].
    assert (S i < length bs)%nat as Hi by (by eapply lookup_lt_Some).
    destruct (Forall2_lookup_r _ _ _ _ _ Hbs Hr) as [p [Hp Hc]].
    simpl. rewrite wrap_small by lia.
    replace (Z.of_nat i + 1) with (Z.of_nat (S i)) by lia.
    rewrite decide_True by lia.
    rewrite (array_get_nat _ _ p Hp), res_bind_Ret.
    destruct p as [l|].
    + destruct fuel as [|fuel]; [lia|].
      exists (Some l), (S i). split; [done|]. right. exists r.
      repeat split; try done. by eapply chain_Some_inv.
    + apply chain_None_inv in Hc as ->.
      destruct (IH (S i) fuel) as (c & j & Hrun & Hj); [done|lia|lia|].
      exists c, j. split; [done|]. simpl. done.
Qed.

Lemma begin_spec h m bs :
  rep h m bs →
  ∃ c idx,
    let m' := mkMap (data m) (sz m) (capacity m) c idx in
    begin (h, m) = Ok tt (h, m') ∧ cursor h m' bs (mjoin bs) ∧
    (mjoin bs = [] → c = None).
Proof.
  intros Hrep.
  pose proof (rep_capacity _ _ _ Hrep) as Hcap.
  pose proof (rep_length _ _ _ Hrep) as Hlen.
  pose proof (Forall2_length _ _ _ (rep_chains _ _ _ Hrep)) as Hlen2.
  destruct (skip_empty_spec h (data m) bs (capacity m) (rep_chains _ _ _ Hrep)
              Hlen (proj2 Hcap) bs 0%nat (S (Z.to_nat (capacity m))))
    as [j [Hrun Hj]]; [done|lia|lia|].
  change (Z.of_nat 0) with 0 in Hrun.
  destruct Hj as [[-> Hnil]|(p & r & Hjlt & Hp & Hc & Hr & Hjoin)].
  - exists None, (Z.of_nat (length bs)). cbv zeta. split; [|split; [|done]].
    + unfold begin. rewrite Hrun, res_bind_Ret.
      by rewrite decide_False by lia.
    + left. done.
  - exists p, (Z.of_nat j). cbv zeta. split; [|split].
    + unfold begin. rewrite Hrun, res_bind_Ret.
      rewrite decide_True by lia.
      by rewrite (array_get_nat _ _ p Hp).
    + right. exists j, r. simpl. done.
    + intros Hnil. rewrite Hnil in Hjoin. symmetry in Hjoin.
      by apply app_nil in Hjoin as [-> _].
Qed.

Lemma next_spec h m bs rem :
  rep h m bs → cursor h m bs rem →
  match rem with
  | [] => next_ (h, m) = Ok None (h, m)
  | x :: rem' =>
      ∃ c idx,
        let m' := mkMap (data m) (sz m) (capacity m) c idx in
        next_ (h, m) = Ok (Some (key x.2, value x.2)) (h, m') ∧
        cursor h m' bs rem'
  end.
Proof.
  intros Hrep Hcur.
  pose proof (rep_capacity _ _ _ Hrep) as Hcap.
  pose proof (rep_length _ _ _ Hrep) as Hlen.
  pose proof (Forall2_length _ _ _ (rep_chains _ _ _ Hrep)) as Hlen2.
  destruct Hcur as [[-> Hc]|(i & r & Hidx & Hi & Hr & Hc & ->)].
  { unfold next_. by rewrite Hc. }
  destruct r as [|[l n] r]; [done|].
  change (((l, n) :: r) ++ mjoin (drop (S i) bs))
    with ((l, n) :: (r ++ mjoin (drop (S i) bs))).
  cbv iota. change (l, n).2 with n.
  inversion Hc as [|? ? ? Hl Hcn Hcurr]; simplify_eq.
  unfold next_. rewrite <-Hcurr, Hl, Hidx.
  destruct (next n) as [l'|] eqn:Hnext.
  - exists (Some l'), (Z.of_nat i). cbv zeta. split; [done|].
    right. exists i, r. simpl. repeat split; try done.
    by eapply chain_Some_inv.
  - apply chain_None_inv in Hcn as ->.
    destruct (advance_spec h (data m) bs (capacity m) (rep_chains _ _ _ Hrep)
                Hlen (proj2 Hcap) (drop (S i) bs) i
                (S (S (Z.to_nat (capacity m)))))
      as (c & j & Hrun & Hj); [done|lia|rewrite length_drop; lia|].
    exists c, (Z.of_nat j). cbv zeta. rewrite Hrun. split; [done|].
    simpl. destruct Hj as [[-> Hnil]|(r & Hjlt & Hcr & Hr' & Hjoin)].
    + left. done.
    + right. exists j, r. done.
Qed.

Lemma same_table_refl m : same_table m m.
Proof. by repeat split. Qed.

Lemma same_table_trans m1 m2 m3 :
  same_table m1 m2 → same_table m2 m3 → same_table m1 m3.
Proof. intros (?&?&?) (?&?&?). repeat split; congruence. Qed.

Lemma rep_same_table h m m' bs : rep h m bs → same_table m m' → rep h m' bs.
Proof. intros Hrep (?&?&?). by eapply rep_cursor_irrelevant. Qed.

(** From a cursor with [rem] to yield, [next] yields [rem] in order and
    leaves the cursor exhausted. *)
Lemma nexts_spec h bs rem :
  ∀ m, rep h m bs → cursor h m bs rem →
  ∃ m', nexts (length rem) (h, m) = Ok (Some <$> kvs rem) (h, m') ∧
        same_table m m' ∧ cursor h m' bs [].
Proof.
  induction rem as [|x rem IH]; intros m Hrep Hcur.
  { exists m. simpl. split; [done|]. split; [apply same_table_refl|done]. }
  destruct (next_spec h m bs (x :: rem) Hrep Hcur) as (c & idx & Hnext & Hcur').
  cbv zeta in *.
  set (m1 := mkMap (data m) (sz m) (capacity m) c idx) in *.
  assert (same_table m m1) as Hsame by (by repeat split).
  destruct (IH m1) as (m' & Hrun & Hsame' & Hcur'');
    [by eapply rep_same_table|done|].
  exists m'. split; [|split; [by eapply same_table_trans|done]].
  cbn [length nexts]. rewrite Hnext, Hrun. done.
Qed.

(** ** Copying *)

Lemma set_next_same n : set_next n (next n) = n.
Proof. by destruct n. Qed.

(** The inner loop copies the chain [src] into fresh nodes [new], hooked
    on the slot [ptr]. *)
Lemma copy_chain_spec src :
  ∀ fuel h d ptr current,
  chain h current src → (length src < fuel)%nat →
  slot_null h d ptr →
  (∀ l0, ptr = NextSlot l0 → l0 ∉ src.*1) →
  ∃ h' d' new pnew,
    copy_chain fuel h d ptr current = Ret (h', d') ∧
    chain h' pnew new ∧ kvs new = kvs src ∧
    (∀ l, l ∈ new.*1 → h !! l = None) ∧ NoDup new.*1 ∧
    slot_stored h d ptr pnew h' d'.
Proof.
  induction src as [|[c n] src IH]; intros fuel h d ptr current Hc Hfuel Hnull Hptr;
    inversion Hc as [|? ? ? Hcn Hcs]; simplify_eq;
    destruct fuel as [|fuel]; simpl in Hfuel; try lia.
  { exists h, d, [], None. simpl.
    split; [done|]. split; [constructor|]. split; [done|].
    split; [by intros l ?%elem_of_nil|]. split; [constructor|].
    - destruct ptr as [i|l0]; simpl in *.
      + destruct Hnull as [Hi Hd]. split; [|done].
        unfold array_set. by rewrite list_insert_id.
      + destruct Hnull as (n0 & Hn0 & Hnext). split; [done|]. split; [|done].
        exists n0. split; [done|]. by rewrite <-Hnext, set_next_same. }
  set (l := fresh (dom h)).
  assert (h !! l = None) as Hl by apply fresh_heap_None.
  set (nl := mkNode (key n) (value n) None).
  set (h1 := <[l := nl]> h).
  assert (∃ h2 d2, store_slot h1 d ptr (Some l) = Ret (h2, d2) ∧
            h2 !! l = Some nl ∧
            (∀ x, h2 !! x = None → h !! x = None) ∧
            slot_stored h d ptr (Some l) h2 d2) as (h2 & d2 & Hst & Hl2 & Hdom2 & Hss).
  { destruct ptr as [i|l0]; simpl in *.
    - destruct Hnull as [Hi Hd]. exists h1, (array_set d i (Some l)).
      rewrite (array_get_Some _ _ None) by done.
      repeat split; try done.
      + apply lookup_insert_eq.
      + intros x Hx. unfold h1 in Hx.
        by apply lookup_insert_None in Hx as [? _].
      + intros x Hx. apply lookup_insert_ne. intros <-.
        rewrite Hl in Hx. by destruct Hx.
    - destruct Hnull as (n0 & Hn0 & Hnext).
      assert (l ≠ l0) as Hne by (intros ->; congruence).
      exists (<[l0 := set_next n0 (Some l)]> h1), d.
      unfold h1 at 1. rewrite lookup_insert_ne, Hn0 by done.
      repeat split; try done.
      + rewrite lookup_insert_ne by done. apply lookup_insert_eq.
      + intros x Hx. apply lookup_insert_None in Hx as [Hx _].
        unfold h1 in Hx. by apply lookup_insert_None in Hx as [? _].
      + exists n0. split; [done|]. apply lookup_insert_eq.
      + intros x Hx1 Hx2. rewrite lookup_insert_ne by done.
        apply lookup_insert_ne. intros <-. rewrite Hl in Hx2. by destruct Hx2. }
  assert (∀ x, x ∈ src.*1 → h2 !! x = h !! x) as Hsrc.
  { intros x Hx.
    assert (is_Some (h !! x)) as Hsome
      by (apply elem_of_dom; by eapply chain_dom).
    destruct ptr as [i|l0]; simpl in Hss.
    - by apply Hss.
    - apply Hss; [|done]. intros ->.
      apply (Hptr l0 eq_refl). simpl. by right. }
  destruct (IH fuel h2 d2 (NextSlot l) (next n))
    as (h' & d' & new & pnew & Hrun & Hnew & Hkvs & Hfresh & Hnd & Hss').
  - apply (chain_frame h); done.
  - lia.
  - exists nl. done.
  - intros ? [= <-] Hin.
    assert (is_Some (h !! l)) as Hsome
      by (apply elem_of_dom; by eapply chain_dom).
    rewrite Hl in Hsome. by destruct Hsome.
  - simpl in Hss'. destruct Hss' as (-> & (n0 & Hn0 & Hn0') & Hframe').
    rewrite Hl2 in Hn0. injection Hn0 as <-.
    exists h', d2, ((l, set_next nl pnew) :: new), (Some l).
    repeat split.
    + simpl. rewrite Hcn. fold l nl h1. rewrite Hst, res_bind_Ret. done.
    + by constructor.
    + simpl. by rewrite Hkvs.
    + intros x [->|Hx]%elem_of_cons; [done|]. by apply Hdom2, Hfresh.
    + simpl. apply NoDup_cons. split; [|done].
      intros Hin. apply Hfresh in Hin. congruence.
    + destruct ptr as [i|l0]; simpl in *.
      * destruct Hss as [-> Hframe]. split; [done|].
        intros x Hx. rewrite Hframe' ; [by apply Hframe| |by rewrite Hframe].
        intros ->. rewrite Hl in Hx. by destruct Hx.
      * destruct Hss as (-> & (n1 & Hn1 & Hn1') & Hframe).
        assert (l0 ≠ l) as Hne by (intros ->; congruence).
        split; [done|]. split.
        -- exists n1. split; [done|]. rewrite Hframe'; done.
        -- intros x Hx1 Hx2.
           assert (x ≠ l) as Hxl by (intros ->; rewrite Hl in Hx2; by destruct Hx2).
           rewrite Hframe'; [by apply Hframe|done|by rewrite Hframe].
Qed.

Lemma kvs_join (bs : list (list (loc * ChainNode))) :
  kvs (mjoin bs) = mjoin (kvs <$> bs).
Proof.
  induction bs as [|b bs IH]; simpl; [done|].
  unfold kvs in *. by rewrite fmap_app, IH.
Qed.

Lemma kvs_elem_inv k v ns :
  (k, v) ∈ kvs ns → ∃ x, x ∈ ns ∧ key x.2 = k ∧ value x.2 = v.
Proof.
  unfold kvs. intros [x [[= -> ->] Hx]]%list_elem_of_fmap. eauto.
Qed.

Lemma locs_cons b (bs : list (list (loc * ChainNode))) :
  locs (b :: bs) = b.*1 ++ locs bs.
Proof. unfold locs. simpl. by rewrite fmap_app. Qed.

(** The outer loop copies the buckets [rest], from index [i0] on. *)
Lemma copy_buckets_spec other_data rest :
  ∀ i0 h d bsn,
  Forall2 (chain h) (drop i0 other_data) rest →
  NoDup (locs rest) →
  length d = length other_data →
  Forall2 (chain h) d bsn →
  (∀ j, (i0 ≤ j < length d)%nat → d !! j = Some None) →
  ∃ h' d' bsn',
    copy_buckets other_data (seq i0 (length rest)) h d = Ret (h', d') ∧
    length d' = length d ∧
    Forall2 (chain h') d' bsn' ∧
    take i0 bsn' = take i0 bsn ∧
    kvs <$> drop i0 bsn' = kvs <$> rest ∧
    (∀ l, l ∈ locs (drop i0 bsn') → h !! l = None) ∧
    NoDup (locs (drop i0 bsn')) ∧
    (∀ l, is_Some (h !! l) → h' !! l = h !! l).
Proof.
  induction rest as [|r rest IH]; intros i0 h d bsn Hold Hnd Hlen Hbs Hnull.
  { exists h, d, bsn. simpl.
    pose proof (Forall2_length _ _ _ Hold) as Hl. rewrite length_drop in Hl.
    simpl in Hl.
    pose proof (Forall2_length _ _ _ Hbs) as Hl2.
    rewrite (drop_ge bsn) by lia.
    repeat split; auto; try constructor. by intros l ?%elem_of_nil. }
  inversion Hold as [|p ? tl ? Hr Hrest Hdrop]; simplify_eq.
  symmetry in Hdrop. apply drop_cons_inv in Hdrop as [Hp ->].
  rewrite locs_cons in Hnd. apply NoDup_app in Hnd as (Hndr & _ & Hndrest).
  assert (i0 < length d)%nat as Hi0
    by (rewrite Hlen; by eapply lookup_lt_Some).
  pose proof (Forall2_length _ _ _ Hbs) as Hlbs.
  destruct (copy_chain_spec r (chain_fuel h) h d (BucketSlot (Z.of_nat i0)) p)
    as (h1 & d1 & new & pnew & Hrun1 & Hnew & Hkvs & Hfresh & Hndnew & Hss);
    [done|by eapply chain_fuel_enough| |done|].
  { simpl. rewrite Nat2Z.id. split; [lia|]. apply Hnull. lia. }
  simpl in Hss. destruct Hss as [-> Hframe1].
  unfold array_set in *. rewrite Nat2Z.id in *.
  destruct (IH (S i0) h1 (<[i0:=pnew]> d) (<[i0:=new]> bsn))
    as (h' & d' & bsn' & Hrun & Hlen' & Hbs' & Htake & Hkvs' & Hfresh' & Hnd' & Hframe').
  - apply (chains_frame h); [done|]. intros l Hl. apply Hframe1.
    unfold locs in Hl. apply list_elem_of_fmap in Hl as [x [-> Hx]].
    apply elem_of_concat_lookup in Hx as (j & b & Hj & Hx).
    destruct (Forall2_lookup_r _ _ _ _ _ Hrest Hj) as (q & _ & Hq).
    rewrite (chain_lookup _ _ _ _ Hq Hx). eauto.
  - done.
  - by rewrite length_insert.
  - apply Forall2_insert; [|done].
    apply (chains_frame h); [done|]. intros l Hl. apply Hframe1.
    unfold locs in Hl. apply list_elem_of_fmap in Hl as [x [-> Hx]].
    apply elem_of_concat_lookup in Hx as (j & b & Hj & Hx).
    destruct (Forall2_lookup_r _ _ _ _ _ Hbs Hj) as (q & _ & Hq).
    rewrite (chain_lookup _ _ _ _ Hq Hx). eauto.
  - intros j Hj. rewrite length_insert in Hj.
    rewrite list_lookup_insert_ne by lia. apply Hnull. lia.
  - rewrite length_insert in Hlen'.
    assert (bsn' !! i0 = Some new) as Hi0'.
    { apply (f_equal (.!! i0)) in Htake.
      rewrite !lookup_take_lt in Htake by lia.
      rewrite Htake. apply list_lookup_insert_eq. lia. }
    assert (drop i0 bsn' = new :: drop (S i0) bsn') as Hdrop
      by (by apply drop_S).
    exists h', d', bsn'. rewrite Hdrop. repeat split.
    + cbn [length seq copy_buckets].
      rewrite (array_get_nat _ _ p Hp), res_bind_Ret, Hrun1, res_bind_Ret.
      done.
    + done.
    + done.
    + apply (f_equal (take i0)) in Htake. rewrite !take_take in Htake.
      replace (i0 `min` S i0)%nat with i0 in Htake by lia.
      rewrite Htake. by rewrite take_insert_ge by lia.
    + rewrite !fmap_cons. by rewrite Hkvs, Hkvs'.
    + intros l. rewrite locs_cons, elem_of_app. intros [Hl|Hl].
      * by apply Hfresh.
      * specialize (Hfresh' l Hl).
        destruct (h !! l) as [n|] eqn:Hh; [|done].
        rewrite Hframe1 in Hfresh' by (by rewrite Hh). congruence.
    + rewrite locs_cons. apply NoDup_app. repeat split; [done| |done].
      intros l Hl Hl'. specialize (Hfresh' l Hl').
      apply list_elem_of_fmap in Hl as [x [-> Hx]].
      rewrite (chain_lookup _ _ _ _ Hnew Hx) in Hfresh'. done.
    + intros l Hl. rewrite Hframe'; [by apply Hframe1|].
      by rewrite Hframe1.
Qed.

Lemma rep_frame h h' m bs :
  rep h m bs → (∀ l, l ∈ locs bs → h' !! l = h !! l) → rep h' m bs.
Proof.
  intros [] Hsame. split; try done. by apply (chains_frame h).
Qed.

(** The copy constructor builds, from a table of [bs], an equal table of
    fresh nodes [bs'] and leaves the nodes already there alone. *)
Lemma HashMap_copy_spec h o bs curr0 idx0 :
  rep h o bs →
  ∃ h' d' bs',
    let m' := mkMap d' (sz o) (capacity o) curr0 idx0 in
    copy_from o h = Ret (h', d') ∧
    HashMap_copy o curr0 idx0 h = Ok tt (h', m') ∧
    rep h' m' bs' ∧ rep h' o bs ∧
    kvs <$> bs' = kvs <$> bs ∧
    (∀ l, l ∈ locs bs' → h !! l = None) ∧
    (∀ l, is_Some (h !! l) → h' !! l = h !! l).
Proof.
  intros Hrep.
  pose proof (rep_capacity _ _ _ Hrep) as Hcap.
  pose proof (rep_length _ _ _ Hrep) as Hlen.
  pose proof (Forall2_length _ _ _ (rep_chains _ _ _ Hrep)) as Hlen2.
  destruct (copy_buckets_spec (data o) bs 0%nat h (new_buckets (capacity o))
              (replicate (Z.to_nat (capacity o)) []))
    as (h' & d' & bs' & Hrun & Hlen' & Hbs' & _ & Hkvs & Hfresh & Hnd & Hframe).
  - apply (rep_chains _ _ _ Hrep).
  - apply (rep_nodup _ _ _ Hrep).
  - rewrite new_buckets_length. lia.
  - apply new_buckets_chains.
  - intros j Hj. rewrite new_buckets_length in Hj.
    apply lookup_replicate_2. lia.
  - rewrite !drop_0' in *.
    assert (copy_from o h = Ret (h', d')) as Hcf.
    { unfold copy_from. rewrite <-Hlen at 1. by rewrite Nat2Z.id, Hlen2. }
    assert (kvs (mjoin bs') = kvs (mjoin bs)) as Hcont
      by (by rewrite !kvs_join, Hkvs).
    assert (∀ l, l ∈ locs bs → is_Some (h !! l)) as Hlive.
    { intros l Hl. unfold locs in Hl.
      apply list_elem_of_fmap in Hl as [x [-> Hx]].
      apply elem_of_concat_lookup in Hx as (j & b & Hj & Hx).
      destruct (Forall2_lookup_r _ _ _ _ _ (rep_chains _ _ _ Hrep) Hj)
        as (q & _ & Hq).
      rewrite (chain_lookup _ _ _ _ Hq Hx). eauto. }
    exists h', d', bs'. cbv zeta.
    split; [done|]. split; [unfold HashMap_copy; by rewrite Hcf|].
    split; [|split; [|done]].
    + split; simpl.
      * done.
      * rewrite Hlen', new_buckets_length. lia.
      * done.
      * done.
      * rewrite (rep_sz _ _ _ Hrep). f_equal.
        apply (f_equal length) in Hcont. unfold kvs in Hcont.
        by rewrite !length_fmap in Hcont.
      * intros i b' x Hi Hx.
        assert ((kvs <$> bs') !! i = Some (kvs b')) as Hk
          by (by rewrite list_lookup_fmap, Hi).
        rewrite Hkvs, list_lookup_fmap in Hk.
        destruct (bs !! i) as [b|] eqn:Hb; [|done]. simpl in Hk.
        injection Hk as Hk.
        assert ((key x.2, value x.2) ∈ kvs b) as Hin.
        { rewrite Hk. unfold kvs.
          by apply (list_elem_of_fmap_2
                      (λ x : loc * ChainNode, (key x.2, value x.2))). }
        apply kvs_elem_inv in Hin as (y & Hy & Hky & _).
        rewrite <-Hky. apply (rep_index _ _ _ Hrep _ _ _ Hb Hy).
      * rewrite Hcont. apply (rep_keys _ _ _ Hrep).
      * apply (rep_sz_lt _ _ _ Hrep).
    + apply (rep_frame h); [done|]. intros l Hl. by apply Hframe, Hlive.
Qed.

(** ** Programs that use one table *)

Lemma mapping_insert bs bs' k v :
  NoDup (content bs').*1 → content bs' ≡ₚ (k, v) :: content bs →
  ∀ k', mapping bs' k' = if decide (k' = k) then Some v else mapping bs k'.
Proof.
  intros Hnd Hp k'. unfold mapping. rewrite (assoc_perm k' _ _ Hnd Hp).
  simpl. repeat case_decide; simplify_eq; done.
Qed.

Lemma mapping_erase bs bs' k v :
  NoDup (content bs).*1 → content bs ≡ₚ (k, v) :: content bs' →
  ∀ k', mapping bs' k' = if decide (k' = k) then None else mapping bs k'.
Proof.
  intros Hnd Hp k'. unfold mapping at 2. rewrite (assoc_perm k' _ _ Hnd Hp).
  rewrite Hp in Hnd. simpl in *. apply NoDup_cons in Hnd as [Hk _].
  repeat case_decide; simplify_eq; try done.
  by apply mapping_None.
Qed.

Lemma mapping_perm bs bs' :
  NoDup (content bs).*1 → content bs ≡ₚ content bs' →
  ∀ k, mapping bs' k = mapping bs k.
Proof. intros Hnd Hp k. unfold mapping. symmetry. by apply assoc_perm. Qed.

Lemma mapping_empty n k : mapping (replicate n []) k = None.
Proof. unfold mapping, content. by rewrite join_replicate_nil. Qed.

Lemma size_bound_pos : 0 < size_bound.
Proof. done. Qed.

Lemma within_fits B m : within B m → B < size_bound → fits m.
Proof. intros [? ?] ?. pose proof size_bound_pos. unfold fits. lia. Qed.

(** One call of a well-formed table, used as [usable] asks. *)
Lemma exec_spec o (open : bool) h m bs B :
  rep h m bs → (open = true → ∃ rem, cursor h m bs rem) →
  within B m → B + cost o < size_bound → usable open o = true →
  ∃ h' m' bs',
    (exec o (h, m) = Ok tt (h', m') ∨ ∃ e, exec o (h, m) = Throw e (h', m')) ∧
    rep h' m' bs' ∧
    (opens open o = true → ∃ rem, cursor h' m' bs' rem) ∧
    within (B + cost o) m' ∧
    (∀ k, mapping bs' k = apply_op o (mapping bs) k) ∧
    evolves h bs h' bs' ∧
    (is_rehash o = false → 2 * sz m ≤ 3 * capacity m →
       2 * sz m' ≤ 3 * capacity m' ∧
       (capacity m' = capacity m ∨ capacity m' = 2 * capacity m)).
Proof.
  intros Hrep Hcur [HB1 HB2] Hcost Huse.
  pose proof (rep_capacity _ _ _ Hrep) as Hcap.
  pose proof (rep_sz_nonneg _ _ _ Hrep) as Hsz0.
  pose proof size_bound_pos as Hsbp.
  destruct o as [k v|k| |k|k| | |n];
    cbn [exec cost usable opens is_rehash apply_op] in *.
  - (* insert *)
    destruct (mapping bs k) as [v0|] eqn:Hk.
    + exists h, m, bs. rewrite (insert_present h m bs k v Hrep) by eauto.
      split; [by left|]. split; [done|]. split; [done|].
      split; [split; simpl; lia|]. split.
      { intros k'. case_decide; by simplify_eq. }
      split; [apply evolves_refl|]. intros _ ?. split; [lia|by left].
    + destruct (insert_absent h m bs k v Hrep Hk)
        as (h' & m' & bs' & Hrun & Hrep' & Hcont & Hsz' & Hcap' & _ & _ & Hev).
      { unfold fits. lia. }
      exists h', m', bs'. split; [by left|]. split; [done|]. split; [done|].
      case_bool_decide as Hlf; rewrite Hsz', Hcap'.
      * split; [split; simpl; lia|]. split.
        { apply mapping_insert; [apply (rep_keys _ _ _ Hrep')|done]. }
        split; [done|]. intros _ ?. split; [lia|by right].
      * split; [split; simpl; lia|]. split.
        { apply mapping_insert; [apply (rep_keys _ _ _ Hrep')|done]. }
        split; [done|]. intros _ ?. split; [lia|by left].
  - (* erase *)
    destruct (mapping bs k) as [v0|] eqn:Hk.
    + destruct (erase_present h m bs k v0 Hrep Hk)
        as (h' & m' & bs' & Hrun & Hrep' & Hcont & Hsz' & Hcap' & _ & _ & Hev).
      exists h', m', bs'. rewrite Hrun. split; [by left|].
      split; [done|]. split; [done|]. rewrite Hsz', Hcap'.
      split; [split; simpl; lia|]. split.
      { eapply mapping_erase; [apply (rep_keys _ _ _ Hrep)|done]. }
      split; [done|]. intros _ ?. split; [lia|by left].
    + exists h, m, bs. rewrite (erase_absent h m bs k Hrep Hk).
      split; [right; eauto|]. split; [done|]. split; [done|].
      split; [split; simpl; lia|]. split.
      { intros k'. case_decide; by simplify_eq. }
      split; [apply evolves_refl|]. intros _ ?. split; [lia|by left].
  - (* clear *)
    destruct (clear_spec h m bs Hrep) as (h' & Hrun & Hrep' & _ & Hev).
    eexists h', _, _. rewrite Hrun. split; [by left|].
    split; [done|]. split; [done|]. simpl.
    split; [split; simpl; lia|]. split; [intros k; apply mapping_empty|].
    split; [done|]. intros _ ?. split; [lia|by left].
  - (* at *)
    exists h, m, bs. rewrite (at_spec h m bs k Hrep).
    split; [destruct (mapping bs k); [by left|right; eauto]|].
    split; [done|]. split; [done|]. split; [split; simpl; lia|]. split; [done|].
    split; [apply evolves_refl|]. intros _ ?. split; [lia|by left].
  - (* contains *)
    exists h, m, bs. rewrite (contains_spec h m bs k Hrep).
    split; [left; by destruct (mapping bs k)|].
    split; [done|]. split; [done|]. split; [split; simpl; lia|]. split; [done|].
    split; [apply evolves_refl|]. intros _ ?. split; [lia|by left].
  - (* begin *)
    destruct (begin_spec h m bs Hrep) as (c & idx & Hrun & Hcur' & _).
    eexists h, _, bs. rewrite Hrun. split; [by left|].
    split; [by eapply rep_cursor_irrelevant|]. split; [eauto|]. simpl.
    split; [split; simpl; lia|]. split; [done|].
    split; [apply evolves_refl|]. intros _ ?. split; [lia|by left].
  - (* next *)
    destruct (Hcur Huse) as [rem Hrem].
    pose proof (next_spec h m bs rem Hrep Hrem) as Hnext.
    destruct rem as [|x rem].
    + exists h, m, bs. rewrite Hnext. split; [by left|].
      split; [done|]. split; [eauto|]. split; [split; simpl; lia|]. split; [done|].
      split; [apply evolves_refl|]. intros _ ?. split; [lia|by left].
    + destruct Hnext as (c & idx & Hrun & Hcur').
      eexists h, _, bs. rewrite Hrun. split; [by left|].
      split; [by eapply rep_cursor_irrelevant|]. split; [eauto|]. simpl.
      split; [split; simpl; lia|]. split; [done|].
      split; [apply evolves_refl|]. intros _ ?. split; [lia|by left].
  - (* rehash *)
    apply bool_decide_eq_true_1 in Huse.
    destruct (rehash_spec h m bs n Hrep)
      as (h' & d' & bs' & Hrun & Hrep' & Hp' & Hev).
    { pose proof size_bound_lt. lia. }
    eexists h', _, bs'. rewrite Hrun. split; [by left|].
    split; [done|]. split; [done|]. simpl. split; [split; simpl; lia|]. split.
    { apply mapping_perm; [apply (rep_keys _ _ _ Hrep)|].
      symmetry. by apply ents_perm_kvs. }
    split; [done|]. done.
Qed.

Lemma apply_op_ext o f g :
  (∀ k, f k = g k) → ∀ k, apply_op o f k = apply_op o g k.
Proof.
  intros Hfg k. destruct o; simpl; try done.
  - case_decide; [|done]. by rewrite Hfg.
  - by case_decide.
Qed.

Lemma history_ext ops :
  ∀ f g, (∀ k, f k = g k) → ∀ k, history ops f k = history ops g k.
Proof.
  induction ops as [|o ops IH]; intros f g Hfg k; simpl; [done|].
  apply IH. by apply apply_op_ext.
Qed.

Lemma cost_nonneg open o : usable open o = true → 0 ≤ cost o.
Proof.
  destruct o; simpl; try lia. intros ?%bool_decide_eq_true_1. lia.
Qed.

Lemma total_cost_nonneg ops : ∀ open, well_used open ops = true → 0 ≤ total_cost ops.
Proof.
  induction ops as [|o ops IH]; intros open; simpl; [lia|].
  intros [Hu Hw]%andb_true_iff.
  pose proof (cost_nonneg _ _ Hu). pose proof (IH _ Hw). lia.
Qed.

(** A whole program on a well-formed table. *)
Lemma run_spec ops :
  ∀ (open : bool) h m bs B,
  rep h m bs → (open = true → ∃ rem, cursor h m bs rem) →
  within B m → B + total_cost ops < size_bound →
  well_used open ops = true →
  ∃ h' m' bs',
    run ops (h, m) = Ok tt (h', m') ∧
    rep h' m' bs' ∧
    within (B + total_cost ops) m' ∧
    (∀ k, mapping bs' k = history ops (mapping bs) k) ∧
    evolves h bs h' bs' ∧
    (forallb (λ o, negb (is_rehash o)) ops = true →
       2 * sz m ≤ 3 * capacity m → 2 * sz m' ≤ 3 * capacity m').
Proof.
  induction ops as [|o ops IH]; intros open h m bs B Hrep Hcur HB Hcost Hwu.
  { exists h, m, bs. simpl. rewrite Z.add_0_r.
    repeat (split; [done|]). split; [apply evolves_refl|done]. }
  simpl in Hwu, Hcost. apply andb_true_iff in Hwu as [Hu Hw].
  pose proof (total_cost_nonneg _ _ Hw) as Hnn.
  pose proof (cost_nonneg _ _ Hu) as Hcn.
  destruct (exec_spec o open h m bs B Hrep Hcur HB)
    as (h1 & m1 & bs1 & Hrun1 & Hrep1 & Hcur1 & HB1 & Hmap1 & Hev1 & Hlf1);
    [lia|done|].
  destruct (IH (opens open o) h1 m1 bs1 (B + cost o) Hrep1 Hcur1 HB1)
    as (h' & m' & bs' & Hrun & Hrep' & HB' & Hmap & Hev & Hlf);
    [lia|done|].
  exists h', m', bs'. split.
  { cbn [run]. destruct Hrun1 as [->|[e ->]]; done. }
  split; [done|]. split.
  { cbn [total_cost foldr]. fold (total_cost ops).
    by rewrite Z.add_assoc. }
  split.
  { intros k. rewrite Hmap. simpl. by apply history_ext. }
  split; [by eapply evolves_trans|].
  cbn [forallb]. intros [Ho Hops]%andb_true_iff Hinv.
  apply negb_true_iff in Ho.
  apply Hlf; [done|]. by apply Hlf1.
Qed.

(** ** Fresh tables, and two tables in one store *)

(** A table just built by [HashMap(capacity)]. *)
Lemma rep_new (h : heap) c curr0 idx0 :
  0 < c < size_t_mod →
  rep h (HashMap_new c curr0 idx0) (replicate (Z.to_nat c) []).
Proof.
  intros Hc. split; simpl; try done.
  - rewrite new_buckets_length. lia.
  - apply new_buckets_chains.
  - rewrite join_replicate_nil. constructor.
  - by rewrite join_replicate_nil.
  - intros j b x Hj Hx. apply lookup_replicate in Hj as [-> _].
    by apply elem_of_nil in Hx.
  - rewrite join_replicate_nil. constructor.
Qed.

Lemma separate_sym w a b ma mb bsa bsb :
  separate w a b ma mb bsa bsb → separate w b a mb ma bsb bsa.
Proof.
  intros (Hne & Ha & Hb & Hra & Hrb & Hdisj).
  split; [by apply not_eq_sym|]. repeat (split; [done|]).
  intros l Hl Hl'. by apply (Hdisj l).
Qed.

Lemma rep_live h m bs l : rep h m bs → l ∈ locs bs → is_Some (h !! l).
Proof.
  intros Hrep Hl. unfold locs in Hl.
  apply list_elem_of_fmap in Hl as [x [-> Hx]].
  apply elem_of_concat_lookup in Hx as (j & b & Hj & Hx).
  destruct (Forall2_lookup_r _ _ _ _ _ (rep_chains _ _ _ Hrep) Hj)
    as (q & _ & Hq).
  rewrite (chain_lookup _ _ _ _ Hq Hx). eauto.
Qed.

(** What one table does leaves a table that shares no node with it as it
    was, and still sharing no node. *)
Lemma rep_evolves_other h bs h' bs' m2 bs2 :
  evolves h bs h' bs' → rep h m2 bs2 →
  (∀ l, l ∈ locs bs → l ∉ locs bs2) →
  rep h' m2 bs2 ∧ (∀ l, l ∈ locs bs' → l ∉ locs bs2).
Proof.
  intros [Hframe Hown] Hrep Hdisj. split.
  - apply (rep_frame h); [done|]. intros l Hl. apply Hframe.
    + intros Hl'. by apply (Hdisj l).
    + by eapply rep_live.
  - intros l Hl Hl2. destruct (Hown l Hl) as [Hl'|Hnone].
    + by apply (Hdisj l).
    + pose proof (rep_live _ _ _ _ Hrep Hl2) as Hsome.
      rewrite Hnone in Hsome. by destruct Hsome.
Qed.

Lemma call_at w a m bs k :
  objects w !! a = Some m → rep (nodes w) m bs →
  answer (call a (at_ k) w) =
    match mapping bs k with
    | Some v => Ok v tt
    | None => Throw (out_of_range "out_of_range") tt
    end.
Proof.
  intros Ha Hrep. unfold call. rewrite Ha, (at_spec _ _ bs) by done.
  by destruct (mapping bs k).
Qed.

Lemma call_contains w a m bs k :
  objects w !! a = Some m → rep (nodes w) m bs →
  answer (call a (contains k) w) =
    match mapping bs k with
    | Some v => Ok true tt
    | None => Ok false tt
    end.
Proof.
  intros Ha Hrep. unfold call. rewrite Ha, (contains_spec _ _ bs) by done.
  by destruct (mapping bs k).
Qed.

(** A program run on [a] leaves [b] as it was. *)
Lemma call_run_separate w a b ma mb bsa bsb ops (open : bool) B :
  separate w a b ma mb bsa bsb →
  (open = true → ∃ rem, cursor (nodes w) ma bsa rem) →
  within B ma → B + total_cost ops < size_bound →
  well_used open ops = true →
  ∃ w' ma' bsa',
    call a (run ops) w = Ok tt w' ∧
    separate w' a b ma' mb bsa' bsb ∧
    (∀ k, mapping bsa' k = history ops (mapping bsa) k).
Proof.
  intros (Hne & Ha & Hb & Hra & Hrb & Hdisj) Hcur HB Hcost Hwu.
  destruct (run_spec ops open (nodes w) ma bsa B Hra Hcur HB Hcost Hwu)
    as (h' & ma' & bsa' & Hrun & Hra' & _ & Hmap & Hev & _).
  destruct (rep_evolves_other _ _ _ _ _ _ Hev Hrb Hdisj) as [Hrb' Hdisj'].
  exists (mkWorld h' (<[a := ma']> (objects w))), ma', bsa'.
  split; [|split; [|done]].
  - unfold call. by rewrite Ha, Hrun.
  - split; [done|]. simpl. split; [apply lookup_insert_eq|].
    split; [by rewrite lookup_insert_ne|]. done.
Qed.

(** The copy constructor gives a table separate from its source. *)
Lemma construct_copy_spec w t c mt bst curr0 idx0 :
  t ≠ c → objects w !! t = Some mt → rep (nodes w) mt bst →
  ∃ w' mc bsc,
    construct_copy c t curr0 idx0 w = Ok tt w' ∧
    separate w' t c mt mc bst bsc ∧
    capacity mc = capacity mt ∧ sz mc = sz mt ∧
    kvs <$> bsc = kvs <$> bst ∧
    (∀ l, l ∈ locs bsc → nodes w !! l = None) ∧
    (∀ l, is_Some (nodes w !! l) → nodes w' !! l = nodes w !! l).
Proof.
  intros Hne Ht Hrt.
  destruct (HashMap_copy_spec (nodes w) mt bst curr0 idx0 Hrt)
    as (h' & d' & bsc & _ & Hrun & Hrc & Hrt' & Hkvs & Hfresh & Hframe).
  cbv zeta in *.
  eexists (mkWorld h' _), _, bsc. split; [|split; [|split; [|split]]].
  - unfold construct_copy. rewrite Ht, Hrun. done.
  - split; [done|]. simpl. split; [by rewrite lookup_insert_ne|].
    split; [apply lookup_insert_eq|]. split; [done|]. split; [done|].
    intros l Hl Hl'. apply Hfresh in Hl'.
    pose proof (rep_live _ _ _ _ Hrt Hl) as Hsome.
    rewrite Hl' in Hsome. by destruct Hsome.
  - done.
  - done.
  - done.
Qed.

(** Assignment gives the target the mappings of the source and keeps the
    two separate. *)
Lemma assign_spec w t c mt mc bst bsc :
  separate w t c mt mc bst bsc →
  ∃ w' mc' bsc',
    assign c t w = Ok tt w' ∧
    separate w' t c mt mc' bst bsc' ∧
    capacity mc' = capacity mt ∧ sz mc' = sz mt ∧
    kvs <$> bsc' = kvs <$> bst.
Proof.
  intros (Hne & Ht & Hc & Hrt & Hrc & Hdisj).
  destruct (clear_spec (nodes w) mc bsc Hrc) as (h1 & Hclr & Hrc1 & _ & Hev).
  cbv zeta in *.
  set (mc1 := mkMap (new_buckets (capacity mc)) 0 (capacity mc)
                (curr mc) (curr_idx mc)) in *.
  destruct (rep_evolves_other _ _ _ _ mt bst Hev Hrt) as [Hrt1 _].
  { intros l Hl Hl'. by apply (Hdisj l). }
  destruct (HashMap_copy_spec h1 mt bst (curr mc1) (curr_idx mc1) Hrt1)
    as (h' & d' & bsc' & Hcf & _ & Hrc' & Hrt' & Hkvs & Hfresh & Hframe).
  cbv zeta in *.
  eexists (mkWorld h' _), _, bsc'. split; [|split; [|split; [|split]]].
  - unfold assign. rewrite decide_False by done.
    unfold call. rewrite Hc, Hclr. simpl.
    rewrite lookup_insert_eq, lookup_insert_ne, Ht by done.
    rewrite Hcf. simpl. done.
  - split; [done|]. simpl.
    split; [rewrite lookup_insert_ne by done; by rewrite lookup_insert_ne|].
    split; [apply lookup_insert_eq|]. split; [done|]. split; [done|].
    intros l Hl Hl'. apply Hfresh in Hl'.
    pose proof (rep_live _ _ _ _ Hrt1 Hl) as Hsome.
    rewrite Hl' in Hsome. by destruct Hsome.
  - done.
  - done.
  - done.
Qed.

(** ** Sequences of inserts *)

Lemma history_inserts ins :
  ∀ f k, history (inserts ins) f k =
         match f k with Some v => Some v | None => assoc k ins end.
Proof.
  induction ins as [|[k0 v0] ins IH]; intros f k; simpl.
  { by destruct (f k). }
  rewrite IH. simpl. repeat case_decide; simplify_eq; try done;
    by destruct (f k).
Qed.

Lemma well_used_inserts ins : ∀ open, well_used open (inserts ins) = true.
Proof. induction ins; intros open; simpl; auto. Qed.

Lemma total_cost_inserts ins :
  total_cost (inserts ins) = 2 * Z.of_nat (length ins).
Proof.
  induction ins as [|kv ins IH]; [done|].
  cbn [inserts fmap list_fmap total_cost foldr length].
  fold (inserts ins) (total_cost (inserts ins)). rewrite IH. cbn [cost]. lia.
Qed.

Lemma within_new c curr0 idx0 : 0 < c → within c (HashMap_new c curr0 idx0).
Proof. intros. split; simpl; lia. Qed.

Lemma mapping_Some_content bs k v :
  NoDup (content bs).*1 → mapping bs k = Some v ↔ (k, v) ∈ content bs.
Proof. apply assoc_Some. Qed.

Lemma sz_content h m bs : rep h m bs → sz m = Z.of_nat (length (content bs)).
Proof.
  intros Hrep. rewrite (rep_sz _ _ _ Hrep). unfold content, kvs.
  by rewrite length_fmap.
Qed.

(** Any program run on a table just built: where it ends. *)
Lemma run_new ops (h : heap) c curr0 idx0 :
  0 < c → c + total_cost ops < size_bound → well_used false ops = true →
  ∃ h' m' bs',
    run ops (h, HashMap_new c curr0 idx0) = Ok tt (h', m') ∧
    rep h' m' bs' ∧
    (∀ k, mapping bs' k = history ops (λ _, None) k) ∧
    (forallb (λ o, negb (is_rehash o)) ops = true →
       2 * sz m' ≤ 3 * capacity m').
Proof.
  intros Hc Hcost Hwu.
  pose proof (total_cost_nonneg _ _ Hwu) as Hnn.
  pose proof size_bound_lt as Hsb.
  assert (rep h (HashMap_new c curr0 idx0) (replicate (Z.to_nat c) []))
    as Hrep by (apply rep_new; lia).
  destruct (run_spec ops false h _ _ c Hrep) as
    (h' & m' & bs' & Hrun & Hrep' & _ & Hmap & _ & Hlf);
    [done|by apply within_new|done|done|].
  exists h', m', bs'. repeat (split; [done|]). split.
  - intros k. rewrite Hmap. apply history_ext. intros k'.
    apply mapping_empty.
  - intros Hnr. apply Hlf; [done|]. simpl. lia.
Qed.

(** * Theorems *)

(** ** C1 *)

(** C1.  [insert] is first-write-wins.  On a key already present with
    value [v1], [insert(k, v2)] returns with the store and every field of
    the table as they were: [at(k)] is still [v1], [size()] is the same and
    no rehash took place.  So, after any sequence of inserts into a table
    just built, [size()] is the number of distinct keys inserted and
    [at] gives each key the value of its first insert. *)
Theorem insert_first_write_wins :
  (∀ h m bs k v1 v2,
     rep h m bs → at_ k (h, m) = Ok v1 (h, m) →
     insert k v2 (h, m) = Ok tt (h, m)) ∧
  (∀ (h : heap) c curr0 idx0 (ins : list (KeyT * ValT)),
     0 < c → c + 2 * Z.of_nat (length ins) < size_bound →
     ∃ s', run (inserts ins) (h, HashMap_new c curr0 idx0) = Ok tt s' ∧
           size s'.2 = Z.of_nat (length (remove_dups ins.*1)) ∧
           ∀ k, answer (at_ k s') =
                match assoc k ins with
                | Some v => Ok v tt
                | None => Throw (out_of_range "out_of_range") tt
                end).
Proof.
  split.
  - intros h m bs k v1 v2 Hrep Hat. apply (insert_present h m bs); [done|].
    rewrite (at_spec h m bs k Hrep) in Hat.
    destruct (mapping bs k); [eauto|done].
  - intros h c curr0 idx0 ins Hc Hbound.
    destruct (run_new (inserts ins) h c curr0 idx0)
      as (h' & m' & bs' & Hrun & Hrep' & Hmap & _);
      [done|by rewrite total_cost_inserts|apply well_used_inserts|].
    exists (h', m'). split; [done|]. cbn [snd]. split.
    + unfold size. rewrite (sz_content _ _ _ Hrep'). f_equal.
      rewrite <-(length_fmap fst (content bs')).
      apply Permutation_length, NoDup_Permutation.
      * apply (rep_keys _ _ _ Hrep').
      * apply NoDup_remove_dups.
      * intros k. rewrite elem_of_remove_dups.
        pose proof (mapping_None bs' k) as Hn1.
        pose proof (assoc_None k ins) as Hn2.
        rewrite Hmap, history_inserts in Hn1.
        destruct (decide (k ∈ (content bs').*1)) as [Hin|Hnin];
          destruct (decide (k ∈ ins.*1)) as [Hin'|Hnin']; tauto.
    + intros k. rewrite (at_spec h' m' bs' k Hrep'), Hmap, history_inserts.
      by destruct (assoc k ins).
Qed.

(** ** C2 *)

(** C2.  [at] and [contains] agree with membership.  In a well-formed
    table a key is either held with a value [v], and then [contains]
    returns [true] and [at] returns [v], or not held, and then [contains]
    returns [false] and [at] throws [out_of_range]; [contains] never
    throws.  After any program on a table just built, the keys held are
    the keys inserted and not erased or cleared since, each with the value
    of its first insert since then ([history]). *)
Theorem at_contains_agree_with_membership :
  (∀ h m bs k,
     rep h m bs →
     (∃ v, (k, v) ∈ content bs ∧
           contains k (h, m) = Ok true (h, m) ∧
           at_ k (h, m) = Ok v (h, m)) ∨
     ((k ∉ (content bs).*1) ∧
      contains k (h, m) = Ok false (h, m) ∧
      at_ k (h, m) = Throw (out_of_range "out_of_range") (h, m))) ∧
  (∀ (h : heap) c curr0 idx0 ops,
     0 < c → c + total_cost ops < size_bound → well_used false ops = true →
     ∃ s', run ops (h, HashMap_new c curr0 idx0) = Ok tt s' ∧
           ∀ k, match history ops (λ _, None) k with
                | Some v =>
                    contains k s' = Ok true s' ∧ at_ k s' = Ok v s'
                | None =>
                    contains k s' = Ok false s' ∧
                    at_ k s' = Throw (out_of_range "out_of_range") s'
                end).
Proof.
  split.
  - intros h m bs k Hrep.
    rewrite (contains_spec h m bs k Hrep), (at_spec h m bs k Hrep).
    destruct (mapping bs k) as [v|] eqn:Hk.
    + left. exists v. split; [|done].
      apply mapping_Some_content; [apply (rep_keys _ _ _ Hrep)|done].
    + right. split; [|done]. by apply mapping_None.
  - intros h c curr0 idx0 ops Hc Hbound Hwu.
    destruct (run_new ops h c curr0 idx0 Hc Hbound Hwu)
      as (h' & m' & bs' & Hrun & Hrep' & Hmap & _).
    exists (h', m'). split; [done|]. intros k.
    rewrite (contains_spec h' m' bs' k Hrep'), (at_spec h' m' bs' k Hrep').
    rewrite <-Hmap. by destruct (mapping bs' k).
Qed.

(** ** C3 *)

Lemma empty_mapping h m bs k :
  rep h m bs → empty m = true → mapping bs k = None.
Proof.
  intros Hrep He. apply bool_decide_eq_true_1 in He.
  rewrite (sz_content _ _ _ Hrep) in He.
  destruct (content bs) eqn:Hc; [|simpl in He; lia].
  unfold mapping. by rewrite Hc.
Qed.

(** C3.  [erase] on a key present returns its value, takes one off
    [size()], leaves [contains(k)] false, keeps the capacity and leaves
    every other key with its value; on a key absent, and so on an empty
    table, it throws [out_of_range] and the store and every field of the
    table are as they were. *)
Theorem erase_semantics h m bs k :
  rep h m bs →
  (∀ v, at_ k (h, m) = Ok v (h, m) →
     ∃ h' m' bs',
       erase k (h, m) = Ok v (h', m') ∧ rep h' m' bs' ∧
       size m' = size m - 1 ∧
       get_capacity m' = get_capacity m ∧
       contains k (h', m') = Ok false (h', m') ∧
       ∀ k', k' ≠ k →
         answer (at_ k' (h', m')) = answer (at_ k' (h, m)) ∧
         answer (contains k' (h', m')) = answer (contains k' (h, m))) ∧
  (contains k (h, m) = Ok false (h, m) →
     erase k (h, m) = Throw (out_of_range "Key not found in erase") (h, m)) ∧
  (empty m = true →
     erase k (h, m) = Throw (out_of_range "Key not found in erase") (h, m)).
Proof.
  intros Hrep. split; [|split].
  - intros v Hat. rewrite (at_spec h m bs k Hrep) in Hat.
    destruct (mapping bs k) as [v0|] eqn:Hk; [|done].
    injection Hat as ->.
    destruct (erase_present h m bs k v Hrep Hk)
      as (h' & m' & bs' & Hrun & Hrep' & Hcont & Hsz' & Hcap' & _).
    pose proof (mapping_erase bs bs' k v (rep_keys _ _ _ Hrep) Hcont) as Hmap.
    exists h', m', bs'. repeat (split; [done|]). split.
    + rewrite (contains_spec h' m' bs' k Hrep'), Hmap.
      by rewrite decide_True.
    + intros k' Hne.
      rewrite (at_spec h' m' bs' k' Hrep'), (at_spec h m bs k' Hrep).
      rewrite (contains_spec h' m' bs' k' Hrep'), (contains_spec h m bs k' Hrep).
      rewrite Hmap, decide_False by done.
      by destruct (mapping bs k').
  - intros Hc. apply (erase_absent h m bs k Hrep).
    rewrite (contains_spec h m bs k Hrep) in Hc.
    by destruct (mapping bs k).
  - intros He. apply (erase_absent h m bs k Hrep). by eapply empty_mapping.
Qed.

(** ** C4 *)

(** C4.  [rehash(new_capacity)] with at least one bucket keeps the map:
    the same nodes hold the same (key, value) pairs, none dropped and none
    added, [at] answers as before for every key, [size()] is the same, the
    capacity is [new_capacity], and every node sits in the bucket
    [hash(key) % new_capacity]. *)
Theorem rehash_preserves_map h m bs new_capacity :
  rep h m bs → 1 ≤ new_capacity < size_t_mod →
  ∃ h' m' bs',
    rehash new_capacity (h, m) = Ok tt (h', m') ∧ rep h' m' bs' ∧
    ents (mjoin bs') ≡ₚ ents (mjoin bs) ∧
    content bs' ≡ₚ content bs ∧
    (∀ k, answer (at_ k (h', m')) = answer (at_ k (h, m))) ∧
    size m' = size m ∧ get_capacity m' = new_capacity ∧
    (∀ i b x, bs' !! i = Some b → x ∈ b →
       hash (key x.2) mod new_capacity = Z.of_nat i).
Proof.
  intros Hrep Hn.
  destruct (rehash_spec h m bs new_capacity Hrep)
    as (h' & d' & bs' & Hrun & Hrep' & Hp & _); [lia|].
  eexists h', _, bs'. split; [done|]. split; [done|]. split; [done|].
  assert (content bs' ≡ₚ content bs) as Hcont by (by apply ents_perm_kvs).
  split; [done|]. split; [|split; [done|split; [done|]]].
  - intros k.
    rewrite (at_spec _ _ bs' k Hrep'), (at_spec h m bs k Hrep).
    rewrite (mapping_perm bs bs' (rep_keys _ _ _ Hrep)) by done.
    by destruct (mapping bs k).
  - apply (rep_index _ _ _ Hrep').
Qed.

(** ** C8 *)

(** C8.  [clear] empties the table and keeps its capacity: afterwards
    [size()] is 0, [empty()] is true, the capacity is what it was, and for
    every key [contains] returns false and [at] throws [out_of_range]. *)
Theorem clear_empties_keeps_capacity h m bs :
  rep h m bs →
  ∃ h' m',
    clear (h, m) = Ok tt (h', m') ∧
    size m' = 0 ∧ empty m' = true ∧
    get_capacity m' = get_capacity m ∧
    (∀ l, l ∈ locs bs → h' !! l = None) ∧
    ∀ k, contains k (h', m') = Ok false (h', m') ∧
         at_ k (h', m') = Throw (out_of_range "out_of_range") (h', m').
Proof.
  intros Hrep.
  destruct (clear_spec h m bs Hrep) as (h' & Hrun & Hrep' & Hgone & _).
  cbv zeta in *. eexists h', _. split; [done|].
  repeat (split; [done|]). intros k.
  rewrite (contains_spec _ _ _ k Hrep'), (at_spec _ _ _ k Hrep').
  by rewrite mapping_empty.
Qed.

(** ** C5 *)

Lemma insert_new h m bs k v :
  rep h m bs → fits m → mapping bs k = None →
  ∃ h' m' bs',
    insert k v (h, m) = Ok tt (h', m') ∧ rep h' m' bs' ∧
    sz m' = sz m + 1 ∧
    capacity m' = (if bool_decide (3 * capacity m < 2 * (sz m + 1))
                   then 2 * capacity m else capacity m) ∧
    ∀ k', mapping bs' k' = if decide (k' = k) then Some v else mapping bs k'.
Proof.
  intros Hrep Hfits Hk.
  destruct (insert_absent h m bs k v Hrep Hk Hfits)
    as (h' & m' & bs' & Hrun & Hrep' & Hcont & Hsz' & Hcap' & _).
  exists h', m', bs'. repeat (split; [done|]).
  apply mapping_insert; [apply (rep_keys _ _ _ Hrep')|done].
Qed.

(** C5.  The growth trigger is exact.  An [insert] of a new key doubles
    the capacity when, after the increment, [size / capacity] is above
    1.5, and keeps it otherwise; the quotient is the one the code takes
    on doubles, which for the sizes of [fits] decides as the exact
    [2 * size > 3 * capacity].  In a
    table of capacity 2 the third distinct key (load factor exactly 1.5)
    does not rehash and the fourth does: the capacity becomes 4 and the
    four keys are retrieved with their values. *)
Theorem growth_trigger :
  (∀ h m bs k v,
     rep h m bs → fits m → contains k (h, m) = Ok false (h, m) →
     ∃ h' m',
       insert k v (h, m) = Ok tt (h', m') ∧
       size m' = size m + 1 ∧
       (get_capacity m' = 2 * get_capacity m ↔
          3 * get_capacity m < 2 * size m') ∧
       (get_capacity m' = get_capacity m ↔
          2 * size m' ≤ 3 * get_capacity m)) ∧
  (∀ (h : heap) curr0 idx0 k1 k2 k3 k4 v1 v2 v3 v4,
     NoDup [k1; k2; k3; k4] →
     ∃ s3 s4,
       run (inserts [(k1, v1); (k2, v2); (k3, v3)])
         (h, HashMap_new 2 curr0 idx0) = Ok tt s3 ∧
       size s3.2 = 3 ∧ get_capacity s3.2 = 2 ∧
       insert k4 v4 s3 = Ok tt s4 ∧
       size s4.2 = 4 ∧ get_capacity s4.2 = 4 ∧
       at_ k1 s4 = Ok v1 s4 ∧ at_ k2 s4 = Ok v2 s4 ∧
       at_ k3 s4 = Ok v3 s4 ∧ at_ k4 s4 = Ok v4 s4).
Proof.
  split.
  - intros h m bs k v Hrep Hfits Hc.
    rewrite (contains_spec h m bs k Hrep) in Hc.
    destruct (mapping bs k) eqn:Hk; [done|].
    destruct (insert_new h m bs k v Hrep Hfits Hk)
      as (h' & m' & bs' & Hrun & _ & Hsz' & Hcap' & _).
    pose proof (rep_capacity _ _ _ Hrep).
    exists h', m'. split; [done|]. unfold size, get_capacity.
    rewrite Hsz', Hcap'. split; [done|]. case_bool_decide; lia.
  - intros h curr0 idx0 k1 k2 k3 k4 v1 v2 v3 v4 Hnd.
    apply NoDup_cons in Hnd as [H1 Hnd]. apply NoDup_cons in Hnd as [H2 Hnd].
    apply NoDup_cons in Hnd as [H3 _].
    apply not_elem_of_cons in H1 as [H12 H1].
    apply not_elem_of_cons in H1 as [H13 H1].
    apply not_elem_of_cons in H1 as [H14 _].
    apply not_elem_of_cons in H2 as [H23 H2].
    apply not_elem_of_cons in H2 as [H24 _].
    apply not_elem_of_cons in H3 as [H34 _].
    assert (rep h (HashMap_new 2 curr0 idx0) (replicate (Z.to_nat 2) []))
      as Hrep0 by (by apply rep_new).
    destruct (insert_new h _ _ k1 v1 Hrep0)
      as (h1 & m1 & bs1 & Hrun1 & Hrep1 & Hsz1 & Hcap1 & Hmap1);
      [by split|apply mapping_empty|].
    simpl in Hsz1, Hcap1.
    destruct (insert_new h1 m1 bs1 k2 v2 Hrep1)
      as (h2 & m2 & bs2 & Hrun2 & Hrep2 & Hsz2 & Hcap2 & Hmap2).
    { unfold fits. rewrite Hsz1, Hcap1. done. }
    { rewrite Hmap1, decide_False by done. apply mapping_empty. }
    rewrite Hsz1 in Hsz2. rewrite Hsz1, Hcap1 in Hcap2. simpl in Hsz2, Hcap2.
    destruct (insert_new h2 m2 bs2 k3 v3 Hrep2)
      as (h3 & m3 & bs3 & Hrun3 & Hrep3 & Hsz3 & Hcap3 & Hmap3).
    { unfold fits. rewrite Hsz2, Hcap2. done. }
    { rewrite Hmap2, decide_False, Hmap1, decide_False by done.
      apply mapping_empty. }
    rewrite Hsz2 in Hsz3. rewrite Hsz2, Hcap2 in Hcap3. simpl in Hsz3, Hcap3.
    destruct (insert_new h3 m3 bs3 k4 v4 Hrep3)
      as (h4 & m4 & bs4 & Hrun4 & Hrep4 & Hsz4 & Hcap4 & Hmap4).
    { unfold fits. rewrite Hsz3, Hcap3. done. }
    { rewrite Hmap3, decide_False, Hmap2, decide_False, Hmap1, decide_False
        by done.
      apply mapping_empty. }
    rewrite Hsz3 in Hsz4. rewrite Hsz3, Hcap3 in Hcap4. simpl in Hsz4, Hcap4.
    exists (h3, m3), (h4, m4). cbn [snd]. split.
    { cbn [inserts fmap list_fmap run exec fst snd].
      by rewrite Hrun1, Hrun2, Hrun3. }
    repeat (split; [done|]).
    rewrite !(at_spec h4 m4 bs4 _ Hrep4), !Hmap4, !Hmap3, !Hmap2, !Hmap1.
    repeat split; repeat (case_decide; try done).
Qed.

(** ** C7 *)

Lemma nexts_snoc n :
  ∀ s rs s1 r s2,
  nexts n s = Ok rs s1 → next_ s1 = Ok r s2 →
  nexts (S n) s = Ok (rs ++ [r]) s2.
Proof.
  induction n as [|n IH]; intros s rs s1 r s2 Hn Hlast.
  - simpl in Hn. injection Hn as <- <-. simpl. by rewrite Hlast.
  - cbn [nexts] in Hn. cbn [nexts].
    destruct (next_ s) as [r0 s'| | |]; try done.
    destruct (nexts n s') as [rs' s''| | |] eqn:Hn'; try done.
    injection Hn as <- <-.
    change (match next_ s' with
            | Ok r1 s'0 =>
                match nexts n s'0 with
                | Ok rs s''0 => Ok (r1 :: rs) s''0
                | o => o
                end
            | Throw e s'0 => Throw e s'0
            | Fault => Fault
            | Diverge => Diverge
            end) with (nexts (S n) s').
    by rewrite (IH s' rs' s'' r s2 Hn' Hlast).
Qed.

(** C7.  A traversal is complete.  After [begin], [next] returns true
    exactly [size()] times and then false; the pairs it wrote are the
    pairs of the table, each present key once with its value ([at] finds
    exactly these).  On an empty table [begin] leaves [curr] null and the
    first [next] returns false. *)
Theorem traversal_is_complete h m bs :
  rep h m bs →
  ∃ m1 m2,
    begin (h, m) = Ok tt (h, m1) ∧
    nexts (S (length (content bs))) (h, m1)
      = Ok ((Some <$> content bs) ++ [None]) (h, m2) ∧
    Z.of_nat (length (content bs)) = size m ∧
    NoDup (content bs).*1 ∧
    (∀ k v, (k, v) ∈ content bs ↔ at_ k (h, m) = Ok v (h, m)) ∧
    same_table m m2 ∧
    (empty m = true → curr m1 = None ∧ next_ (h, m1) = Ok None (h, m1)).
Proof.
  intros Hrep.
  destruct (begin_spec h m bs Hrep) as (c & idx & Hbegin & Hcur & Hnil).
  cbv zeta in *.
  set (m1 := mkMap (data m) (sz m) (capacity m) c idx) in *.
  assert (same_table m m1) as Hsame1 by (by repeat split).
  pose proof (rep_same_table _ _ _ _ Hrep Hsame1) as Hrep1.
  destruct (nexts_spec h bs (mjoin bs) m1 Hrep1 Hcur)
    as (m2 & Hrun & Hsame2 & Hcur2).
  pose proof (rep_same_table _ _ _ _ Hrep1 Hsame2) as Hrep2.
  pose proof (next_spec h m2 bs [] Hrep2 Hcur2) as Hlast.
  exists m1, m2. split; [done|]. split.
  { unfold content, kvs at 1. rewrite length_fmap.
    by apply (nexts_snoc _ _ _ (h, m2)). }
  split; [symmetry; by apply (sz_content h)|].
  split; [apply (rep_keys _ _ _ Hrep)|]. split.
  { intros k v. rewrite (at_spec h m bs k Hrep).
    rewrite <-(mapping_Some_content bs k v (rep_keys _ _ _ Hrep)).
    destruct (mapping bs k); naive_solver. }
  split; [by eapply same_table_trans|].
  intros He. apply bool_decide_eq_true_1 in He.
  rewrite (rep_sz _ _ _ Hrep) in He.
  assert (mjoin bs = []) as Hempty by (destruct (mjoin bs); [done|simpl in He; lia]).
  specialize (Hnil Hempty). subst c. split; [done|]. done.
Qed.

(** ** C10 *)

Lemma probe_same_table h m m' k : same_table m m' → probe h m' k = probe h m k.
Proof.
  intros (Hd & _ & Hc). unfold probe, bucket_index. by rewrite Hd, Hc.
Qed.

Lemma at_same_table h m m' k :
  same_table m m' → answer (at_ k (h, m')) = answer (at_ k (h, m)).
Proof.
  intros Hs. unfold at_. rewrite (probe_same_table h m m' k Hs).
  destruct (probe h m k) as [[[i p] [[l n]|]]| |]; done.
Qed.

Lemma contains_same_table h m m' k :
  same_table m m' → answer (contains k (h, m')) = answer (contains k (h, m)).
Proof.
  intros Hs. unfold contains. rewrite (probe_same_table h m m' k Hs).
  destruct (probe h m k) as [[[i p] [[l n]|]]| |]; done.
Qed.

(** [begin] and [next] return normally or not at all, and write the two
    cursor fields only. *)
Lemma exec_cursor_pure o s s' :
  is_cursor_op o = true →
  (exec o s = Ok tt s' ∨ ∃ e, exec o s = Throw e s') →
  exec o s = Ok tt s' ∧ s'.1 = s.1 ∧ same_table s.2 s'.2.
Proof.
  destruct s as [h m]. destruct o; try done; intros _; cbn [exec].
  - unfold begin.
    destruct (skip_empty _ _ _ _) as [idx| |]; cbn [mbind res_bind of_res];
      [|naive_solver..].
    destruct (if decide (idx < capacity m) then _ else _) as [c| |];
      cbn [mbind res_bind of_res mret res_ret]; [|naive_solver..].
    intros [[= <-]|[e [=]]]. by repeat split.
  - unfold next_. destruct (curr m) as [l|].
    + destruct (h !! l) as [n|]; [|naive_solver].
      destruct (advance _ _ _ _ _) as [[c idx]| |]; cbn [of_res void];
        [|naive_solver..].
      intros [[= <-]|[e [=]]]. by repeat split.
    + cbn [void]. intros [[= <-]|[e [=]]]. by repeat split.
Qed.

Lemma run_cursor_pure ops :
  ∀ s s', forallb is_cursor_op ops = true → run ops s = Ok tt s' →
          s'.1 = s.1 ∧ same_table s.2 s'.2.
Proof.
  induction ops as [|o ops IH]; intros s s'; cbn [forallb run].
  { intros _ [= <-]. split; [done|apply same_table_refl]. }
  intros [Ho Hops]%andb_true_iff Hrun.
  assert (∃ s1, (exec o s = Ok tt s1 ∨ ∃ e, exec o s = Throw e s1) ∧
                run ops s1 = Ok tt s') as (s1 & Hex & Hrest).
  { destruct (exec o s) as [[] s1|e s1| |]; try done; eauto. }
  destruct (exec_cursor_pure o s s1 Ho Hex) as (_ & Hh & Hs).
  destruct (IH s1 s' Hops Hrest) as [Hh' Hs'].
  split; [congruence|by eapply same_table_trans].
Qed.

Lemma run_cursor_total ops :
  ∀ (open : bool) h m bs,
  rep h m bs → forallb is_cursor_op ops = true →
  (open = true → ∃ rem, cursor h m bs rem) → well_used open ops = true →
  ∃ m', run ops (h, m) = Ok tt (h, m').
Proof.
  induction ops as [|o ops IH]; intros open h m bs Hrep; cbn [forallb run].
  { intros _ _ _. eauto. }
  intros [Ho Hops]%andb_true_iff Hcur [Hu Hw]%andb_true_iff.
  destruct o; try done; cbn [exec opens usable] in *.
  - destruct (begin_spec h m bs Hrep) as (c & idx & Hrun & Hcur' & _).
    cbv zeta in *. rewrite Hrun.
    eapply (IH true); [by eapply rep_cursor_irrelevant|done|eauto|done].
  - destruct (Hcur Hu) as [rem Hrem].
    pose proof (next_spec h m bs rem Hrep Hrem) as Hnext.
    destruct rem as [|x rem].
    + rewrite Hnext. cbn [void]. by eapply (IH open).
    + destruct Hnext as (c & idx & Hrun & Hcur'). cbv zeta in *.
      rewrite Hrun. cbn [void].
      eapply (IH open); [by eapply rep_cursor_irrelevant|done|eauto|done].
Qed.

(** C10.  [begin] and [next] do not touch the contents.  Whatever the
    table and whatever the sequence of [begin] and [next] calls, when the
    calls return the store of nodes, the bucket array, [size()] and the
    capacity are what they were, so that [at] and [contains] answer the
    same for every key: only [curr] and [curr_idx] may differ.  The calls
    do return on a well-formed table when every [next] belongs to a
    traversal opened by [begin]. *)
Theorem cursor_calls_are_pure :
  (∀ ops s s',
     forallb is_cursor_op ops = true → run ops s = Ok tt s' →
     s'.1 = s.1 ∧ data s'.2 = data s.2 ∧
     size s'.2 = size s.2 ∧ get_capacity s'.2 = get_capacity s.2 ∧
     ∀ k, answer (at_ k s') = answer (at_ k s) ∧
          answer (contains k s') = answer (contains k s)) ∧
  (∀ ops (open : bool) h m bs,
     rep h m bs → forallb is_cursor_op ops = true →
     (open = true → ∃ rem, cursor h m bs rem) → well_used open ops = true →
     ∃ m', run ops (h, m) = Ok tt (h, m')).
Proof.
  split.
  - intros ops [h m] [h' m'] Hops Hrun.
    destruct (run_cursor_pure ops _ _ Hops Hrun) as [Hh Hs].
    simpl in Hh, Hs. subst h'. pose proof Hs as (Hd & Hsz & Hc).
    cbn [fst snd]. repeat (split; [done|]). intros k.
    split; [by apply at_same_table|by apply contains_same_table].
  - intros ops open h m bs. apply run_cursor_total.
Qed.

(** ** C9 *)

Lemma well_used_take ops :
  ∀ open n, well_used open ops = true → well_used open (take n ops) = true.
Proof.
  induction ops as [|o ops IH]; intros open [|n]; simpl; try done.
  intros [Hu Hw]%andb_true_iff. rewrite Hu. simpl. by apply IH.
Qed.

Lemma total_cost_take ops :
  ∀ open n, well_used open ops = true →
            total_cost (take n ops) ≤ total_cost ops.
Proof.
  induction ops as [|o ops IH]; intros open [|n]; simpl; try lia.
  - intros Hw. apply (total_cost_nonneg (o :: ops) open Hw).
  - intros [Hu Hw]%andb_true_iff. specialize (IH _ n Hw).
    fold (total_cost (take n ops)) (total_cost ops). lia.
Qed.

Lemma forallb_take {A} (f : A → bool) l n :
  forallb f l = true → forallb f (take n l) = true.
Proof.
  revert n. induction l as [|x l IH]; intros [|n]; simpl; try done.
  intros [Hx Hl]%andb_true_iff. rewrite Hx. simpl. by apply IH.
Qed.

(** C9.  The load factor stays at or below 1.5.  On a table built with
    at least one bucket and used through [insert], [erase], [clear],
    [at], [contains], [begin] and [next] only, [2 * size <= 3 * capacity]
    holds after every call.  One [insert] doubles the capacity at most
    once and the bound holds again afterwards.  A copy has the [size] and
    the capacity of its source, hence its bound. *)
Theorem load_factor_invariant :
  (∀ (h : heap) c curr0 idx0 ops n,
     0 < c → c + total_cost ops < size_bound →
     well_used false ops = true →
     forallb (λ o, negb (is_rehash o)) ops = true →
     ∃ s', run (take n ops) (h, HashMap_new c curr0 idx0) = Ok tt s' ∧
           2 * size s'.2 ≤ 3 * get_capacity s'.2) ∧
  (∀ h m bs k v,
     rep h m bs → fits m → 2 * size m ≤ 3 * get_capacity m →
     ∃ h' m',
       insert k v (h, m) = Ok tt (h', m') ∧
       (get_capacity m' = get_capacity m ∨
        get_capacity m' = 2 * get_capacity m) ∧
       2 * size m' ≤ 3 * get_capacity m') ∧
  (∀ h o bs curr0 idx0,
     rep h o bs →
     ∃ h' m',
       HashMap_copy o curr0 idx0 h = Ok tt (h', m') ∧
       size m' = size o ∧ get_capacity m' = get_capacity o) ∧
  (∀ w t c mt mc bst bsc,
     separate w t c mt mc bst bsc →
     ∃ w' mc',
       assign c t w = Ok tt w' ∧ objects w' !! c = Some mc' ∧
       size mc' = size mt ∧ get_capacity mc' = get_capacity mt).
Proof.
  split; [|split; [|split]].
  - intros h c curr0 idx0 ops n Hc Hcost Hwu Hnr.
    pose proof (total_cost_take ops false n Hwu) as Hle.
    destruct (run_new (take n ops) h c curr0 idx0)
      as (h' & m' & bs' & Hrun & _ & _ & Hlf);
      [done|lia|by apply well_used_take|].
    exists (h', m'). split; [done|]. apply Hlf. by apply forallb_take.
  - intros h m bs k v Hrep Hfits Hlf. unfold size, get_capacity in *.
    pose proof (rep_capacity _ _ _ Hrep) as Hcap.
    destruct (mapping bs k) as [v0|] eqn:Hk.
    + exists h, m. rewrite (insert_present h m bs k v Hrep) by eauto.
      split; [done|]. split; [by left|done].
    + destruct (insert_new h m bs k v Hrep Hfits Hk)
        as (h' & m' & bs' & Hrun & _ & Hsz' & Hcap' & _).
      exists h', m'. split; [done|]. rewrite Hsz', Hcap'.
      case_bool_decide; (split; [|lia]); [by right|by left].
  - intros h o bs curr0 idx0 Hrep.
    destruct (HashMap_copy_spec h o bs curr0 idx0 Hrep)
      as (h' & d' & bs' & _ & Hrun & _).
    cbv zeta in *. eexists h', _. split; [done|]. done.
  - intros w t c mt mc bst bsc Hsep.
    destruct (assign_spec w t c mt mc bst bsc Hsep)
      as (w' & mc' & bsc' & Hrun & Hsep' & Hcap & Hsz & _).
    exists w', mc'. split; [done|].
    destruct Hsep' as (_ & _ & Hc' & _). done.
Qed.

(** ** C6 *)

(** C6.  A copy is deep and independent.  The copy constructor and the
    assignment give a table with the capacity and the (key, value) pairs
    of the source, bucket by bucket, made of nodes the source does not
    own.  From then on a program run on either table leaves the other
    with its fields, its nodes and its answers to [at] and [contains];
    [clear] on the source is the example.  Assigning a table to itself
    changes nothing. *)
Theorem copy_is_deep_and_independent :
  (∀ w t c mt bst curr0 idx0,
     t ≠ c → objects w !! t = Some mt → rep (nodes w) mt bst →
     ∃ w' mc bsc,
       construct_copy c t curr0 idx0 w = Ok tt w' ∧
       separate w' t c mt mc bst bsc ∧
       get_capacity mc = get_capacity mt ∧ size mc = size mt ∧
       kvs <$> bsc = kvs <$> bst) ∧
  (∀ w t c mt mc bst bsc,
     separate w t c mt mc bst bsc →
     ∃ w' mc' bsc',
       assign c t w = Ok tt w' ∧
       separate w' t c mt mc' bst bsc' ∧
       get_capacity mc' = get_capacity mt ∧ size mc' = size mt ∧
       kvs <$> bsc' = kvs <$> bst) ∧
  (∀ w t, assign t t w = Ok tt w) ∧
  (∀ w a b ma mb bsa bsb ops (open : bool) B,
     separate w a b ma mb bsa bsb →
     (open = true → ∃ rem, cursor (nodes w) ma bsa rem) →
     within B ma → B + total_cost ops < size_bound →
     well_used open ops = true →
     ∃ w' ma' bsa',
       call a (run ops) w = Ok tt w' ∧
       separate w' a b ma' mb bsa' bsb ∧
       ∀ k, answer (call b (at_ k) w') = answer (call b (at_ k) w) ∧
            answer (call b (contains k) w')
              = answer (call b (contains k) w)) ∧
  (∀ w t c mt mc bst bsc,
     separate w t c mt mc bst bsc →
     ∃ w' mt',
       call t clear w = Ok tt w' ∧
       objects w' !! t = Some mt' ∧ size mt' = 0 ∧
       objects w' !! c = Some mc ∧ rep (nodes w') mc bsc ∧
       ∀ k, answer (call c (at_ k) w') = answer (call c (at_ k) w)).
Proof.
  split; [|split; [|split; [|split]]].
  - intros w t c mt bst curr0 idx0 Hne Ht Hrt.
    destruct (construct_copy_spec w t c mt bst curr0 idx0 Hne Ht Hrt)
      as (w' & mc & bsc & Hrun & Hsep & Hcap & Hsz & Hkvs & _).
    exists w', mc, bsc. done.
  - intros w t c mt mc bst bsc Hsep. by apply (assign_spec w t c mt mc bst bsc).
  - intros w t. unfold assign. by rewrite decide_True.
  - intros w a b ma mb bsa bsb ops open B Hsep Hcur HB Hcost Hwu.
    destruct (call_run_separate w a b ma mb bsa bsb ops open B Hsep Hcur HB
                Hcost Hwu) as (w' & ma' & bsa' & Hrun & Hsep' & _).
    exists w', ma', bsa'. split; [done|]. split; [done|]. intros k.
    destruct Hsep as (_ & _ & Hb & _ & Hrb & _).
    destruct Hsep' as (_ & _ & Hb' & _ & Hrb' & _).
    rewrite (call_at w' b mb bsb k Hb' Hrb'), (call_at w b mb bsb k Hb Hrb).
    rewrite (call_contains w' b mb bsb k Hb' Hrb'),
      (call_contains w b mb bsb k Hb Hrb).
    done.
  - intros w t c mt mc bst bsc (Hne & Ht & Hc & Hrt & Hrc & Hdisj).
    destruct (clear_spec (nodes w) mt bst Hrt) as (h' & Hrun & Hrt' & _ & Hev).
    cbv zeta in *.
    destruct (rep_evolves_other _ _ _ _ mc bsc Hev Hrc Hdisj) as [Hrc' _].
    set (mt' := mkMap (new_buckets (capacity mt)) 0 (capacity mt)
                  (curr mt) (curr_idx mt)) in *.
    set (w' := mkWorld h' (<[t:=mt']> (objects w))).
    assert (objects w' !! c = Some mc) as Hc'
      by (simpl; by rewrite lookup_insert_ne).
    exists w', mt'. split.
    { unfold call. rewrite Ht, Hrun. done. }
    split; [apply lookup_insert_eq|]. split; [done|].
    split; [done|]. split; [done|]. intros k.
    rewrite (call_at w' c mc bsc k Hc' Hrc'), (call_at w c mc bsc k Hc Hrc).
    done.
Qed.

(** * Further properties *)

(** ** The load factor test *)

(** X1.  The test [load_factor > 1.5] of [insert], taken on doubles,
    decides as the exact comparison: for a capacity from 1 to below
    [2 ^ 52] and a size up to [2 ^ 52], it holds exactly when
    [2 * sz > 3 * capacity]. *)
Theorem load_factor_test_is_exact (s c : Z) :
  0 < c < 2 ^ 52 → 0 ≤ s ≤ 2 ^ 52 →
  load_factor_gt s c = true ↔ 3 * c < 2 * s.
Proof.
  intros Hc Hs. rewrite load_factor_gt_exact by done.
  apply bool_decide_eq_true.
Qed.

(** ** Tables just built *)

(** X2.  [HashMap()] builds a well-formed table of 10 empty buckets,
    whatever the store holds: [size()] is 0, [empty()] is true, no key is
    found by [contains], [at] and [erase] throw, and a traversal ends at
    once. *)
Theorem default_constructor_gives_empty_table (h : heap) curr0 idx0 k :
  let m := HashMap_default curr0 idx0 in
  rep h m (replicate 10 []) ∧
  get_capacity m = 10 ∧ size m = 0 ∧ empty m = true ∧
  contains k (h, m) = Ok false (h, m) ∧
  at_ k (h, m) = Throw (out_of_range "out_of_range") (h, m) ∧
  erase k (h, m) = Throw (out_of_range "Key not found in erase") (h, m) ∧
  traverse 1 (h, m) = Ok [] (h, mkMap (data m) 0 10 None 10).
Proof.
  intros m.
  assert (rep h m (replicate 10 [])) as Hrep by (by apply (rep_new h 10)).
  assert (mapping (replicate 10 []) k = None) as Hk by apply (mapping_empty 10).
  split; [done|]. repeat (split; [done|]).
  split; [by rewrite (contains_spec _ _ _ _ Hrep), Hk|].
  split; [by rewrite (at_spec _ _ _ _ Hrep), Hk|].
  split; [by apply (erase_absent _ _ _ _ Hrep)|].
  reflexivity.
Qed.

(** X3.  [HashMap(0)] is accepted by the constructor, but the table it
    builds has no bucket to index: [insert], [at], [contains] and [erase]
    take [hash % 0], which has no defined behaviour.  The calls that do
    not hash still work: [size], [empty], [clear], a traversal, and
    [rehash(n)], which turns it into the table [HashMap(n)] builds. *)
Theorem zero_capacity_table (h : heap) curr0 idx0 k v n :
  let m := HashMap_new 0 curr0 idx0 in
  insert k v (h, m) = Fault ∧ at_ k (h, m) = Fault ∧
  contains k (h, m) = Fault ∧ erase k (h, m) = Fault ∧
  size m = 0 ∧ empty m = true ∧
  clear (h, m) = Ok tt (h, m) ∧
  traverse 1 (h, m) = Ok [] (h, HashMap_new 0 None 0) ∧
  rehash n (h, m) = Ok tt (h, HashMap_new n curr0 idx0).
Proof. repeat split. Qed.

(** X4.  [empty()] tells that no key is held: on a well-formed table it
    is true exactly when [contains] is false for every key. *)
Theorem empty_iff_no_key h m bs :
  rep h m bs →
  empty m = true ↔ ∀ k, contains k (h, m) = Ok false (h, m).
Proof.
  intros Hrep. split.
  - intros He k. rewrite (contains_spec _ _ _ _ Hrep).
    by rewrite (empty_mapping _ _ _ k Hrep He).
  - intros Hno. unfold empty. apply bool_decide_eq_true.
    rewrite (rep_sz _ _ _ Hrep).
    destruct (mjoin bs) as [|x ns] eqn:Hj; [done|].
    specialize (Hno (key x.2)). rewrite (contains_spec _ _ _ _ Hrep) in Hno.
    destruct (mapping bs (key x.2)) eqn:Hm; [done|].
    apply mapping_None in Hm. exfalso. apply Hm.
    unfold content. rewrite Hj. simpl. by left.
Qed.

(** ** Which nodes a call allocates, frees or writes *)

Lemma payload_set_next (h : heap) l n p l' :
  h !! l = Some n → payload (<[l := set_next n p]> h) l' = payload h l'.
Proof.
  intros Hl. unfold payload. destruct (decide (l' = l)) as [->|Hne].
  - by rewrite lookup_insert_eq, Hl.
  - by rewrite lookup_insert_ne.
Qed.

Lemma rehash_chain_payload new_capacity fuel :
  ∀ (h : heap) d c h' d',
  rehash_chain fuel new_capacity h d c = Ret (h', d') →
  ∀ l, payload h' l = payload h l.
Proof.
  induction fuel as [|fuel IH]; intros h d c h' d' Hrun l; simpl in Hrun;
    [done|].
  destruct c as [l0|]; [|by simplify_eq].
  destruct (h !! l0) as [n|] eqn:Hl0; [|done].
  destruct (umod (hash (key n)) new_capacity) as [i| |]; try done.
  rewrite res_bind_Ret in Hrun.
  destruct (array_get d i) as [hd| |]; try done.
  rewrite res_bind_Ret in Hrun.
  rewrite (IH _ _ _ _ _ Hrun). by apply payload_set_next.
Qed.

Lemma rehash_buckets_payload new_capacity old_data idxs :
  ∀ (h : heap) d h' d',
  rehash_buckets new_capacity old_data idxs h d = Ret (h', d') →
  ∀ l, payload h' l = payload h l.
Proof.
  induction idxs as [|i idxs IH]; intros h d h' d' Hrun l;
    cbn [rehash_buckets] in Hrun; [by simplify_eq|].
  destruct (array_get old_data (Z.of_nat i)) as [c| |]; try done.
  rewrite res_bind_Ret in Hrun.
  destruct (rehash_chain (chain_fuel h) new_capacity h d c)
    as [[h1 d1]| |] eqn:Hc; try done.
  rewrite res_bind_Ret in Hrun.
  rewrite (IH _ _ _ _ Hrun). by eapply rehash_chain_payload.
Qed.

Lemma rehash_payload new_capacity (s s' : state) :
  rehash new_capacity s = Ok tt s' → ∀ l, payload s'.1 l = payload s.1 l.
Proof.
  destruct s as [h m]. unfold rehash.
  destruct (rehash_buckets _ _ _ _ _) as [[h' d']| |] eqn:Hb; try done.
  simpl. intros [= <-] l. simpl. by eapply rehash_buckets_payload.
Qed.

Lemma insert_payload k v (s s' : state) :
  insert k v s = Ok tt s' →
  s' = s ∨
  ∃ l, s.1 !! l = None ∧
       ∀ l', payload s'.1 l' =
               if decide (l' = l) then Some (k, v) else payload s.1 l'.
Proof.
  destruct s as [h m]. unfold insert.
  destruct (probe h m k) as [[[i hd] found]| |]; try done. cbn [of_res].
  destruct found as [x|]; [intros [= <-]; by left|].
  intros Hrun. right. exists (fresh (dom h)).
  split; [apply fresh_heap_None|]. intros l'.
  assert (payload (<[fresh (dom h) := mkNode k v hd]> h) l' =
            if decide (l' = fresh (dom h)) then Some (k, v) else payload h l')
    as Hone.
  { unfold payload. case_decide as Hl; [subst l'; by rewrite lookup_insert_eq|].
    by rewrite lookup_insert_ne. }
  destruct (load_factor_gt _ _).
  - rewrite (rehash_payload _ _ _ Hrun). exact Hone.
  - injection Hrun as <-. exact Hone.
Qed.

Lemma erase_scan_found fuel :
  ∀ (h : heap) prev c k pv l n,
  erase_scan fuel h prev c k = Ret (Some (pv, l, n)) →
  h !! l = Some n ∧ key n = k.
Proof.
  induction fuel as [|fuel IH]; intros h prev c k pv l n Hrun; simpl in Hrun;
    [done|].
  destruct c as [l0|]; [|done].
  destruct (h !! l0) as [n0|] eqn:Hl0; [|done].
  case_decide as Hk; [by simplify_eq|]. by eapply IH.
Qed.

Lemma erase_payload k (s s' : state) v :
  erase k s = Ok v s' →
  ∃ l, payload s.1 l = Some (k, v) ∧
       ∀ l', payload s'.1 l' = if decide (l' = l) then None else payload s.1 l'.
Proof.
  destruct s as [h m]. unfold erase.
  destruct (bucket_index m k) as [i| |]; try done. rewrite res_bind_Ret.
  destruct (array_get (data m) i) as [hd| |]; try done. rewrite res_bind_Ret.
  destruct (erase_scan (chain_fuel h) h None hd k) as [[[[pv l] n]|]| |] eqn:Hs;
    try done.
  rewrite res_bind_Ret.
  destruct (erase_scan_found _ _ _ _ _ _ _ _ Hs) as [Hl Hkey].
  destruct (unlink h (data m) i pv n) as [[h1 d1]| |] eqn:Hu; try done.
  simpl. intros [= <- <-]. exists l. simpl. split.
  { unfold payload. rewrite Hl. simpl. by rewrite Hkey. }
  intros l'. unfold payload. case_decide as Hne; [subst; by rewrite lookup_delete_eq|].
  rewrite lookup_delete_ne by done.
  unfold unlink in Hu. destruct pv as [p|]; [|by simplify_eq].
  destruct (h !! p) as [pn|] eqn:Hp; [|done]. injection Hu as <- <-.
  by apply (payload_set_next h p pn).
Qed.

(** X5.  [rehash] rearranges the nodes and creates none: on a
    well-formed table, with at least one new bucket, it returns, and in
    the whole store the same addresses hold nodes, each with the key and
    the value it had; only [next] fields, the bucket array and [capacity]
    are written.  The cursor fields are kept as they were. *)
Theorem rehash_creates_no_node h m bs new_capacity :
  rep h m bs → 0 < new_capacity < size_t_mod →
  ∃ h' m',
    rehash new_capacity (h, m) = Ok tt (h', m') ∧
    (∀ l, payload h' l = payload h l) ∧
    curr m' = curr m ∧ curr_idx m' = curr_idx m.
Proof.
  intros Hrep Hn.
  destruct (rehash_spec h m bs new_capacity Hrep Hn)
    as (h' & d' & bs' & Hrun & _).
  eexists h', _. split; [exact Hrun|]. split; [|done].
  apply (rehash_payload _ _ _ Hrun).
Qed.

(** X6.  [insert] of a key not held creates exactly one node: it
    returns, one address that was free now holds the new key and value,
    and every other address holds what it held, key and value, also
    when the insert rehashes. *)
Theorem insert_creates_one_node h m bs k v :
  rep h m bs → fits m → contains k (h, m) = Ok false (h, m) →
  ∃ l h' m',
    h !! l = None ∧
    insert k v (h, m) = Ok tt (h', m') ∧
    ∀ l', payload h' l' =
            if decide (l' = l) then Some (k, v) else payload h l'.
Proof.
  intros Hrep Hfits Hc.
  rewrite (contains_spec _ _ _ _ Hrep) in Hc.
  destruct (mapping bs k) eqn:Hk; [done|].
  destruct (insert_absent h m bs k v Hrep Hk Hfits)
    as (h' & m' & bs' & Hrun & _ & _ & Hsz & _).
  destruct (insert_payload _ _ _ _ Hrun) as [Heq|(l & Hl & Hpay)].
  { injection Heq as _ ->. lia. }
  by exists l, h', m'.
Qed.

(** X7.  [erase] of a key held frees exactly one node, the one that
    held the key and the value returned; it creates no node, and every
    other address holds the key and the value it held. *)
Theorem erase_frees_one_node h m bs k v :
  rep h m bs → at_ k (h, m) = Ok v (h, m) →
  ∃ l h' m',
    payload h l = Some (k, v) ∧
    erase k (h, m) = Ok v (h', m') ∧
    ∀ l', payload h' l' = if decide (l' = l) then None else payload h l'.
Proof.
  intros Hrep Hat.
  rewrite (at_spec _ _ _ _ Hrep) in Hat.
  destruct (mapping bs k) as [v0|] eqn:Hk; [|done]. injection Hat as ->.
  destruct (erase_present h m bs k v Hrep Hk) as (h' & m' & bs' & Hrun & _).
  destruct (erase_payload _ _ _ _ Hrun) as (l & Hl & Hpay).
  by exists l, h', m'.
Qed.

(** [clear] on the store: the nodes of the table go, the rest stays. *)
Lemma clear_store h m bs :
  rep h m bs →
  ∃ h',
    clear (h, m) = Ok tt (h', mkMap (new_buckets (capacity m)) 0 (capacity m)
                                (curr m) (curr_idx m)) ∧
    ∀ l, h' !! l = if decide (l ∈ locs bs) then None else h !! l.
Proof.
  intros Hrep.
  destruct (clear_spec h m bs Hrep) as (h1 & Hrun1 & _). cbv zeta in Hrun1.
  pose proof (rep_length _ _ _ Hrep) as Hlen.
  pose proof (Forall2_length _ _ _ (rep_chains _ _ _ Hrep)) as Hlen2.
  destruct (clear_buckets_spec bs 0%nat h (data m))
    as (h' & d' & Hrun & _ & _ & _ & Hgone & Hsame).
  { apply (rep_chains _ _ _ Hrep). }
  { apply (rep_nodup _ _ _ Hrep). }
  assert (h1 = h') as ->.
  { revert Hrun1. unfold clear. rewrite <-Hlen at 1.
    rewrite Nat2Z.id, Hlen2, Hrun. simpl. by intros [= <- _]. }
  exists h'. split; [done|].
  intros l. case_decide; [by apply Hgone|by apply Hsame].
Qed.

(** X8.  [clear] frees the nodes of the table and nothing else: it
    returns, the addresses of its nodes are free afterwards, and every
    other address holds the node it held, unchanged. *)
Theorem clear_frees_own_nodes_only h m bs :
  rep h m bs →
  ∃ h' m',
    clear (h, m) = Ok tt (h', m') ∧
    ∀ l, h' !! l = if decide (l ∈ locs bs) then None else h !! l.
Proof.
  intros Hrep. destruct (clear_store h m bs Hrep) as (h' & Hrun & Hst).
  by eexists h', _.
Qed.

(** X9.  The destructor frees every node of the table and ends the
    object; the rest of the store is as it was, and any other
    well-formed table that shares no node with it is still there, still
    well formed, with the same answers. *)
Theorem destructor_frees_the_table w a ma bsa :
  objects w !! a = Some ma → rep (nodes w) ma bsa →
  ∃ w',
    destructor a w = Ok tt w' ∧
    objects w' !! a = None ∧
    (∀ l, nodes w' !! l =
            if decide (l ∈ locs bsa) then None else nodes w !! l) ∧
    ∀ b mb bsb,
      b ≠ a → objects w !! b = Some mb → rep (nodes w) mb bsb →
      (∀ l, l ∈ locs bsa → l ∉ locs bsb) →
      objects w' !! b = Some mb ∧ rep (nodes w') mb bsb ∧
      ∀ k, answer (call b (at_ k) w') = answer (call b (at_ k) w) ∧
           answer (call b (contains k) w') = answer (call b (contains k) w).
Proof.
  intros Ha Hrep.
  destruct (clear_store _ _ _ Hrep) as (h' & Hrun & Hst).
  eexists (mkWorld h' _). split.
  { unfold destructor, call. rewrite Ha, Hrun. done. }
  simpl. split; [apply lookup_delete_eq|]. split; [done|].
  intros b mb bsb Hne Hb Hrb Hsep.
  assert (objects (mkWorld h' (delete a (<[a:=mkMap (new_buckets (capacity ma)) 0
             (capacity ma) (curr ma) (curr_idx ma)]> (objects w)))) !! b
          = Some mb) as Hb'.
  { simpl. by rewrite lookup_delete_ne, lookup_insert_ne. }
  assert (rep h' mb bsb) as Hrb'.
  { apply (rep_frame (nodes w)); [done|]. intros l Hl. rewrite Hst.
    rewrite decide_False; [done|]. intros Hla. by apply (Hsep l). }
  split; [exact Hb'|]. split; [done|]. intros k.
  rewrite (call_at _ _ _ _ _ Hb' Hrb'), (call_at _ _ _ _ _ Hb Hrb).
  by rewrite (call_contains _ _ _ _ _ Hb' Hrb'), (call_contains _ _ _ _ _ Hb Hrb).
Qed.

(** ** Traversals *)

Lemma drain_spec h bs rem :
  ∀ m fuel, rep h m bs → cursor h m bs rem → (length rem < fuel)%nat →
  ∃ m', drain fuel (h, m) = Ok (kvs rem) (h, m') ∧
        same_table m m' ∧ curr m' = None.
Proof.
  induction rem as [|x rem IH]; intros m [|fuel] Hrep Hcur Hfuel;
    simpl in Hfuel; try lia.
  - pose proof (next_spec h m bs [] Hrep Hcur) as Hnext. cbv iota in Hnext.
    exists m. cbn [drain]. rewrite Hnext. split; [done|].
    split; [apply same_table_refl|].
    destruct Hcur as [[_ Hc]|(i & r & _ & _ & Hr & _ & Hnil)]; [done|].
    symmetry in Hnil. apply app_nil in Hnil as [-> _]. done.
  - destruct (next_spec h m bs (x :: rem) Hrep Hcur)
      as (c & idx & Hnext & Hcur').
    cbv zeta in *.
    set (m1 := mkMap (data m) (sz m) (capacity m) c idx) in *.
    assert (same_table m m1) as Hsame by (by repeat split).
    destruct (IH m1 fuel) as (m' & Hrun & Hsame' & Hnone);
      [by eapply rep_same_table|done|lia|].
    exists m'. split; [|split; [by eapply same_table_trans|done]].
    cbn [drain]. rewrite Hnext, Hrun. done.
Qed.

(** The usage loop sees the pairs of the table in bucket order, wherever
    the cursor was left. *)
Lemma traverse_spec h m bs fuel :
  rep h m bs → (length (content bs) < fuel)%nat →
  ∃ m', traverse fuel (h, m) = Ok (content bs) (h, m') ∧
        same_table m m' ∧ curr m' = None.
Proof.
  intros Hrep Hfuel.
  destruct (begin_spec h m bs Hrep) as (c & idx & Hbegin & Hcur & _).
  cbv zeta in *.
  set (m1 := mkMap (data m) (sz m) (capacity m) c idx) in *.
  assert (same_table m m1) as Hsame by (by repeat split).
  destruct (drain_spec h bs (mjoin bs) m1 fuel) as (m' & Hrun & Hsame' & Hnone).
  - by eapply rep_same_table.
  - done.
  - unfold content, kvs in Hfuel. by rewrite length_fmap in Hfuel.
  - exists m'. split; [|split; [by eapply same_table_trans|done]].
    unfold traverse. by rewrite Hbegin.
Qed.

Lemma traverse_fuel h m bs fuel :
  rep h m bs → (Z.to_nat (size m) < fuel)%nat →
  (length (content bs) < fuel)%nat.
Proof.
  intros Hrep. unfold size. rewrite (sz_content _ _ _ Hrep), Nat2Z.id. done.
Qed.

(** X10.  [begin] restarts a traversal wherever the cursor was left, by
    an earlier traversal or by the constructor: the usage loop of [next]
    returns after [size()] pairs, and the pairs it sees and their order
    do not depend on the cursor fields it started from.  It writes the
    cursor fields only and leaves [curr] null. *)
Theorem traversal_restarts h m bs fuel :
  rep h m bs → (Z.to_nat (size m) < fuel)%nat →
  ∃ seen,
    Z.of_nat (length seen) = size m ∧
    ∀ c idx, ∃ m',
      traverse fuel (h, mkMap (data m) (sz m) (capacity m) c idx)
        = Ok seen (h, m') ∧
      same_table m m' ∧ curr m' = None.
Proof.
  intros Hrep Hfuel. exists (content bs). split.
  { symmetry. apply (sz_content _ _ _ Hrep). }
  intros c idx.
  set (m1 := mkMap (data m) (sz m) (capacity m) c idx).
  assert (same_table m m1) as Hsame by (by repeat split).
  assert (rep h m1 bs) as Hrep1 by (by eapply rep_same_table).
  destruct (traverse_spec h m1 bs fuel Hrep1) as (m' & Hrun & Hsame' & Hnone).
  { by eapply traverse_fuel. }
  exists m'. split; [done|]. split; [by eapply same_table_trans|done].
Qed.

(** X11.  A copy is traversed in the order of its source: after the
    copy constructor, the usage loop of [next] sees the same pairs in the
    same order on the copy and on the source. *)
Theorem copy_keeps_traversal_order h o bs curr0 idx0 fuel :
  rep h o bs → (Z.to_nat (size o) < fuel)%nat →
  ∃ h' m' seen o' m'',
    HashMap_copy o curr0 idx0 h = Ok tt (h', m') ∧
    traverse fuel (h', o) = Ok seen (h', o') ∧
    traverse fuel (h', m') = Ok seen (h', m'').
Proof.
  intros Hrep Hfuel.
  destruct (HashMap_copy_spec h o bs curr0 idx0 Hrep)
    as (h' & d' & bs' & _ & Hrun & Hrc & Hro & Hkvs & _).
  cbv zeta in *.
  assert (content bs' = content bs) as Hcont
    by (unfold content; by rewrite !kvs_join, Hkvs).
  destruct (traverse_spec h' o bs fuel Hro) as (o' & Hto & _).
  { by eapply traverse_fuel. }
  destruct (traverse_spec h' _ bs' fuel Hrc) as (m'' & Htm & _).
  { rewrite Hcont. by eapply traverse_fuel. }
  eexists h', _, (content bs), o', m''.
  split; [exact Hrun|]. split; [done|]. by rewrite <-Hcont.
Qed.

(** ** A traversal and the calls that change the table *)

Lemma nodup_key_inj (ns : list (loc * ChainNode)) x y :
  NoDup (kvs ns).*1 → x ∈ ns → y ∈ ns → key x.2 = key y.2 → x = y.
Proof.
  assert (∀ (ns : list (loc * ChainNode)) z,
            z ∈ ns → key z.2 ∈ (kvs ns).*1) as Hin.
  { intros ns' z Hz. apply list_elem_of_fmap. exists (key z.2, value z.2).
    split; [done|]. apply list_elem_of_fmap. by exists z. }
  induction ns as [|z ns IH]; intros Hnd Hx Hy Hk;
    [by apply elem_of_nil in Hx|].
  simpl in Hnd. apply NoDup_cons in Hnd as [Hz Hnd].
  apply elem_of_cons in Hx as [->|Hx]; apply elem_of_cons in Hy as [->|Hy].
  - done.
  - exfalso. apply Hz. rewrite Hk. by apply Hin.
  - exfalso. apply Hz. rewrite <-Hk. by apply Hin.
  - by apply IH.
Qed.

Lemma rep_node h m bs x : rep h m bs → x ∈ mjoin bs → h !! x.1 = Some x.2.
Proof.
  intros Hrep Hx.
  apply elem_of_concat_lookup in Hx as (j & b & Hj & Hx).
  destruct (Forall2_lookup_r _ _ _ _ _ (rep_chains _ _ _ Hrep) Hj)
    as (q & _ & Hq).
  apply (chain_lookup _ _ _ _ Hq Hx).
Qed.

Lemma rep_mapping_node h m bs x :
  rep h m bs → x ∈ mjoin bs → mapping bs (key x.2) = Some (value x.2).
Proof.
  intros Hrep Hx. apply assoc_Some; [apply (rep_keys _ _ _ Hrep)|].
  unfold content, kvs. apply list_elem_of_fmap. by exists x.
Qed.

(** [erase] of the key of a node of the table frees that node. *)
Lemma erase_node h m bs x :
  rep h m bs → x ∈ mjoin bs →
  ∃ h' m',
    erase (key x.2) (h, m) = Ok (value x.2) (h', m') ∧
    h' !! x.1 = None ∧ curr m' = curr m.
Proof.
  intros Hrep Hx.
  destruct (erase_present h m bs _ _ Hrep (rep_mapping_node _ _ _ _ Hrep Hx))
    as (h' & m' & bs' & Hrun & _ & _ & _ & _ & Hcurr & _).
  exists h', m'. split; [done|]. split; [|done].
  destruct (erase_run h m bs (key x.2) Hrep)
    as (p & b & _ & _ & Hb & _ & _ & _ & Heq).
  rewrite Heq in Hrun.
  destruct (erase_find None (key x.2) b) as [[[pv l0] n0]|] eqn:Hfind;
    [|done].
  destruct (erase_find_Some _ _ _ _ _ _ Hfind) as [Hkey Hshape].
  assert ((l0, n0) ∈ b) as Hin.
  { destruct Hshape as [[_ [post ->]]|(pre & pl & pn & post & _ & ->)];
      set_solver. }
  assert ((l0, n0) = x) as <-.
  { apply (nodup_key_inj (mjoin bs)); [apply (rep_keys _ _ _ Hrep)| |done|done].
    apply elem_of_concat_lookup. eauto. }
  destruct (unlink h (data m) _ pv n0) as [[h1 d1]| |]; try done.
  simpl in Hrun. injection Hrun as <- _. simpl. apply lookup_delete_eq.
Qed.

(** X12.  Changing the table under an open traversal invalidates the
    cursor: when [curr] points to a node of the table, [erase] of that
    node's key, and [clear], return and leave [curr] pointing to the
    freed node, so that the next call of [next] reads freed memory. *)
Theorem mutation_under_cursor_invalidates h m bs l n :
  rep h m bs → l ∈ locs bs → curr m = Some l → h !! l = Some n →
  (∃ s', erase (key n) (h, m) = Ok (value n) s' ∧ next_ s' = Fault) ∧
  (∃ s', clear (h, m) = Ok tt s' ∧ next_ s' = Fault).
Proof.
  intros Hrep Hl Hcurr Hn. split.
  - unfold locs in Hl. apply list_elem_of_fmap in Hl as [x [-> Hx]].
    pose proof (rep_node _ _ _ _ Hrep Hx) as Hx2.
    assert (x.2 = n) as <- by congruence.
    destruct (erase_node h m bs x Hrep Hx) as (h' & m' & Hrun & Hfree & Hc).
    exists (h', m'). split; [done|].
    unfold next_. by rewrite Hc, Hcurr, Hfree.
  - destruct (clear_store h m bs Hrep) as (h' & Hrun & Hst).
    eexists. split; [exact Hrun|].
    unfold next_. cbn [curr]. rewrite Hcurr, Hst. by rewrite decide_True.
Qed.

(** The loop of [next] ends wherever [curr_idx] points. *)
Lemma advance_total (d : list (option loc)) cap :
  Z.of_nat (length d) = cap → cap < size_t_mod →
  ∀ (n fuel : nat) c idx,
  (c = None → (Z.to_nat (cap - wrap (idx + 1)) ≤ n)%nat) → (n < fuel)%nat →
  ∃ r, advance fuel d cap c idx = Ret r.
Proof.
  intros Hlen Hcap. induction n as [|n IH]; intros [|fuel] c idx Hn Hfuel;
    try lia; cbn [advance].
  - destruct c as [l|]; [by eexists|].
    specialize (Hn eq_refl). rewrite decide_False by lia. by eexists.
  - destruct c as [l|]; [by eexists|].
    specialize (Hn eq_refl). set (j := wrap (idx + 1)) in *.
    assert (0 ≤ j < size_t_mod) as Hj by (apply Z.mod_pos_bound; done).
    case_decide as Hlt; [|by eexists].
    destruct (d !! Z.to_nat j) as [c'|] eqn:Hd.
    2: { apply lookup_ge_None in Hd. lia. }
    rewrite (array_get_Some _ _ c') by (lia || done).
    rewrite res_bind_Ret. apply IH; [|lia].
    intros _. rewrite wrap_small by lia. lia.
Qed.

(** [next] returns whenever the cursor is null or at an allocated node. *)
Lemma next_total h m bs :
  rep h m bs → (∀ l, curr m = Some l → is_Some (h !! l)) →
  ∃ r m', next_ (h, m) = Ok r (h, m').
Proof.
  intros Hrep Hlive. unfold next_.
  destruct (curr m) as [l|] eqn:Hc; [|by eexists _, _].
  destruct (Hlive l eq_refl) as [n ->].
  pose proof (rep_capacity _ _ _ Hrep) as Hcap.
  destruct (advance_total (data m) (capacity m) (rep_length _ _ _ Hrep)
              ltac:(lia) (Z.to_nat (capacity m)) (S (S (Z.to_nat (capacity m))))
              (next n) (curr_idx m)) as [[c idx] ->]; [|lia|].
  - intros _. assert (0 ≤ wrap (curr_idx m + 1)) by (apply Z.mod_pos_bound; done).
    lia.
  - by eexists _, _.
Qed.

(** X13.  [insert] leaves an open traversal usable: whether the key is
    new or not, and whether the insert rehashes or not, the node under the
    cursor is still allocated afterwards and the next call of [next]
    returns.  (What the rest of the traversal yields is another
    matter: the cursor fields are not adjusted.) *)
Theorem insert_keeps_cursor_usable h m bs rem k v :
  rep h m bs → fits m → cursor h m bs rem →
  ∃ s' r s'', insert k v (h, m) = Ok tt s' ∧ next_ s' = Ok r s''.
Proof.
  intros Hrep Hfits Hcur.
  assert (∀ l, curr m = Some l → is_Some (h !! l)) as Hlive.
  { intros l Hl.
    destruct Hcur as [[_ Hc]|(i & r & _ & _ & Hr & Hch & _)]; [congruence|].
    rewrite Hl in Hch. inversion Hch; simplify_eq. eauto. }
  destruct (mapping bs k) as [v0|] eqn:Hk.
  - destruct (next_total h m bs Hrep Hlive) as (r & m' & Hnext).
    exists (h, m), r, (h, m'). split; [|done].
    apply (insert_present h m bs); [done|by rewrite Hk].
  - destruct (insert_absent h m bs k v Hrep Hk Hfits)
      as (h' & m' & bs' & Hrun & Hrep' & _ & _ & _ & Hc & _).
    destruct (insert_payload _ _ _ _ Hrun) as [Heq|(l0 & Hl0 & Hpay)].
    + injection Heq as -> ->.
      destruct (next_total h m bs Hrep Hlive) as (r & m'' & Hnext).
      by exists (h, m), r, (h, m'').
    + destruct (next_total h' m' bs' Hrep') as (r & m'' & Hnext).
      { intros l Hl. rewrite Hc in Hl. destruct (Hlive l Hl) as [n Hn].
        specialize (Hpay l). simpl in Hpay, Hl0.
        rewrite decide_False in Hpay by (intros ->; congruence).
        unfold payload in Hpay. rewrite Hn in Hpay.
        destruct (h' !! l); [eauto|done]. }
      by exists (h', m'), r, (h', m'').
Qed.

(** ** [rehash] to no bucket *)

Lemma rehash_buckets_zero old_data rest :
  ∀ (i0 : nat) (h : heap) d,
  Forall2 (chain h) (drop i0 old_data) rest →
  rehash_buckets 0 old_data (seq i0 (length rest)) h d =
    if decide (mjoin rest = []) then Ret (h, d) else Undef.
Proof.
  induction rest as [|b rest IH]; intros i0 h d Hold; [done|].
  inversion Hold as [|p ? tl ? Hb Hrest Hdrop]; simplify_eq.
  symmetry in Hdrop. apply drop_cons_inv in Hdrop as [Hp ->].
  cbn [length seq rehash_buckets].
  rewrite (array_get_nat _ _ p Hp), res_bind_Ret.
  inversion Hb as [|l n ns Hl Hns]; simplify_eq.
  - unfold chain_fuel. cbn [rehash_chain]. rewrite res_bind_Ret.
    rewrite (IH (S i0) h d Hrest). done.
  - unfold chain_fuel. cbn [rehash_chain]. rewrite Hl.
    unfold umod. rewrite decide_True by done. done.
Qed.

(** X14.  [rehash(0)] is accepted on an empty table, which it leaves
    with no bucket at all (the table of [HashMap(0)]); on a table that
    holds a key it takes [hash % 0] for the first node it moves, which
    has no defined behaviour. *)
Theorem rehash_to_no_bucket h m bs :
  rep h m bs →
  rehash 0 (h, m) =
    if empty m then Ok tt (h, HashMap_new 0 (curr m) (curr_idx m))
    else Fault.
Proof.
  intros Hrep.
  pose proof (rep_length _ _ _ Hrep) as Hlen.
  pose proof (Forall2_length _ _ _ (rep_chains _ _ _ Hrep)) as Hlen2.
  unfold rehash. rewrite <-Hlen at 1. rewrite Nat2Z.id, Hlen2.
  rewrite (rehash_buckets_zero (data m) bs 0 h)
    by apply (rep_chains _ _ _ Hrep).
  unfold empty. rewrite (rep_sz _ _ _ Hrep).
  destruct (mjoin bs) as [|x ns] eqn:Hj.
  - rewrite decide_True by done. done.
  - rewrite decide_False by done. done.
Qed.

(** ** How calls compose *)

(** X15.  [insert] of a key not held, then [erase] of that key, gives
    back the value inserted and the table as it was for its user:
    [size()] and the answers of [at] and [contains] for every key are
    those from before.  The capacity is not given back: it is the old
    one, or twice that when the insert rehashed. *)
Theorem insert_then_erase h m bs k v :
  rep h m bs → fits m → contains k (h, m) = Ok false (h, m) →
  ∃ s1 s2,
    insert k v (h, m) = Ok tt s1 ∧ erase k s1 = Ok v s2 ∧
    size s2.2 = size m ∧
    (get_capacity s2.2 = get_capacity m ∨
     get_capacity s2.2 = 2 * get_capacity m) ∧
    ∀ k', answer (at_ k' s2) = answer (at_ k' (h, m)) ∧
          answer (contains k' s2) = answer (contains k' (h, m)).
Proof.
  intros Hrep Hfits Hc.
  rewrite (contains_spec _ _ _ _ Hrep) in Hc.
  destruct (mapping bs k) eqn:Hk; [done|].
  destruct (insert_absent h m bs k v Hrep Hk Hfits)
    as (h1 & m1 & bs1 & Hrun1 & Hrep1 & Hcont1 & Hsz1 & Hcap1 & _).
  pose proof (mapping_insert bs bs1 k v (rep_keys _ _ _ Hrep1) Hcont1) as Hm1.
  assert (mapping bs1 k = Some v) as Hk1
    by (rewrite Hm1; by rewrite decide_True).
  destruct (erase_present h1 m1 bs1 k v Hrep1 Hk1)
    as (h2 & m2 & bs2 & Hrun2 & Hrep2 & Hcont2 & Hsz2 & Hcap2 & _).
  pose proof (mapping_erase bs1 bs2 k v (rep_keys _ _ _ Hrep1) Hcont2) as Hm2.
  exists (h1, m1), (h2, m2). split; [done|]. split; [done|].
  split; [unfold size; simpl; lia|]. split.
  { unfold get_capacity. simpl. rewrite Hcap2, Hcap1. case_bool_decide; auto. }
  intros k'.
  assert (mapping bs2 k' = mapping bs k') as Heq.
  { rewrite Hm2, Hm1. destruct (decide (k' = k)) as [->|Hne]; [by rewrite Hk|done]. }
  rewrite (at_spec _ _ _ _ Hrep2), (at_spec _ _ _ _ Hrep).
  rewrite (contains_spec _ _ _ _ Hrep2), (contains_spec _ _ _ _ Hrep), Heq.
  by destruct (mapping bs k').
Qed.

(** X16.  [erase] then [insert] replaces a value, which [insert] alone
    does not: for a key held, after [erase(k)] and [insert(k, v)] the
    table maps [k] to [v], [size()] is what it was and every other key
    answers as before. *)
Theorem erase_then_insert_replaces h m bs k v0 v :
  rep h m bs → fits m → at_ k (h, m) = Ok v0 (h, m) →
  ∃ s1 s2,
    erase k (h, m) = Ok v0 s1 ∧ insert k v s1 = Ok tt s2 ∧
    at_ k s2 = Ok v s2 ∧ contains k s2 = Ok true s2 ∧
    size s2.2 = size m ∧
    ∀ k', k' ≠ k →
      answer (at_ k' s2) = answer (at_ k' (h, m)) ∧
      answer (contains k' s2) = answer (contains k' (h, m)).
Proof.
  intros Hrep [Hfs Hfc] Hat.
  rewrite (at_spec _ _ _ _ Hrep) in Hat.
  destruct (mapping bs k) as [v1|] eqn:Hk; [|done]. injection Hat as ->.
  destruct (erase_present h m bs k v0 Hrep Hk)
    as (h1 & m1 & bs1 & Hrun1 & Hrep1 & Hcont1 & Hsz1 & Hcap1 & _).
  pose proof (mapping_erase bs bs1 k v0 (rep_keys _ _ _ Hrep) Hcont1) as Hm1.
  assert (mapping bs1 k = None) as Hk1
    by (rewrite Hm1; by rewrite decide_True).
  destruct (insert_absent h1 m1 bs1 k v Hrep1 Hk1)
    as (h2 & m2 & bs2 & Hrun2 & Hrep2 & Hcont2 & Hsz2 & _).
  { split; lia. }
  pose proof (mapping_insert bs1 bs2 k v (rep_keys _ _ _ Hrep2) Hcont2) as Hm2.
  exists (h1, m1), (h2, m2). split; [done|]. split; [done|].
  assert (mapping bs2 k = Some v) as Hk2
    by (rewrite Hm2; by rewrite decide_True).
  split; [by rewrite (at_spec _ _ _ _ Hrep2), Hk2|].
  split; [by rewrite (contains_spec _ _ _ _ Hrep2), Hk2|].
  split; [unfold size; simpl; lia|].
  intros k' Hne.
  assert (mapping bs2 k' = mapping bs k') as Heq
    by (rewrite Hm2, Hm1; by rewrite !decide_False).
  rewrite (at_spec _ _ _ _ Hrep2), (at_spec _ _ _ _ Hrep).
  rewrite (contains_spec _ _ _ _ Hrep2), (contains_spec _ _ _ _ Hrep), Heq.
  by destruct (mapping bs k').
Qed.

(** The capacity along a program that does not call [rehash]. *)
Lemma run_capacity ops :
  ∀ (open : bool) h m bs B,
  rep h m bs → (open = true → ∃ rem, cursor h m bs rem) →
  within B m → B + total_cost ops < size_bound →
  well_used open ops = true →
  forallb (λ o, negb (is_rehash o)) ops = true →
  2 * sz m ≤ 3 * capacity m →
  ∃ h' m' (j : nat),
    run ops (h, m) = Ok tt (h', m') ∧
    capacity m' = capacity m * 2 ^ Z.of_nat j.
Proof.
  induction ops as [|o ops IH];
    intros open h m bs B Hrep Hcur HB Hcost Hwu Hnr Hlf.
  { exists h, m, 0%nat. simpl. split; [done|lia]. }
  simpl in Hwu, Hcost. apply andb_true_iff in Hwu as [Hu Hw].
  cbn [forallb] in Hnr. apply andb_true_iff in Hnr as [Ho Hnr].
  apply negb_true_iff in Ho.
  pose proof (total_cost_nonneg _ _ Hw) as Hnn.
  pose proof (cost_nonneg _ _ Hu) as Hcn.
  destruct (exec_spec o open h m bs B Hrep Hcur HB)
    as (h1 & m1 & bs1 & Hrun1 & Hrep1 & Hcur1 & HB1 & _ & _ & Hlf1);
    [lia|done|].
  destruct (Hlf1 Ho Hlf) as [Hlf' Hcap1].
  destruct (IH (opens open o) h1 m1 bs1 (B + cost o) Hrep1 Hcur1 HB1)
    as (h' & m' & j & Hrun & Hcap); [lia|done|done|done|].
  destruct Hcap1 as [Hsame|Hdbl].
  - exists h', m', j. split; [|by rewrite Hcap, Hsame].
    cbn [run]. destruct Hrun1 as [->|[e ->]]; done.
  - exists h', m', (S j). split.
    + cbn [run]. destruct Hrun1 as [->|[e ->]]; done.
    + rewrite Hcap, Hdbl, Nat2Z.inj_succ, Z.pow_succ_r by lia. lia.
Qed.

(** X17.  The capacity only ever doubles.  On a table built with [c]
    buckets and used without calling [rehash], the capacity after any
    sequence of calls is [c] times a power of two: [erase] and [clear]
    never give buckets back. *)
Theorem capacity_only_doubles (h : heap) c curr0 idx0 ops :
  0 < c → c + total_cost ops < size_bound →
  well_used false ops = true →
  forallb (λ o, negb (is_rehash o)) ops = true →
  ∃ s' (j : nat),
    run ops (h, HashMap_new c curr0 idx0) = Ok tt s' ∧
    get_capacity s'.2 = c * 2 ^ Z.of_nat j.
Proof.
  intros Hc Hcost Hwu Hnr.
  pose proof (total_cost_nonneg _ _ Hwu) as Hnn.
  pose proof size_bound_lt as Hsb.
  assert (rep h (HashMap_new c curr0 idx0) (replicate (Z.to_nat c) []))
    as Hrep by (apply rep_new; lia).
  destruct (run_capacity ops false h _ _ c Hrep)
    as (h' & m' & j & Hrun & Hcap);
    [done|by apply within_new|done|done|done|simpl; lia|].
  by exists (h', m'), j.
Qed.

(** ** What a copy allocates *)

(** The inner loop of a copy allocates one node for each node it reads. *)
Lemma copy_chain_size src :
  ∀ fuel (h : heap) d ptr current h' d',
  chain h current src → slot_null h d ptr →
  (∀ l0, ptr = NextSlot l0 → l0 ∉ src.*1) →
  copy_chain fuel h d ptr current = Ret (h', d') →
  base.size h' = (base.size h + length src)%nat.
Proof.
  induction src as [|[c n] src IH];
    intros fuel h d ptr current h' d' Hc Hnull Hptr Hrun;
    inversion Hc as [|? ? ? Hcn Hcs]; simplify_eq;
    destruct fuel as [|fuel]; try done.
  { simpl in Hrun. injection Hrun as <- _. simpl. lia. }
  cbn [copy_chain] in Hrun. rewrite Hcn in Hrun. cbv zeta in Hrun.
  set (l := fresh (dom h)) in *.
  assert (h !! l = None) as Hl by apply fresh_heap_None.
  set (nl := mkNode (key n) (value n) None) in *.
  set (h1 := <[l := nl]> h) in *.
  assert (∀ x, x ∈ src.*1 → is_Some (h !! x)) as Hlive.
  { intros x Hx. apply elem_of_dom. by eapply chain_dom. }
  assert (∃ h2 d2, store_slot h1 d ptr (Some l) = Ret (h2, d2) ∧
            base.size h2 = S (base.size h) ∧ h2 !! l = Some nl ∧
            ∀ x, x ∈ src.*1 → h2 !! x = h !! x)
    as (h2 & d2 & Hst & Hsize & Hl2 & Hsame).
  { destruct ptr as [i|l0]; simpl in *.
    - destruct Hnull as [Hi Hd]. exists h1, (array_set d i (Some l)).
      rewrite (array_get_Some _ _ None) by done.
      split; [done|]. split; [by apply map_size_insert_None|].
      split; [apply lookup_insert_eq|].
      intros x Hx. apply lookup_insert_ne. intros <-.
      destruct (Hlive _ Hx). congruence.
    - destruct Hnull as (n0 & Hn0 & Hnext).
      assert (l ≠ l0) as Hne by (intros ->; congruence).
      exists (<[l0 := set_next n0 (Some l)]> h1), d.
      unfold h1 at 1. rewrite lookup_insert_ne, Hn0 by done.
      split; [done|]. split.
      { rewrite map_size_insert_Some
          by (unfold h1; rewrite lookup_insert_ne by done; eauto).
        by apply map_size_insert_None. }
      split; [rewrite lookup_insert_ne by done; apply lookup_insert_eq|].
      intros x Hx.
      rewrite lookup_insert_ne
        by (intros <-; apply (Hptr l0 eq_refl); simpl; by right).
      apply lookup_insert_ne. intros <-.
      destruct (Hlive _ Hx). congruence. }
  rewrite Hst, res_bind_Ret in Hrun.
  rewrite (IH fuel h2 d2 (NextSlot l) (next n) h' d'); [simpl; lia| | | |done].
  - apply (chain_frame h); done.
  - by exists nl.
  - intros ? [= <-] Hin. destruct (Hlive _ Hin). congruence.
Qed.

(** The outer loop allocates one node for each node of the source. *)
Lemma copy_buckets_size other_data rest :
  ∀ i0 (h : heap) d bsn h' d',
  Forall2 (chain h) (drop i0 other_data) rest →
  NoDup (locs rest) →
  length d = length other_data →
  Forall2 (chain h) d bsn →
  (∀ j, (i0 ≤ j < length d)%nat → d !! j = Some None) →
  copy_buckets other_data (seq i0 (length rest)) h d = Ret (h', d') →
  base.size h' = (base.size h + length (mjoin rest))%nat.
Proof.
  induction rest as [|r rest IH];
    intros i0 h d bsn h' d' Hold Hnd Hlen Hbs Hnull Hrun.
  { simpl in Hrun. injection Hrun as <- _. simpl. lia. }
  inversion Hold as [|p ? tl ? Hr Hrest Hdrop]; simplify_eq.
  symmetry in Hdrop. apply drop_cons_inv in Hdrop as [Hp ->].
  rewrite locs_cons in Hnd. apply NoDup_app in Hnd as (Hndr & _ & Hndrest).
  assert (i0 < length d)%nat as Hi0
    by (rewrite Hlen; by eapply lookup_lt_Some).
  assert (slot_null h d (BucketSlot (Z.of_nat i0))) as Hslot.
  { simpl. rewrite Nat2Z.id. split; [lia|]. apply Hnull. lia. }
  destruct (copy_chain_spec r (chain_fuel h) h d (BucketSlot (Z.of_nat i0)) p)
    as (h1 & d1 & new & pnew & Hrun1 & Hnew & _ & _ & _ & Hss);
    [done|by eapply chain_fuel_enough|done|done|].
  pose proof (copy_chain_size r _ h d _ p h1 d1 Hr Hslot ltac:(done) Hrun1)
    as Hsize1.
  simpl in Hss. destruct Hss as [-> Hframe1].
  unfold array_set in *. rewrite Nat2Z.id in *.
  cbn [length seq copy_buckets] in Hrun.
  rewrite (array_get_nat _ _ p Hp), res_bind_Ret, Hrun1, res_bind_Ret in Hrun.
  assert (∀ (ds : list (option loc)) bss, Forall2 (chain h) ds bss →
            Forall2 (chain h1) ds bss) as Hkeep.
  { intros ds bss Hf. apply (chains_frame h); [done|]. intros l Hl.
    apply Hframe1. unfold locs in Hl.
    apply list_elem_of_fmap in Hl as [x [-> Hx]].
    apply elem_of_concat_lookup in Hx as (j & b & Hj & Hx).
    destruct (Forall2_lookup_r _ _ _ _ _ Hf Hj) as (q & _ & Hq).
    rewrite (chain_lookup _ _ _ _ Hq Hx). eauto. }
  rewrite (IH (S i0) h1 (<[i0:=pnew]> d) (<[i0:=new]> bsn) h' d');
    [simpl; rewrite length_app; lia| | | | | |done].
  - by apply Hkeep.
  - done.
  - by rewrite length_insert.
  - apply Forall2_insert; [|done]. by apply Hkeep.
  - intros j Hj. rewrite length_insert in Hj.
    rewrite list_lookup_insert_ne by lia. apply Hnull. lia.
Qed.

(** The body shared by the copy constructor and [operator=]: the nodes it
    allocates are the nodes of the copy, no more. *)
Lemma copy_from_exact h o bs :
  rep h o bs →
  ∃ h' d' bs',
    copy_from o h = Ret (h', d') ∧
    (∀ c idx, rep h' (mkMap d' (sz o) (capacity o) c idx) bs') ∧
    rep h' o bs ∧ kvs <$> bs' = kvs <$> bs ∧
    (∀ l, l ∈ locs bs' → h !! l = None) ∧
    (∀ l, is_Some (h !! l) → h' !! l = h !! l) ∧
    (∀ l, is_Some (h' !! l) → is_Some (h !! l) ∨ l ∈ locs bs').
Proof.
  intros Hrep.
  destruct (HashMap_copy_spec h o bs None 0 Hrep)
    as (h' & d' & bs' & Hcf & _ & Hrc & Hro & Hkvs & Hfresh & Hframe).
  cbv zeta in Hrc.
  exists h', d', bs'. split; [done|]. split.
  { intros c idx. by apply (rep_cursor_irrelevant _ _ _ _ Hrc). }
  repeat (split; [done|]).
  pose proof (rep_length _ _ _ Hrep) as Hlen.
  pose proof (rep_capacity _ _ _ Hrep) as Hcap.
  pose proof (Forall2_length _ _ _ (rep_chains _ _ _ Hrep)) as Hlen2.
  assert (base.size h' = (base.size h + length (mjoin bs))%nat) as Hsize.
  { apply (copy_buckets_size (data o) bs 0%nat h (new_buckets (capacity o))
             (replicate (Z.to_nat (capacity o)) []) h' d').
    - apply (rep_chains _ _ _ Hrep).
    - apply (rep_nodup _ _ _ Hrep).
    - rewrite new_buckets_length. lia.
    - apply new_buckets_chains.
    - intros j Hj. rewrite new_buckets_length in Hj.
      apply lookup_replicate_2. lia.
    - revert Hcf. unfold copy_from. rewrite <-Hlen at 1.
      by rewrite Nat2Z.id, Hlen2. }
  assert (length (locs bs') = length (mjoin bs)) as Hcount.
  { unfold locs. rewrite length_fmap.
    assert (kvs (mjoin bs') = kvs (mjoin bs)) as Hk
      by (by rewrite !kvs_join, Hkvs).
    apply (f_equal length) in Hk. unfold kvs in Hk.
    by rewrite !length_fmap in Hk. }
  assert (dom h ∪ list_to_set (locs bs') = dom h') as Hdom.
  { apply set_subseteq_size_eq.
    - intros l [Hl|Hl]%elem_of_union.
      + apply elem_of_dom in Hl. apply elem_of_dom. by rewrite Hframe.
      + apply elem_of_list_to_set in Hl. apply elem_of_dom.
        by apply (rep_live _ _ _ _ Hrc).
    - rewrite size_union.
      + rewrite size_list_to_set by apply (rep_nodup _ _ _ Hrc).
        rewrite !size_dom. lia.
      + intros l Hl1 Hl2. apply elem_of_list_to_set in Hl2.
        apply elem_of_dom in Hl1. rewrite (Hfresh l Hl2) in Hl1.
        by destruct Hl1. }
  intros l Hl. apply elem_of_dom in Hl. rewrite <-Hdom in Hl.
  apply elem_of_union in Hl as [Hl|Hl].
  - left. by apply elem_of_dom.
  - right. by apply elem_of_list_to_set in Hl.
Qed.

(** X18.  The copy constructor creates one node for each pair of the
    source and writes no node that existed: afterwards the store holds
    the nodes it held, unchanged, and the [size()] nodes of the copy,
    which sit at addresses that were free. *)
Theorem copy_creates_its_nodes_only h o bs curr0 idx0 :
  rep h o bs →
  ∃ h' m' bs',
    HashMap_copy o curr0 idx0 h = Ok tt (h', m') ∧ rep h' m' bs' ∧
    Z.of_nat (length (locs bs')) = size o ∧
    (∀ l, l ∈ locs bs' → h !! l = None) ∧
    (∀ l, is_Some (h !! l) → h' !! l = h !! l) ∧
    (∀ l, is_Some (h' !! l) → is_Some (h !! l) ∨ l ∈ locs bs').
Proof.
  intros Hrep.
  destruct (copy_from_exact h o bs Hrep)
    as (h' & d' & bs' & Hcf & Hrc & _ & _ & Hfresh & Hframe & Hexact).
  eexists h', _, bs'. split; [unfold HashMap_copy; by rewrite Hcf|].
  split; [apply Hrc|]. split; [|done].
  unfold size, locs. rewrite length_fmap.
  symmetry. apply (rep_sz _ _ _ (Hrc curr0 idx0)).
Qed.

(** X19.  Assignment leaks no node and leaves the source alone: after
    [c = t] on two separate tables, the store holds the nodes it held
    except those of the old [c], all freed, and the nodes of the new
    [c]; the nodes of [t] are as they were. *)
Theorem assignment_releases_old_nodes w t c mt mc bst bsc :
  separate w t c mt mc bst bsc →
  ∃ w' mc' bsc',
    assign c t w = Ok tt w' ∧
    objects w' !! c = Some mc' ∧ rep (nodes w') mc' bsc' ∧
    (∀ l, is_Some (nodes w' !! l) ↔
            (is_Some (nodes w !! l) ∧ l ∉ locs bsc) ∨ l ∈ locs bsc') ∧
    (∀ l, l ∈ locs bst → nodes w' !! l = nodes w !! l).
Proof.
  intros (Hne & Ht & Hc & Hrt & Hrc & Hsep).
  destruct (clear_store _ _ _ Hrc) as (h1 & Hclear & Hst).
  assert (rep h1 mt bst) as Hrt1.
  { apply (rep_frame (nodes w)); [done|]. intros l Hl. rewrite Hst.
    rewrite decide_False; [done|]. intros Hlc. by apply (Hsep l). }
  destruct (copy_from_exact h1 mt bst Hrt1)
    as (h' & d' & bs' & Hcf & Hrc' & Hrt' & _ & Hfresh & Hframe & Hexact).
  eexists (mkWorld h' _), _, bs'. split.
  { unfold assign. rewrite decide_False by done.
    unfold call. rewrite Hc, Hclear. cbn [objects nodes].
    rewrite lookup_insert_eq, lookup_insert_ne, Ht by done.
    rewrite Hcf. simpl. done. }
  cbn [objects nodes]. split; [apply lookup_insert_eq|].
  split; [apply Hrc'|]. split.
  - intros l. split.
    + intros Hl. destruct (Hexact l Hl) as [Hl1|Hl']; [|by right].
      left. rewrite Hst in Hl1. case_decide; [by destruct Hl1|done].
    + intros [[Hl Hnot]|Hl].
      * rewrite Hframe; rewrite Hst, decide_False; done.
      * by apply (rep_live _ _ _ _ (Hrc' None 0)).
  - intros l Hl.
    assert (h1 !! l = nodes w !! l) as Heq.
    { rewrite Hst, decide_False; [done|]. intros Hlc. by apply (Hsep l). }
    rewrite Hframe; [done|]. rewrite Heq. by apply (rep_live _ _ _ _ Hrt).
Qed.

(** ** [insert], then a lookup *)

(** X20.  After [insert(k, v)] the key is held: [contains(k)] is true
    and [at(k)] returns the value held before the call if there was one,
    [v] otherwise; [size()] grew by one exactly when the key was new, and
    every other key answers as before. *)
Theorem insert_then_lookup h m bs k v :
  rep h m bs → fits m →
  ∃ s',
    insert k v (h, m) = Ok tt s' ∧
    contains k s' = Ok true s' ∧
    at_ k s' = Ok (default v (mapping bs k)) s' ∧
    size s'.2 = (if mapping bs k then size m else size m + 1) ∧
    ∀ k', k' ≠ k →
      answer (at_ k' s') = answer (at_ k' (h, m)) ∧
      answer (contains k' s') = answer (contains k' (h, m)).
Proof.
  intros Hrep Hfits.
  destruct (mapping bs k) as [v0|] eqn:Hk.
  - exists (h, m). split.
    { apply (insert_present h m bs); [done|by rewrite Hk]. }
    rewrite (contains_spec _ _ _ _ Hrep), (at_spec _ _ _ _ Hrep), Hk.
    by repeat split.
  - destruct (insert_absent h m bs k v Hrep Hk Hfits)
      as (h' & m' & bs' & Hrun & Hrep' & Hcont & Hsz & _).
    pose proof (mapping_insert bs bs' k v (rep_keys _ _ _ Hrep') Hcont) as Hm.
    assert (mapping bs' k = Some v) as Hk'
      by (rewrite Hm; by rewrite decide_True).
    exists (h', m'). split; [done|].
    rewrite (contains_spec _ _ _ _ Hrep'), (at_spec _ _ _ _ Hrep'), Hk'.
    repeat (split; [done|]). intros k' Hne.
    rewrite (contains_spec _ _ _ _ Hrep'), (at_spec _ _ _ _ Hrep').
    rewrite (contains_spec _ _ _ _ Hrep), (at_spec _ _ _ _ Hrep).
    rewrite Hm, decide_False by done. by destruct (mapping bs k').
Qed.

(** ** More on traversals *)

(** X22.  [erase] of another key and [rehash] leave an open traversal
    usable: when the cursor is on a node of the table, [erase] of a key
    held by another node, and [rehash] to at least one bucket, return
    and leave that node allocated, so that the next call of [next]
    returns. *)
Theorem erase_elsewhere_keeps_cursor_usable h m bs rem l n :
  rep h m bs → cursor h m bs rem → curr m = Some l → h !! l = Some n →
  (∀ k v, key n ≠ k → at_ k (h, m) = Ok v (h, m) →
     ∃ s' r s'', erase k (h, m) = Ok v s' ∧ next_ s' = Ok r s'') ∧
  (∀ new_capacity, 0 < new_capacity < size_t_mod →
     ∃ s' r s'', rehash new_capacity (h, m) = Ok tt s' ∧ next_ s' = Ok r s'').
Proof.
  intros Hrep Hcur Hcurr Hn. split.
  - intros k v Hne Hat.
    rewrite (at_spec _ _ _ _ Hrep) in Hat.
    destruct (mapping bs k) as [v0|] eqn:Hk; [|done]. injection Hat as ->.
    destruct (erase_present h m bs k v Hrep Hk)
      as (h' & m' & bs' & Hrun & Hrep' & _ & _ & _ & Hc & _).
    destruct (erase_payload _ _ _ _ Hrun) as (l0 & Hl0 & Hpay).
    destruct (next_total h' m' bs' Hrep') as (r & m'' & Hnext).
    { intros l1 Hl1. rewrite Hc, Hcurr in Hl1. injection Hl1 as <-.
      specialize (Hpay l). simpl in Hpay, Hl0.
      rewrite decide_False in Hpay.
      - unfold payload in Hpay. rewrite Hn in Hpay.
        destruct (h' !! l); [eauto|done].
      - intros ->. unfold payload in Hl0. rewrite Hn in Hl0.
        simpl in Hl0. by injection Hl0 as ? _. }
    by exists (h', m'), r, (h', m'').
  - intros new_capacity Hcap.
    destruct (rehash_spec h m bs new_capacity Hrep Hcap)
      as (h' & d' & bs' & Hrun & Hrep' & _).
    destruct (next_total h' _ bs' Hrep') as (r & m'' & Hnext).
    { cbn [curr]. intros l1 Hl1. rewrite Hcurr in Hl1. injection Hl1 as <-.
      pose proof (rehash_payload _ _ _ Hrun l) as Hpay. simpl in Hpay.
      unfold payload in Hpay. rewrite Hn in Hpay.
      destruct (h' !! l); [eauto|done]. }
    by eexists _, r, _.
Qed.

(** Positions in the concatenation of the buckets follow the buckets. *)
Lemma join_bucket_order {A} (bs : list (list A)) :
  ∀ i j x y, (i ≤ j)%nat → mjoin bs !! i = Some x → mjoin bs !! j = Some y →
  ∃ bi bj b b', (bi ≤ bj)%nat ∧ bs !! bi = Some b ∧ x ∈ b ∧
                bs !! bj = Some b' ∧ y ∈ b'.
Proof.
  induction bs as [|b bs IH]; intros i j x y Hij Hx Hy; [done|].
  simpl in Hx, Hy.
  destruct (decide (i < length b)%nat) as [Hi|Hi].
  - rewrite lookup_app_l in Hx by done.
    apply list_elem_of_lookup_2 in Hx.
    destruct (decide (j < length b)%nat) as [Hj|Hj].
    + rewrite lookup_app_l in Hy by done.
      apply list_elem_of_lookup_2 in Hy.
      exists 0%nat, 0%nat, b, b. by repeat split.
    + rewrite lookup_app_r in Hy by lia.
      apply list_elem_of_lookup_2, elem_of_concat_lookup in Hy
        as (bj & b' & Hbj & Hy).
      exists 0%nat, (S bj), b, b'. repeat split; try done. lia.
  - rewrite lookup_app_r in Hx by lia. rewrite lookup_app_r in Hy by lia.
    destruct (IH (i - length b)%nat (j - length b)%nat x y ltac:(lia) Hx Hy)
      as (bi & bj & b1 & b2 & Hle & Hb1 & Hx1 & Hb2 & Hy2).
    exists (S bi), (S bj), b1, b2. repeat split; try done. lia.
Qed.

(** X23.  A traversal goes through the buckets in order: in the
    sequence of keys that the usage loop of [next] sees, the bucket
    index [hash(key) % capacity] never decreases. *)
Theorem traversal_follows_buckets h m bs fuel :
  rep h m bs → (Z.to_nat (size m) < fuel)%nat →
  ∃ seen m',
    traverse fuel (h, m) = Ok seen (h, m') ∧
    ∀ (i j : nat) ki kj,
      (i ≤ j)%nat → seen.*1 !! i = Some ki → seen.*1 !! j = Some kj →
      hash ki mod capacity m ≤ hash kj mod capacity m.
Proof.
  intros Hrep Hfuel.
  destruct (traverse_spec h m bs fuel Hrep) as (m' & Hrun & _).
  { by eapply traverse_fuel. }
  exists (content bs), m'. split; [done|].
  intros i j ki kj Hij Hi Hj.
  unfold content, kvs in Hi, Hj. rewrite <-list_fmap_compose in Hi, Hj.
  rewrite list_lookup_fmap in Hi, Hj.
  destruct (mjoin bs !! i) as [x|] eqn:Hx; [|done].
  destruct (mjoin bs !! j) as [y|] eqn:Hy; [|done].
  simpl in Hi, Hj. injection Hi as <-. injection Hj as <-.
  destruct (join_bucket_order bs i j x y Hij Hx Hy)
    as (bi & bj & b1 & b2 & Hle & Hb1 & Hx1 & Hb2 & Hy2).
  rewrite (rep_index _ _ _ Hrep _ _ _ Hb1 Hx1).
  rewrite (rep_index _ _ _ Hrep _ _ _ Hb2 Hy2). lia.
Qed.

(** ** [clear], twice *)

(** X24.  [clear] on a table it has just emptied changes nothing, in
    the store or in the table: the [clear()] of the destructor after a
    [clear()] of the client frees no node a second time. *)
Theorem clear_twice h m bs :
  rep h m bs →
  ∃ s', clear (h, m) = Ok tt s' ∧ clear s' = Ok tt s'.
Proof.
  intros Hrep.
  destruct (clear_spec h m bs Hrep) as (h' & Hrun & Hrep' & _).
  cbv zeta in *.
  eexists. split; [exact Hrun|].
  destruct (clear_store _ _ _ Hrep') as (h'' & Hrun' & Hst).
  rewrite Hrun'. cbn [capacity curr curr_idx]. f_equal. f_equal.
  apply map_eq. intros l. rewrite Hst.
  rewrite decide_False; [done|].
  unfold locs. rewrite join_replicate_nil. by intros ?%elem_of_nil.
Qed.

(** ** Whole programs: the class invariant and the nodes allocated *)

(** X25.  Every call keeps the class invariant.  From a well-formed
    table, any sequence of calls used as the class asks returns and
    leaves a well-formed table: every chain ends, no key is held twice,
    every node sits in the bucket of its hash, [sz] counts the nodes
    and the bucket array has [capacity] slots. *)
Theorem calls_keep_the_invariant ops (open : bool) h m bs B :
  rep h m bs → (open = true → ∃ rem, cursor h m bs rem) →
  within B m → B + total_cost ops < size_bound →
  well_used open ops = true →
  ∃ h' m' bs', run ops (h, m) = Ok tt (h', m') ∧ rep h' m' bs'.
Proof.
  intros Hrep Hcur HB Hcost Hwu.
  destruct (run_spec ops open h m bs B Hrep Hcur HB Hcost Hwu)
    as (h' & m' & bs' & Hrun & Hrep' & _).
  by exists h', m', bs'.
Qed.

Lemma payload_dom (h h' : heap) (X : gset loc) :
  (∀ l, is_Some (payload h' l) ↔ l ∈ X) → dom h' = X.
Proof.
  intros Hp. apply set_eq. intros l. rewrite <-Hp, elem_of_dom.
  unfold payload. by rewrite fmap_is_Some.
Qed.

Lemma payload_size_same (h h' : heap) :
  (∀ l, payload h' l = payload h l) → base.size h' = base.size h.
Proof.
  intros Hp. rewrite <-!size_dom. f_equal. apply (payload_dom h).
  intros l. rewrite Hp, elem_of_dom. unfold payload. by rewrite fmap_is_Some.
Qed.

Lemma payload_size_insert (h h' : heap) l0 x :
  h !! l0 = None →
  (∀ l, payload h' l = if decide (l = l0) then Some x else payload h l) →
  base.size h' = S (base.size h).
Proof.
  intros Hl0 Hp. rewrite <-!size_dom.
  rewrite (payload_dom h h' ({[l0]} ∪ dom h)).
  - rewrite size_union, size_singleton; [done|].
    intros l ->%elem_of_singleton Hl. apply elem_of_dom in Hl.
    rewrite Hl0 in Hl. by destruct Hl.
  - intros l. rewrite Hp, elem_of_union, elem_of_singleton, elem_of_dom.
    unfold payload. rewrite <-(fmap_is_Some (λ n, (key n, value n)) (h !! l)).
    case_decide; [|tauto]. split; [by left|eauto].
Qed.

Lemma payload_size_delete (h h' : heap) l0 x :
  payload h l0 = Some x →
  (∀ l, payload h' l = if decide (l = l0) then None else payload h l) →
  S (base.size h') = base.size h.
Proof.
  intros Hl0 Hp.
  assert (l0 ∈ dom h) as Hin.
  { apply elem_of_dom. unfold payload in Hl0.
    destruct (h !! l0); [eauto|done]. }
  rewrite <-!size_dom.
  rewrite (payload_dom h h' (dom h ∖ {[l0]})).
  - rewrite size_difference by set_solver. rewrite size_singleton.
    assert (base.size (dom h) ≠ 0%nat); [|lia].
    intros Hz. apply size_empty_inv in Hz. set_solver.
  - intros l. rewrite Hp, elem_of_difference, elem_of_singleton, elem_of_dom.
    unfold payload. rewrite <-(fmap_is_Some (λ n, (key n, value n)) (h !! l)).
    case_decide as Hl; [|tauto]. split; [by intros []|tauto].
Qed.

Lemma clear_size (h h' : heap) bs m :
  rep h m bs →
  (∀ l, h' !! l = if decide (l ∈ locs bs) then None else h !! l) →
  (base.size h' + length (mjoin bs) = base.size h)%nat.
Proof.
  intros Hrep Hst.
  assert (dom h' = dom h ∖ list_to_set (locs bs)) as Hdom.
  { apply set_eq. intros l.
    rewrite elem_of_difference, !elem_of_dom, elem_of_list_to_set, Hst.
    case_decide; [|tauto]. split; [by intros []|tauto]. }
  assert (list_to_set (locs bs) ⊆ dom h) as Hsub.
  { intros l Hl%elem_of_list_to_set. apply elem_of_dom.
    by apply (rep_live _ _ _ _ Hrep). }
  pose proof (subseteq_size _ _ Hsub) as Hle.
  rewrite <-!size_dom, Hdom, size_difference by done.
  rewrite size_list_to_set in * by apply (rep_nodup _ _ _ Hrep).
  unfold locs in *. rewrite length_fmap in *. lia.
Qed.

(** One call changes the number of nodes of the store as it changes
    [sz]. *)
Lemma exec_count o (open : bool) h m bs B h' m' :
  rep h m bs → (open = true → ∃ rem, cursor h m bs rem) →
  within B m → B + cost o < size_bound → usable open o = true →
  (exec o (h, m) = Ok tt (h', m') ∨ ∃ e, exec o (h, m) = Throw e (h', m')) →
  Z.of_nat (base.size h') - sz m' = Z.of_nat (base.size h) - sz m.
Proof.
  intros Hrep Hcur [HB1 HB2] Hcost Huse Hrun.
  pose proof (rep_sz_nonneg _ _ _ Hrep) as Hsz0.
  pose proof size_bound_pos as Hsbp.
  destruct o as [k v|k| |k|k| | |n]; cbn [exec cost usable] in *.
  - (* insert *)
    destruct (mapping bs k) as [v0|] eqn:Hk.
    + rewrite (insert_present h m bs k v Hrep) in Hrun by eauto.
      destruct Hrun as [[= <- <-]|[e [=]]]. done.
    + destruct (insert_absent h m bs k v Hrep Hk)
        as (h1 & m1 & bs1 & Hins & _ & _ & Hsz & _).
      { unfold fits. lia. }
      rewrite Hins in Hrun. destruct Hrun as [[= <- <-]|[e [=]]].
      destruct (insert_payload _ _ _ _ Hins) as [Heq|(l0 & Hl0 & Hpay)].
      { injection Heq as _ ->. lia. }
      rewrite (payload_size_insert h h1 l0 (k, v) Hl0 Hpay). lia.
  - (* erase *)
    destruct (mapping bs k) as [v0|] eqn:Hk.
    + destruct (erase_present h m bs k v0 Hrep Hk)
        as (h1 & m1 & bs1 & Her & _ & _ & Hsz & _).
      rewrite Her in Hrun. cbn [void] in Hrun.
      destruct Hrun as [[= <- <-]|[e [=]]].
      destruct (erase_payload _ _ _ _ Her) as (l0 & Hl0 & Hpay).
      pose proof (payload_size_delete h h1 l0 (k, v0) Hl0 Hpay). lia.
    + rewrite (erase_absent h m bs k Hrep Hk) in Hrun. cbn [void] in Hrun.
      destruct Hrun as [[=]|[e [= _ <- <-]]]. done.
  - (* clear *)
    destruct (clear_store h m bs Hrep) as (h1 & Hcl & Hst).
    rewrite Hcl in Hrun. destruct Hrun as [[= <- <-]|[e [=]]].
    pose proof (clear_size h h1 bs m Hrep Hst).
    cbn [sz]. rewrite (rep_sz _ _ _ Hrep). lia.
  - (* at *)
    rewrite (at_spec h m bs k Hrep) in Hrun.
    destruct (mapping bs k); cbn [void] in Hrun.
    + destruct Hrun as [[= <- <-]|[e [=]]]. done.
    + destruct Hrun as [[=]|[e [= _ <- <-]]]. done.
  - (* contains *)
    rewrite (contains_spec h m bs k Hrep) in Hrun.
    destruct (mapping bs k); cbn [void] in Hrun;
      destruct Hrun as [[= <- <-]|[e [=]]]; done.
  - (* begin *)
    destruct (exec_cursor_pure Begin (h, m) (h', m') eq_refl Hrun)
      as (_ & Hh & _ & Hs & _). simpl in Hh, Hs. by rewrite Hh, Hs.
  - (* next *)
    destruct (exec_cursor_pure Next (h, m) (h', m') eq_refl Hrun)
      as (_ & Hh & _ & Hs & _). simpl in Hh, Hs. by rewrite Hh, Hs.
  - (* rehash *)
    apply bool_decide_eq_true_1 in Huse.
    destruct (rehash_spec h m bs n Hrep) as (h1 & d1 & bs1 & Hre & _).
    { pose proof size_bound_lt. lia. }
    rewrite Hre in Hrun. destruct Hrun as [[= <- <-]|[e [=]]].
    rewrite (payload_size_same h h1); [done|].
    apply (rehash_payload _ _ _ Hre).
Qed.

Lemma run_count ops :
  ∀ (open : bool) h m bs B,
  rep h m bs → (open = true → ∃ rem, cursor h m bs rem) →
  within B m → B + total_cost ops < size_bound →
  well_used open ops = true →
  ∃ h' m',
    run ops (h, m) = Ok tt (h', m') ∧
    Z.of_nat (base.size h') - sz m' = Z.of_nat (base.size h) - sz m.
Proof.
  induction ops as [|o ops IH]; intros open h m bs B Hrep Hcur HB Hcost Hwu.
  { by exists h, m. }
  simpl in Hwu, Hcost. apply andb_true_iff in Hwu as [Hu Hw].
  pose proof (total_cost_nonneg _ _ Hw) as Hnn.
  pose proof (cost_nonneg _ _ Hu) as Hcn.
  destruct (exec_spec o open h m bs B Hrep Hcur HB)
    as (h1 & m1 & bs1 & Hrun1 & Hrep1 & Hcur1 & HB1 & _); [lia|done|].
  pose proof (exec_count o open h m bs B h1 m1 Hrep Hcur HB ltac:(lia) Hu Hrun1)
    as Hcount1.
  destruct (IH (opens open o) h1 m1 bs1 (B + cost o) Hrep1 Hcur1 HB1)
    as (h' & m' & Hrun & Hcount); [lia|done|].
  exists h', m'. split; [|lia].
  cbn [run]. destruct Hrun1 as [->|[e ->]]; done.
Qed.

(** X26.  No call leaks a node.  Along any sequence of calls on a
    well-formed table, the number of nodes allocated in the store moves
    with [size()]: what the store holds beyond the nodes of the table is
    as many nodes at the end as at the start.  In a store that held
    nothing else, it holds exactly [size()] nodes at the end. *)
Theorem calls_leak_no_node ops (open : bool) h m bs B :
  rep h m bs → (open = true → ∃ rem, cursor h m bs rem) →
  within B m → B + total_cost ops < size_bound →
  well_used open ops = true →
  ∃ h' m',
    run ops (h, m) = Ok tt (h', m') ∧
    Z.of_nat (base.size h') - size m' = Z.of_nat (base.size h) - size m ∧
    (Z.of_nat (base.size h) = size m → Z.of_nat (base.size h') = size m').
Proof.
  intros Hrep Hcur HB Hcost Hwu.
  destruct (run_count ops open h m bs B Hrep Hcur HB Hcost Hwu)
    as (h' & m' & Hrun & Hcount).
  exists h', m'. split; [done|]. unfold size. split; [done|lia].
Qed.

(** ** What the answers depend on *)

(** Two tables with the same association hold the same pairs. *)
Lemma content_of_mapping bs1 bs2 :
  NoDup (content bs1).*1 → NoDup (content bs2).*1 →
  (∀ k, mapping bs1 k = mapping bs2 k) → content bs1 ≡ₚ content bs2.
Proof.
  intros H1 H2 Hm. apply NoDup_Permutation.
  - by apply NoDup_fmap_1 in H1.
  - by apply NoDup_fmap_1 in H2.
  - intros [k v]. rewrite <-!mapping_Some_content by done. by rewrite Hm.
Qed.

End HashMap.

(** * The theorems on the table from [int] to [int] *)

Lemma ex_rep : rep int_hash ex_heap ex_map ex_buckets.
Proof.
  split; try done.
  - repeat constructor.
  - apply (bool_decide_unpack _). by vm_compute.
  - intros [|[|i]] b x Hb Hx; simplify_eq/=.
    + by apply elem_of_nil in Hx.
    + by apply list_elem_of_singleton in Hx as ->.
  - apply (bool_decide_unpack _). by vm_compute.
Qed.

Lemma ex_rep_empty :
  rep int_hash ex_empty (HashMap_new 2 None 0) (replicate (Z.to_nat 2) []).
Proof. by apply rep_new. Qed.

Lemma ex_rep1 : rep int_hash ex_heap2 ex_map ex_buckets.
Proof.
  apply (rep_frame int_hash ex_heap); [apply ex_rep|].
  intros l Hl. apply list_elem_of_singleton in Hl as ->. done.
Qed.

Lemma ex_rep2 : rep int_hash ex_heap2 ex_map2 ex_buckets2.
Proof.
  split; try done.
  - repeat constructor.
  - apply (bool_decide_unpack _). by vm_compute.
  - intros [|i] b x Hb Hx; simplify_eq/=.
    by apply list_elem_of_singleton in Hx as ->.
  - apply (bool_decide_unpack _). by vm_compute.
Qed.

Lemma ex_separate :
  separate int_hash ex_world 1%positive 2%positive ex_map ex_map2
    ex_buckets ex_buckets2.
Proof.
  split; [done|]. split; [done|]. split; [done|].
  split; [apply ex_rep1|]. split; [apply ex_rep2|].
  intros l Hl Hl'. apply list_elem_of_singleton in Hl as ->.
  by apply list_elem_of_singleton in Hl'.
Qed.

(** C1 at the table of [(1, 10)] and at the inserts of 1, 2 and 1 again. *)
Lemma insert_first_write_wins_witness :
  (rep int_hash ex_heap ex_map ex_buckets ∧
   at_ int_hash 1 (ex_heap, ex_map) = Ok 10 (ex_heap, ex_map) ∧
   insert int_hash 1 20 (ex_heap, ex_map) = Ok tt (ex_heap, ex_map)) ∧
  (0 < 2 ∧ 2 + 2 * Z.of_nat (length [(1, 10); (2, 20); (1, 30)]) < size_bound ∧
   ∃ s', run int_hash (inserts [(1, 10); (2, 20); (1, 30)])
           (∅, HashMap_new 2 None 0) = Ok tt s' ∧
         size s'.2 = Z.of_nat (length (remove_dups [(1, 10); (2, 20); (1, 30)].*1)) ∧
         ∀ k, answer (at_ int_hash k s') =
              match assoc k [(1, 10); (2, 20); (1, 30)] with
              | Some v => Ok v tt
              | None => Throw (out_of_range "out_of_range") tt
              end).
Proof.
  split.
  - split; [apply ex_rep|]. split; [by vm_compute|].
    apply (proj1 (insert_first_write_wins int_hash)
             ex_heap ex_map ex_buckets 1 10 20 ex_rep).
    by vm_compute.
  - split; [lia|]. split; [by vm_compute|].
    apply (proj2 (insert_first_write_wins int_hash) ∅ 2 None 0
             [(1, 10); (2, 20); (1, 30)]); [lia|by vm_compute].
Defined.

(** C2 at the table of [(1, 10)] and at a program that inserts, erases
    and inserts again. *)
Lemma at_contains_agree_with_membership_witness :
  (rep int_hash ex_heap ex_map ex_buckets ∧
   ((∃ v, (1, v) ∈ content ex_buckets ∧
          contains int_hash 1 (ex_heap, ex_map) = Ok true (ex_heap, ex_map) ∧
          at_ int_hash 1 (ex_heap, ex_map) = Ok v (ex_heap, ex_map)) ∨
    ((1 ∉ (content ex_buckets).*1) ∧
     contains int_hash 1 (ex_heap, ex_map) = Ok false (ex_heap, ex_map) ∧
     at_ int_hash 1 (ex_heap, ex_map)
       = Throw (out_of_range "out_of_range") (ex_heap, ex_map)))) ∧
  (let ops := [Insert 1 10; Erase 1; Insert 1 30; Insert 2 20; At 7] in
   0 < 2 ∧ 2 + total_cost ops < size_bound ∧ well_used false ops = true ∧
   ∃ s', run int_hash ops (∅, HashMap_new 2 None 0) = Ok tt s' ∧
         ∀ k, match history ops (λ _, None) k with
              | Some v =>
                  contains int_hash k s' = Ok true s' ∧
                  at_ int_hash k s' = Ok v s'
              | None =>
                  contains int_hash k s' = Ok false s' ∧
                  at_ int_hash k s' = Throw (out_of_range "out_of_range") s'
              end).
Proof.
  split.
  - split; [apply ex_rep|].
    apply (proj1 (at_contains_agree_with_membership int_hash)
             ex_heap ex_map ex_buckets 1 ex_rep).
  - cbv zeta. split; [lia|]. split; [by vm_compute|]. split; [done|].
    apply (proj2 (at_contains_agree_with_membership int_hash) ∅ 2 None 0
             [Insert 1 10; Erase 1; Insert 1 30; Insert 2 20; At 7]);
      [lia|by vm_compute|done].
Defined.

(** C3 at the table of [(1, 10)], for the key 1 held and the key 2 not
    held, and at an empty table. *)
Lemma erase_semantics_witness :
  rep int_hash ex_heap ex_map ex_buckets ∧
  at_ int_hash 1 (ex_heap, ex_map) = Ok 10 (ex_heap, ex_map) ∧
  (∃ h' m' bs',
     erase int_hash 1 (ex_heap, ex_map) = Ok 10 (h', m') ∧
     rep int_hash h' m' bs' ∧
     size m' = size ex_map - 1 ∧
     get_capacity m' = get_capacity ex_map ∧
     contains int_hash 1 (h', m') = Ok false (h', m') ∧
     ∀ k', k' ≠ 1 →
       answer (at_ int_hash k' (h', m'))
         = answer (at_ int_hash k' (ex_heap, ex_map)) ∧
       answer (contains int_hash k' (h', m'))
         = answer (contains int_hash k' (ex_heap, ex_map))) ∧
  contains int_hash 2 (ex_heap, ex_map) = Ok false (ex_heap, ex_map) ∧
  erase int_hash 2 (ex_heap, ex_map)
    = Throw (out_of_range "Key not found in erase") (ex_heap, ex_map) ∧
  empty (HashMap_new 2 None 0) = true ∧
  erase int_hash 2 (ex_empty, HashMap_new 2 None 0)
    = Throw (out_of_range "Key not found in erase")
        (ex_empty, HashMap_new 2 None 0).
Proof.
  split; [apply ex_rep|]. split; [by vm_compute|]. split.
  { apply (proj1 (erase_semantics int_hash ex_heap ex_map ex_buckets 1 ex_rep)).
    by vm_compute. }
  split; [by vm_compute|]. split.
  { apply (proj1 (proj2 (erase_semantics int_hash ex_heap ex_map ex_buckets 2
                           ex_rep))).
    by vm_compute. }
  split; [done|].
  apply (proj2 (proj2 (erase_semantics int_hash ex_empty
                         (HashMap_new 2 None 0) _ 2 ex_rep_empty))).
  done.
Defined.

(** C4 at the table of [(1, 10)], rehashed to 3 buckets. *)
Lemma rehash_preserves_map_witness :
  rep int_hash ex_heap ex_map ex_buckets ∧ 1 ≤ 3 < size_t_mod ∧
  ∃ h' m' bs',
    rehash int_hash 3 (ex_heap, ex_map) = Ok tt (h', m') ∧
    rep int_hash h' m' bs' ∧
    ents (mjoin bs') ≡ₚ ents (mjoin ex_buckets) ∧
    content bs' ≡ₚ content ex_buckets ∧
    (∀ k, answer (at_ int_hash k (h', m'))
            = answer (at_ int_hash k (ex_heap, ex_map))) ∧
    size m' = size ex_map ∧ get_capacity m' = 3 ∧
    (∀ i b x, bs' !! i = Some b → x ∈ b →
       int_hash (key x.2) mod 3 = Z.of_nat i).
Proof.
  split; [apply ex_rep|]. split; [done|].
  apply (rehash_preserves_map int_hash ex_heap ex_map ex_buckets 3 ex_rep).
  done.
Defined.

(** C8 at the table of [(1, 10)]. *)
Lemma clear_empties_keeps_capacity_witness :
  rep int_hash ex_heap ex_map ex_buckets ∧
  ∃ h' m',
    clear (ex_heap, ex_map) = Ok tt (h', m') ∧
    size m' = 0 ∧ empty m' = true ∧
    get_capacity m' = get_capacity ex_map ∧
    (∀ l, l ∈ locs ex_buckets → h' !! l = None) ∧
    ∀ k, contains int_hash k (h', m') = Ok false (h', m') ∧
         at_ int_hash k (h', m')
           = Throw (out_of_range "out_of_range") (h', m').
Proof.
  split; [apply ex_rep|].
  apply (clear_empties_keeps_capacity int_hash ex_heap ex_map ex_buckets ex_rep).
Defined.

(** C7 at the table of [(1, 10)]. *)
Lemma traversal_is_complete_witness :
  rep int_hash ex_heap ex_map ex_buckets ∧
  ∃ m1 m2,
    begin (ex_heap, ex_map) = Ok tt (ex_heap, m1) ∧
    nexts (S (length (content ex_buckets))) (ex_heap, m1)
      = Ok ((Some <$> content ex_buckets) ++ [None]) (ex_heap, m2) ∧
    Z.of_nat (length (content ex_buckets)) = size ex_map ∧
    NoDup (content ex_buckets).*1 ∧
    (∀ k v, (k, v) ∈ content ex_buckets ↔
            at_ int_hash k (ex_heap, ex_map) = Ok v (ex_heap, ex_map)) ∧
    same_table ex_map m2 ∧
    (empty ex_map = true →
       curr m1 = None ∧ next_ (ex_heap, m1) = Ok None (ex_heap, m1)).
Proof.
  split; [apply ex_rep|].
  apply (traversal_is_complete int_hash ex_heap ex_map ex_buckets ex_rep).
Defined.

(** C5 at the table of [(1, 10)] with the new key 2, and at the keys 1,
    2, 3 and 4 inserted in a table of capacity 2. *)
Lemma growth_trigger_witness :
  (rep int_hash ex_heap ex_map ex_buckets ∧ fits ex_map ∧
   contains int_hash 2 (ex_heap, ex_map) = Ok false (ex_heap, ex_map) ∧
   ∃ h' m',
     insert int_hash 2 20 (ex_heap, ex_map) = Ok tt (h', m') ∧
     size m' = size ex_map + 1 ∧
     (get_capacity m' = 2 * get_capacity ex_map ↔
        3 * get_capacity ex_map < 2 * size m') ∧
     (get_capacity m' = get_capacity ex_map ↔
        2 * size m' ≤ 3 * get_capacity ex_map)) ∧
  (NoDup [1; 2; 3; 4] ∧
   ∃ s3 s4,
     run int_hash (inserts [(1, 10); (2, 20); (3, 30)])
       (ex_empty, HashMap_new 2 None 0) = Ok tt s3 ∧
     size s3.2 = 3 ∧ get_capacity s3.2 = 2 ∧
     insert int_hash 4 40 s3 = Ok tt s4 ∧
     size s4.2 = 4 ∧ get_capacity s4.2 = 4 ∧
     at_ int_hash 1 s4 = Ok 10 s4 ∧ at_ int_hash 2 s4 = Ok 20 s4 ∧
     at_ int_hash 3 s4 = Ok 30 s4 ∧ at_ int_hash 4 s4 = Ok 40 s4).
Proof.
  split.
  - split; [apply ex_rep|]. split; [done|]. split; [by vm_compute|].
    apply (proj1 (growth_trigger int_hash) ex_heap ex_map ex_buckets 2 20
             ex_rep); [done|by vm_compute].
  - assert (NoDup [1; 2; 3; 4]) as Hnd
      by (apply (bool_decide_unpack _); by vm_compute).
    split; [done|].
    apply (proj2 (growth_trigger int_hash) ex_empty None 0 1 2 3 4 10 20 30 40
             Hnd).
Defined.

(** C9 at a program of four inserts, one erase and a traversal, at the
    table of [(1, 10)], and at the two tables of [ex_world]. *)
Lemma load_factor_invariant_witness :
  (let ops := [Insert 1 10; Insert 2 20; Insert 3 30; Insert 4 40; Erase 2;
               Begin; Next] in
   0 < 2 ∧ 2 + total_cost ops < size_bound ∧ well_used false ops = true ∧
   forallb (λ o, negb (is_rehash o)) ops = true ∧
   ∃ s', run int_hash (take 4 ops) (ex_empty, HashMap_new 2 None 0) = Ok tt s' ∧
         2 * size s'.2 ≤ 3 * get_capacity s'.2) ∧
  (rep int_hash ex_heap ex_map ex_buckets ∧ fits ex_map ∧
   2 * size ex_map ≤ 3 * get_capacity ex_map ∧
   ∃ h' m',
     insert int_hash 2 20 (ex_heap, ex_map) = Ok tt (h', m') ∧
     (get_capacity m' = get_capacity ex_map ∨
      get_capacity m' = 2 * get_capacity ex_map) ∧
     2 * size m' ≤ 3 * get_capacity m') ∧
  (∃ h' m',
     HashMap_copy ex_map None 0 ex_heap = Ok tt (h', m') ∧
     size m' = size ex_map ∧ get_capacity m' = get_capacity ex_map) ∧
  (separate int_hash ex_world 1%positive 2%positive ex_map ex_map2
     ex_buckets ex_buckets2 ∧
   ∃ w' mc',
     assign 2%positive 1%positive ex_world = Ok tt w' ∧
     objects w' !! 2%positive = Some mc' ∧
     size mc' = size ex_map ∧ get_capacity mc' = get_capacity ex_map).
Proof.
  split; [|split; [|split]].
  - cbv zeta. split; [lia|]. split; [by vm_compute|]. split; [done|].
    split; [done|].
    apply (proj1 (load_factor_invariant int_hash) ex_empty 2 None 0
             [Insert 1 10; Insert 2 20; Insert 3 30; Insert 4 40; Erase 2;
              Begin; Next] 4%nat); [lia|by vm_compute|done|done].
  - split; [apply ex_rep|]. split; [done|]. split; [by vm_compute|].
    apply (proj1 (proj2 (load_factor_invariant int_hash)) ex_heap ex_map
             ex_buckets 2 20 ex_rep); [done|by vm_compute].
  - apply (proj1 (proj2 (proj2 (load_factor_invariant int_hash))) ex_heap
             ex_map ex_buckets None 0 ex_rep).
  - split; [apply ex_separate|].
    apply (proj2 (proj2 (proj2 (load_factor_invariant int_hash))) ex_world
             1%positive 2%positive ex_map ex_map2 ex_buckets ex_buckets2
             ex_separate).
Defined.

(** C10 at the table of [(1, 10)] and two traversals. *)
Lemma cursor_calls_are_pure_witness :
  (let ops : list (@op Z Z) := [Begin; Next; Next; Begin] in
   let s' := (ex_heap, mkMap [None; Some 1%positive] 1 2 (Some 1%positive) 1) in
   forallb is_cursor_op ops = true ∧
   run int_hash ops (ex_heap, ex_map) = Ok tt s' ∧
   s'.1 = ex_heap ∧ data s'.2 = data ex_map ∧
   size s'.2 = size ex_map ∧ get_capacity s'.2 = get_capacity ex_map ∧
   ∀ k, answer (at_ int_hash k s') = answer (at_ int_hash k (ex_heap, ex_map)) ∧
        answer (contains int_hash k s')
          = answer (contains int_hash k (ex_heap, ex_map))) ∧
  (let ops : list (@op Z Z) := [Begin; Next; Next; Begin] in
   rep int_hash ex_heap ex_map ex_buckets ∧
   forallb is_cursor_op ops = true ∧ well_used false ops = true ∧
   ∃ m', run int_hash ops (ex_heap, ex_map) = Ok tt (ex_heap, m')).
Proof.
  split.
  - cbv zeta. split; [done|]. split; [by vm_compute|].
    apply (proj1 (cursor_calls_are_pure int_hash) [Begin; Next; Next; Begin]
             (ex_heap, ex_map)
             (ex_heap, mkMap [None; Some 1%positive] 1 2 (Some 1%positive) 1));
      [done|by vm_compute].
  - cbv zeta. split; [apply ex_rep|]. split; [done|]. split; [done|].
    apply (proj2 (cursor_calls_are_pure int_hash) [Begin; Next; Next; Begin]
             false ex_heap ex_map ex_buckets ex_rep); [done| |done].
    intros [=].
Defined.

(** C6 at [ex_world]: the object 3 built from the object 1, the object 2
    assigned from the object 1, and a program run on the object 1. *)
Lemma copy_is_deep_and_independent_witness :
  (1%positive ≠ 3%positive ∧
   objects ex_world !! 1%positive = Some ex_map ∧
   rep int_hash (nodes ex_world) ex_map ex_buckets ∧
   ∃ w' mc bsc,
     construct_copy 3%positive 1%positive None 0 ex_world = Ok tt w' ∧
     separate int_hash w' 1%positive 3%positive ex_map mc ex_buckets bsc ∧
     get_capacity mc = get_capacity ex_map ∧ size mc = size ex_map ∧
     kvs <$> bsc = kvs <$> ex_buckets) ∧
  (separate int_hash ex_world 1%positive 2%positive ex_map ex_map2
     ex_buckets ex_buckets2 ∧
   ∃ w' mc' bsc',
     assign 2%positive 1%positive ex_world = Ok tt w' ∧
     separate int_hash w' 1%positive 2%positive ex_map mc' ex_buckets bsc' ∧
     get_capacity mc' = get_capacity ex_map ∧ size mc' = size ex_map ∧
     kvs <$> bsc' = kvs <$> ex_buckets) ∧
  assign 1%positive 1%positive ex_world = Ok tt ex_world ∧
  (let ops := [Insert 2 20; Insert 3 30; Erase 1; Clear; Insert 5 55] in
   within 2 ex_map ∧ 2 + total_cost ops < size_bound ∧
   well_used false ops = true ∧
   ∃ w' ma' bsa',
     call 1%positive (run int_hash ops) ex_world = Ok tt w' ∧
     separate int_hash w' 1%positive 2%positive ma' ex_map2 bsa' ex_buckets2 ∧
     ∀ k, answer (call 2%positive (at_ int_hash k) w')
            = answer (call 2%positive (at_ int_hash k) ex_world) ∧
          answer (call 2%positive (contains int_hash k) w')
            = answer (call 2%positive (contains int_hash k) ex_world)) ∧
  (∃ w' mt',
     call 1%positive clear ex_world = Ok tt w' ∧
     objects w' !! 1%positive = Some mt' ∧ size mt' = 0 ∧
     objects w' !! 2%positive = Some ex_map2 ∧
     rep int_hash (nodes w') ex_map2 ex_buckets2 ∧
     ∀ k, answer (call 2%positive (at_ int_hash k) w')
            = answer (call 2%positive (at_ int_hash k) ex_world)).
Proof.
  split; [|split; [|split; [|split]]].
  - split; [done|]. split; [done|]. split; [apply ex_rep1|].
    apply (proj1 (copy_is_deep_and_independent int_hash) ex_world 1%positive
             3%positive ex_map ex_buckets None 0); [done|done|apply ex_rep1].
  - split; [apply ex_separate|].
    apply (proj1 (proj2 (copy_is_deep_and_independent int_hash)) ex_world
             1%positive 2%positive ex_map ex_map2 ex_buckets ex_buckets2
             ex_separate).
  - apply (proj1 (proj2 (proj2 (copy_is_deep_and_independent int_hash)))).
  - cbv zeta. split; [by split|]. split; [by vm_compute|]. split; [done|].
    apply (proj1 (proj2 (proj2 (proj2
             (copy_is_deep_and_independent int_hash)))) ex_world 1%positive
             2%positive ex_map ex_map2 ex_buckets ex_buckets2
             [Insert 2 20; Insert 3 30; Erase 1; Clear; Insert 5 55] false 2
             ex_separate); [intros [=]|by split|by vm_compute|done].
  - apply (proj2 (proj2 (proj2 (proj2
             (copy_is_deep_and_independent int_hash)))) ex_world 1%positive
             2%positive ex_map ex_map2 ex_buckets ex_buckets2 ex_separate).
Defined.

(** * Two tables, two hash functions *)

(** X21.  What a client sees depends on the calls it made and on nothing
    else: the same sequence of calls on two tables just built, with
    different hash functions, different numbers of buckets and different
    stores around them, ends with the same [size()] and the same
    answers of [at] and [contains] for every key. *)
Theorem answers_depend_on_calls_only {KeyT ValT : Type} `{EqDecision KeyT}
    (hash1 hash2 : KeyT → Z) (h1 h2 : gmap loc (ChainNode KeyT ValT))
    c1 c2 curr1 idx1 curr2 idx2 (ops : list op) :
  0 < c1 → c1 + total_cost ops < size_bound →
  0 < c2 → c2 + total_cost ops < size_bound →
  well_used false ops = true →
  ∃ s1 s2,
    run hash1 ops (h1, HashMap_new c1 curr1 idx1) = Ok tt s1 ∧
    run hash2 ops (h2, HashMap_new c2 curr2 idx2) = Ok tt s2 ∧
    size s1.2 = size s2.2 ∧
    ∀ k, answer (at_ hash1 k s1) = answer (at_ hash2 k s2) ∧
         answer (contains hash1 k s1) = answer (contains hash2 k s2).
Proof.
  intros Hc1 Hb1 Hc2 Hb2 Hwu.
  destruct (run_new hash1 ops h1 c1 curr1 idx1 Hc1 Hb1 Hwu)
    as (h1' & m1' & bs1 & Hrun1 & Hrep1 & Hmap1 & _).
  destruct (run_new hash2 ops h2 c2 curr2 idx2 Hc2 Hb2 Hwu)
    as (h2' & m2' & bs2 & Hrun2 & Hrep2 & Hmap2 & _).
  assert (∀ k, mapping bs1 k = mapping bs2 k) as Hm
    by (intros k; by rewrite Hmap1, Hmap2).
  exists (h1', m1'), (h2', m2'). split; [done|]. split; [done|]. split.
  - unfold size. simpl.
    rewrite (sz_content hash1 _ _ _ Hrep1), (sz_content hash2 _ _ _ Hrep2).
    f_equal. apply Permutation_length, content_of_mapping; [| |done].
    + apply (rep_keys _ _ _ _ Hrep1).
    + apply (rep_keys _ _ _ _ Hrep2).
  - intros k.
    rewrite (at_spec hash1 _ _ _ k Hrep1), (at_spec hash2 _ _ _ k Hrep2).
    rewrite (contains_spec hash1 _ _ _ k Hrep1),
      (contains_spec hash2 _ _ _ k Hrep2), Hm.
    by destruct (mapping bs2 k).
Qed.

(** * The further properties on the table from [int] to [int] *)

Lemma ex_rep_at : rep int_hash ex_heap ex_map_at ex_buckets.
Proof.
  apply (rep_cursor_irrelevant int_hash ex_heap ex_map); [apply ex_rep|done..].
Qed.

Lemma ex_cursor_at :
  cursor ex_heap ex_map_at ex_buckets [(1%positive, mkNode 1 10 None)].
Proof.
  right. exists 1%nat, [(1%positive, mkNode 1 10 None)].
  split; [done|]. split; [simpl; lia|]. split; [done|]. split; [|done].
  repeat constructor.
Qed.

Lemma ex_rep3 : rep int_hash ex_heap3 ex_map3 ex_buckets3.
Proof.
  split; try done.
  - repeat constructor.
  - apply (bool_decide_unpack _). by vm_compute.
  - intros [|[|i]] b x Hb Hx; simplify_eq/=.
    + by apply elem_of_nil in Hx.
    + apply elem_of_cons in Hx as [->|Hx]; [done|].
      by apply list_elem_of_singleton in Hx as ->.
  - apply (bool_decide_unpack _). by vm_compute.
Qed.

Lemma ex_cursor3 :
  cursor ex_heap3 ex_map3 ex_buckets3 [(1%positive, mkNode 1 10 None)].
Proof.
  right. exists 1%nat, [(1%positive, mkNode 1 10 None)].
  split; [done|]. split; [simpl; lia|]. split; [done|]. split; [|done].
  repeat constructor.
Qed.

Lemma ex_fits : fits ex_map ∧ fits ex_map2 ∧ fits ex_map_at.
Proof. by repeat split. Qed.

(** X1 at the third and at the fourth key of a table of two buckets. *)
Lemma load_factor_test_is_exact_witness :
  (0 < 2 < 2 ^ 52 ∧ 0 ≤ 3 ≤ 2 ^ 52 ∧
   (load_factor_gt 3 2 = true ↔ 3 * 2 < 2 * 3)) ∧
  (0 < 2 < 2 ^ 52 ∧ 0 ≤ 4 ≤ 2 ^ 52 ∧
   (load_factor_gt 4 2 = true ↔ 3 * 2 < 2 * 4)).
Proof.
  split.
  - split; [lia|]. split; [lia|]. apply load_factor_test_is_exact; lia.
  - split; [lia|]. split; [lia|]. apply load_factor_test_is_exact; lia.
Defined.

(** X4 at the table of [(1, 10)]. *)
Lemma empty_iff_no_key_witness :
  rep int_hash ex_heap ex_map ex_buckets ∧
  (empty ex_map = true ↔
     ∀ k, contains int_hash k (ex_heap, ex_map) = Ok false (ex_heap, ex_map)).
Proof.
  split; [apply ex_rep|].
  apply (empty_iff_no_key int_hash ex_heap ex_map ex_buckets ex_rep).
Defined.

(** X5 at the table of [(1, 10)], rehashed to 3 buckets. *)
Lemma rehash_creates_no_node_witness :
  rep int_hash ex_heap ex_map ex_buckets ∧ 0 < 3 < size_t_mod ∧
  ∃ h' m',
    rehash int_hash 3 (ex_heap, ex_map) = Ok tt (h', m') ∧
    (∀ l, payload h' l = payload ex_heap l) ∧
    curr m' = curr ex_map ∧ curr_idx m' = curr_idx ex_map.
Proof.
  split; [apply ex_rep|]. split; [done|].
  apply (rehash_creates_no_node int_hash ex_heap ex_map ex_buckets 3 ex_rep).
  done.
Defined.

(** X6 at the table of [(5, 50)] in one bucket, which the insert of the
    key 7 makes rehash. *)
Lemma insert_creates_one_node_witness :
  rep int_hash ex_heap2 ex_map2 ex_buckets2 ∧ fits ex_map2 ∧
  contains int_hash 7 (ex_heap2, ex_map2) = Ok false (ex_heap2, ex_map2) ∧
  ∃ l h' m',
    ex_heap2 !! l = None ∧
    insert int_hash 7 70 (ex_heap2, ex_map2) = Ok tt (h', m') ∧
    ∀ l', payload h' l' =
            if decide (l' = l) then Some (7, 70) else payload ex_heap2 l'.
Proof.
  split; [apply ex_rep2|]. split; [apply ex_fits|]. split; [by vm_compute|].
  apply (insert_creates_one_node int_hash ex_heap2 ex_map2 ex_buckets2 7 70
           ex_rep2); [apply ex_fits|by vm_compute].
Defined.

(** X7 at the table of [(1, 10)]. *)
Lemma erase_frees_one_node_witness :
  rep int_hash ex_heap ex_map ex_buckets ∧
  at_ int_hash 1 (ex_heap, ex_map) = Ok 10 (ex_heap, ex_map) ∧
  ∃ l h' m',
    payload ex_heap l = Some (1, 10) ∧
    erase int_hash 1 (ex_heap, ex_map) = Ok 10 (h', m') ∧
    ∀ l', payload h' l' = if decide (l' = l) then None else payload ex_heap l'.
Proof.
  split; [apply ex_rep|]. split; [by vm_compute|].
  apply (erase_frees_one_node int_hash ex_heap ex_map ex_buckets 1 10 ex_rep).
  by vm_compute.
Defined.

(** X8 at the table of [(1, 10)] in the store that also holds the node
    of another table. *)
Lemma clear_frees_own_nodes_only_witness :
  rep int_hash ex_heap2 ex_map ex_buckets ∧
  ∃ h' m',
    clear (ex_heap2, ex_map) = Ok tt (h', m') ∧
    ∀ l, h' !! l = if decide (l ∈ locs ex_buckets) then None else ex_heap2 !! l.
Proof.
  split; [apply ex_rep1|].
  apply (clear_frees_own_nodes_only int_hash ex_heap2 ex_map ex_buckets ex_rep1).
Defined.

(** X9 at the object 1 of the world of two tables. *)
Lemma destructor_frees_the_table_witness :
  objects ex_world !! 1%positive = Some ex_map ∧
  rep int_hash (nodes ex_world) ex_map ex_buckets ∧
  ∃ w',
    destructor 1%positive ex_world = Ok tt w' ∧
    objects w' !! 1%positive = None ∧
    (∀ l, nodes w' !! l =
            if decide (l ∈ locs ex_buckets) then None
            else nodes ex_world !! l) ∧
    ∀ b mb bsb,
      b ≠ 1%positive → objects ex_world !! b = Some mb →
      rep int_hash (nodes ex_world) mb bsb →
      (∀ l, l ∈ locs ex_buckets → l ∉ locs bsb) →
      objects w' !! b = Some mb ∧ rep int_hash (nodes w') mb bsb ∧
      ∀ k, answer (call b (at_ int_hash k) w')
             = answer (call b (at_ int_hash k) ex_world) ∧
           answer (call b (contains int_hash k) w')
             = answer (call b (contains int_hash k) ex_world).
Proof.
  split; [done|]. split; [apply ex_rep1|].
  apply (destructor_frees_the_table int_hash ex_world 1%positive ex_map
           ex_buckets); [done|apply ex_rep1].
Defined.

(** X10 at the table of [(1, 10)]. *)
Lemma traversal_restarts_witness :
  rep int_hash ex_heap ex_map ex_buckets ∧
  (Z.to_nat (size ex_map) < 2)%nat ∧
  ∃ seen,
    Z.of_nat (length seen) = size ex_map ∧
    ∀ c idx, ∃ m',
      traverse 2 (ex_heap, mkMap (data ex_map) (sz ex_map) (capacity ex_map)
                             c idx)
        = Ok seen (ex_heap, m') ∧
      same_table ex_map m' ∧ curr m' = None.
Proof.
  split; [apply ex_rep|]. split; [simpl; lia|].
  apply (traversal_restarts int_hash ex_heap ex_map ex_buckets 2 ex_rep).
  simpl; lia.
Defined.

(** X11 at the table of [(1, 10)]. *)
Lemma copy_keeps_traversal_order_witness :
  rep int_hash ex_heap ex_map ex_buckets ∧
  (Z.to_nat (size ex_map) < 2)%nat ∧
  ∃ h' m' seen o' m'',
    HashMap_copy ex_map None 0 ex_heap = Ok tt (h', m') ∧
    traverse 2 (h', ex_map) = Ok seen (h', o') ∧
    traverse 2 (h', m') = Ok seen (h', m'').
Proof.
  split; [apply ex_rep|]. split; [simpl; lia|].
  apply (copy_keeps_traversal_order int_hash ex_heap ex_map ex_buckets None 0
           2 ex_rep).
  simpl; lia.
Defined.

(** X12 at the table of [(1, 10)] with the cursor on its node. *)
Lemma mutation_under_cursor_invalidates_witness :
  rep int_hash ex_heap ex_map_at ex_buckets ∧
  1%positive ∈ locs ex_buckets ∧
  curr ex_map_at = Some 1%positive ∧
  ex_heap !! 1%positive = Some (mkNode 1 10 None) ∧
  (∃ s', erase int_hash 1 (ex_heap, ex_map_at) = Ok 10 s' ∧
         next_ s' = Fault) ∧
  (∃ s', clear (ex_heap, ex_map_at) = Ok tt s' ∧ next_ s' = Fault).
Proof.
  split; [apply ex_rep_at|]. split; [by apply list_elem_of_singleton|].
  split; [done|]. split; [done|].
  apply (mutation_under_cursor_invalidates int_hash ex_heap ex_map_at
           ex_buckets 1%positive (mkNode 1 10 None) ex_rep_at);
    [by apply list_elem_of_singleton|done|done].
Defined.

(** X13 at the same table, for the insert of a new key. *)
Lemma insert_keeps_cursor_usable_witness :
  rep int_hash ex_heap ex_map_at ex_buckets ∧ fits ex_map_at ∧
  cursor ex_heap ex_map_at ex_buckets [(1%positive, mkNode 1 10 None)] ∧
  ∃ s' r s'',
    insert int_hash 3 30 (ex_heap, ex_map_at) = Ok tt s' ∧
    next_ s' = Ok r s''.
Proof.
  split; [apply ex_rep_at|]. split; [apply ex_fits|].
  split; [apply ex_cursor_at|].
  apply (insert_keeps_cursor_usable int_hash ex_heap ex_map_at ex_buckets
           [(1%positive, mkNode 1 10 None)] 3 30 ex_rep_at);
    [apply ex_fits|apply ex_cursor_at].
Defined.

(** X14 at the table of [(1, 10)] and at an empty table. *)
Lemma rehash_to_no_bucket_witness :
  (rep int_hash ex_heap ex_map ex_buckets ∧
   rehash int_hash 0 (ex_heap, ex_map) =
     if empty ex_map
     then Ok tt (ex_heap, HashMap_new 0 (curr ex_map) (curr_idx ex_map))
     else Fault) ∧
  (rep int_hash ex_empty (HashMap_new 2 None 0) (replicate (Z.to_nat 2) []) ∧
   rehash int_hash 0 (ex_empty, HashMap_new 2 None 0) =
     if empty (HashMap_new 2 None 0)
     then Ok tt (ex_empty, HashMap_new 0 None 0)
     else Fault).
Proof.
  split.
  - split; [apply ex_rep|].
    apply (rehash_to_no_bucket int_hash ex_heap ex_map ex_buckets ex_rep).
  - split; [apply ex_rep_empty|].
    apply (rehash_to_no_bucket int_hash ex_empty (HashMap_new 2 None 0) _
             ex_rep_empty).
Defined.

(** X15 at the table of [(5, 50)] in one bucket, where the insert of the
    key 7 rehashes. *)
Lemma insert_then_erase_witness :
  rep int_hash ex_heap2 ex_map2 ex_buckets2 ∧ fits ex_map2 ∧
  contains int_hash 7 (ex_heap2, ex_map2) = Ok false (ex_heap2, ex_map2) ∧
  ∃ s1 s2,
    insert int_hash 7 70 (ex_heap2, ex_map2) = Ok tt s1 ∧
    erase int_hash 7 s1 = Ok 70 s2 ∧
    size s2.2 = size ex_map2 ∧
    (get_capacity s2.2 = get_capacity ex_map2 ∨
     get_capacity s2.2 = 2 * get_capacity ex_map2) ∧
    ∀ k', answer (at_ int_hash k' s2)
            = answer (at_ int_hash k' (ex_heap2, ex_map2)) ∧
          answer (contains int_hash k' s2)
            = answer (contains int_hash k' (ex_heap2, ex_map2)).
Proof.
  split; [apply ex_rep2|]. split; [apply ex_fits|]. split; [by vm_compute|].
  apply (insert_then_erase int_hash ex_heap2 ex_map2 ex_buckets2 7 70 ex_rep2);
    [apply ex_fits|by vm_compute].
Defined.

(** X16 at the table of [(1, 10)]. *)
Lemma erase_then_insert_replaces_witness :
  rep int_hash ex_heap ex_map ex_buckets ∧ fits ex_map ∧
  at_ int_hash 1 (ex_heap, ex_map) = Ok 10 (ex_heap, ex_map) ∧
  ∃ s1 s2,
    erase int_hash 1 (ex_heap, ex_map) = Ok 10 s1 ∧
    insert int_hash 1 11 s1 = Ok tt s2 ∧
    at_ int_hash 1 s2 = Ok 11 s2 ∧ contains int_hash 1 s2 = Ok true s2 ∧
    size s2.2 = size ex_map ∧
    ∀ k', k' ≠ 1 →
      answer (at_ int_hash k' s2) = answer (at_ int_hash k' (ex_heap, ex_map)) ∧
      answer (contains int_hash k' s2)
        = answer (contains int_hash k' (ex_heap, ex_map)).
Proof.
  split; [apply ex_rep|]. split; [apply ex_fits|]. split; [by vm_compute|].
  apply (erase_then_insert_replaces int_hash ex_heap ex_map ex_buckets 1 10 11
           ex_rep); [apply ex_fits|by vm_compute].
Defined.

(** X17 at a program that grows a table of two buckets and empties it. *)
Lemma capacity_only_doubles_witness :
  let ops := [Insert 1 10; Insert 2 20; Insert 3 30; Insert 4 40; Erase 1;
              Clear] in
  0 < 2 ∧ 2 + total_cost ops < size_bound ∧ well_used false ops = true ∧
  forallb (λ o, negb (is_rehash o)) ops = true ∧
  ∃ s' (j : nat),
    run int_hash ops (ex_empty, HashMap_new 2 None 0) = Ok tt s' ∧
    get_capacity s'.2 = 2 * 2 ^ Z.of_nat j.
Proof.
  cbv zeta. split; [lia|]. split; [by vm_compute|]. split; [done|].
  split; [done|].
  apply (capacity_only_doubles int_hash ex_empty 2 None 0
           [Insert 1 10; Insert 2 20; Insert 3 30; Insert 4 40; Erase 1;
            Clear]); [lia|by vm_compute|done|done].
Defined.

(** X18 at the table of [(1, 10)] in the store of two tables. *)
Lemma copy_creates_its_nodes_only_witness :
  rep int_hash ex_heap2 ex_map ex_buckets ∧
  ∃ h' m' bs',
    HashMap_copy ex_map None 0 ex_heap2 = Ok tt (h', m') ∧
    rep int_hash h' m' bs' ∧
    Z.of_nat (length (locs bs')) = size ex_map ∧
    (∀ l, l ∈ locs bs' → ex_heap2 !! l = None) ∧
    (∀ l, is_Some (ex_heap2 !! l) → h' !! l = ex_heap2 !! l) ∧
    (∀ l, is_Some (h' !! l) → is_Some (ex_heap2 !! l) ∨ l ∈ locs bs').
Proof.
  split; [apply ex_rep1|].
  apply (copy_creates_its_nodes_only int_hash ex_heap2 ex_map ex_buckets
           None 0 ex_rep1).
Defined.

(** X19 at the world of two tables, the second assigned from the
    first. *)
Lemma assignment_releases_old_nodes_witness :
  separate int_hash ex_world 1%positive 2%positive ex_map ex_map2
    ex_buckets ex_buckets2 ∧
  ∃ w' mc' bsc',
    assign 2%positive 1%positive ex_world = Ok tt w' ∧
    objects w' !! 2%positive = Some mc' ∧
    rep int_hash (nodes w') mc' bsc' ∧
    (∀ l, is_Some (nodes w' !! l) ↔
            (is_Some (nodes ex_world !! l) ∧ l ∉ locs ex_buckets2) ∨
            l ∈ locs bsc') ∧
    (∀ l, l ∈ locs ex_buckets → nodes w' !! l = nodes ex_world !! l).
Proof.
  split; [apply ex_separate|].
  apply (assignment_releases_old_nodes int_hash ex_world 1%positive
           2%positive ex_map ex_map2 ex_buckets ex_buckets2 ex_separate).
Defined.

(** X20 at the table of [(1, 10)], for a key held and for a new key. *)
Lemma insert_then_lookup_witness :
  rep int_hash ex_heap ex_map ex_buckets ∧ fits ex_map ∧
  (∃ s',
     insert int_hash 1 99 (ex_heap, ex_map) = Ok tt s' ∧
     contains int_hash 1 s' = Ok true s' ∧
     at_ int_hash 1 s' = Ok (default 99 (mapping ex_buckets 1)) s' ∧
     size s'.2 = (if mapping ex_buckets 1 then size ex_map
                  else size ex_map + 1) ∧
     ∀ k', k' ≠ 1 →
       answer (at_ int_hash k' s')
         = answer (at_ int_hash k' (ex_heap, ex_map)) ∧
       answer (contains int_hash k' s')
         = answer (contains int_hash k' (ex_heap, ex_map))) ∧
  (∃ s',
     insert int_hash 2 20 (ex_heap, ex_map) = Ok tt s' ∧
     contains int_hash 2 s' = Ok true s' ∧
     at_ int_hash 2 s' = Ok (default 20 (mapping ex_buckets 2)) s' ∧
     size s'.2 = (if mapping ex_buckets 2 then size ex_map
                  else size ex_map + 1) ∧
     ∀ k', k' ≠ 2 →
       answer (at_ int_hash k' s')
         = answer (at_ int_hash k' (ex_heap, ex_map)) ∧
       answer (contains int_hash k' s')
         = answer (contains int_hash k' (ex_heap, ex_map))).
Proof.
  split; [apply ex_rep|]. split; [apply ex_fits|]. split.
  - apply (insert_then_lookup int_hash ex_heap ex_map ex_buckets 1 99 ex_rep).
    apply ex_fits.
  - apply (insert_then_lookup int_hash ex_heap ex_map ex_buckets 2 20 ex_rep).
    apply ex_fits.
Defined.

(** X21 at a program run with the hash of [int] on two buckets in an
    empty store, and with all keys colliding on seven buckets in a store
    that holds another node. *)
Lemma answers_depend_on_calls_only_witness :
  let ops := [Insert 1 10; Insert 2 20; Erase 1; Insert 3 30; Rehash 5;
              Insert 2 21] in
  0 < 2 ∧ 2 + total_cost ops < size_bound ∧
  0 < 7 ∧ 7 + total_cost ops < size_bound ∧
  well_used false ops = true ∧
  ∃ s1 s2,
    run int_hash ops (ex_empty, HashMap_new 2 None 0) = Ok tt s1 ∧
    run zero_hash ops (ex_heap, HashMap_new 7 None 0) = Ok tt s2 ∧
    size s1.2 = size s2.2 ∧
    ∀ k, answer (at_ int_hash k s1) = answer (at_ zero_hash k s2) ∧
         answer (contains int_hash k s1) = answer (contains zero_hash k s2).
Proof.
  cbv zeta. split; [lia|]. split; [by vm_compute|].
  split; [lia|]. split; [by vm_compute|]. split; [done|].
  apply (answers_depend_on_calls_only int_hash zero_hash ex_empty ex_heap
           2 7 None 0 None 0
           [Insert 1 10; Insert 2 20; Erase 1; Insert 3 30; Rehash 5;
            Insert 2 21]); [lia|by vm_compute|lia|by vm_compute|done].
Defined.

(** X22 at the table of [(1, 10)] and [(3, 30)], both in bucket 1, with
    the cursor on the node of 1. *)
Lemma erase_elsewhere_keeps_cursor_usable_witness :
  rep int_hash ex_heap3 ex_map3 ex_buckets3 ∧
  cursor ex_heap3 ex_map3 ex_buckets3 [(1%positive, mkNode 1 10 None)] ∧
  curr ex_map3 = Some 1%positive ∧
  ex_heap3 !! 1%positive = Some (mkNode 1 10 None) ∧
  (∀ k v, key (mkNode 1 10 (None : option loc)) ≠ k →
     at_ int_hash k (ex_heap3, ex_map3) = Ok v (ex_heap3, ex_map3) →
     ∃ s' r s'',
       erase int_hash k (ex_heap3, ex_map3) = Ok v s' ∧
       next_ s' = Ok r s'') ∧
  (∀ new_capacity, 0 < new_capacity < size_t_mod →
     ∃ s' r s'',
       rehash int_hash new_capacity (ex_heap3, ex_map3) = Ok tt s' ∧
       next_ s' = Ok r s'').
Proof.
  split; [apply ex_rep3|]. split; [apply ex_cursor3|].
  split; [done|]. split; [done|].
  apply (erase_elsewhere_keeps_cursor_usable int_hash ex_heap3 ex_map3
           ex_buckets3 [(1%positive, mkNode 1 10 None)] 1%positive
           (mkNode 1 10 None) ex_rep3 ex_cursor3); done.
Defined.

(** X23 at the table of [(1, 10)]. *)
Lemma traversal_follows_buckets_witness :
  rep int_hash ex_heap ex_map ex_buckets ∧
  (Z.to_nat (size ex_map) < 2)%nat ∧
  ∃ seen m',
    traverse 2 (ex_heap, ex_map) = Ok seen (ex_heap, m') ∧
    ∀ (i j : nat) ki kj,
      (i ≤ j)%nat → seen.*1 !! i = Some ki → seen.*1 !! j = Some kj →
      int_hash ki mod capacity ex_map ≤ int_hash kj mod capacity ex_map.
Proof.
  split; [apply ex_rep|]. split; [simpl; lia|].
  apply (traversal_follows_buckets int_hash ex_heap ex_map ex_buckets 2 ex_rep).
  simpl; lia.
Defined.

(** X24 at the table of [(1, 10)]. *)
Lemma clear_twice_witness :
  rep int_hash ex_heap ex_map ex_buckets ∧
  ∃ s', clear (ex_heap, ex_map) = Ok tt s' ∧ clear s' = Ok tt s'.
Proof.
  split; [apply ex_rep|].
  apply (clear_twice int_hash ex_heap ex_map ex_buckets ex_rep).
Defined.

(** X25 at a program on the table of [(1, 10)]. *)
Lemma calls_keep_the_invariant_witness :
  let ops := [Insert 2 20; Insert 3 30; Begin; Next; Erase 1; Rehash 1;
              Insert 4 40; Clear] in
  rep int_hash ex_heap ex_map ex_buckets ∧
  (false = true → ∃ rem, cursor ex_heap ex_map ex_buckets rem) ∧
  within 2 ex_map ∧ 2 + total_cost ops < size_bound ∧
  well_used false ops = true ∧
  ∃ h' m' bs',
    run int_hash ops (ex_heap, ex_map) = Ok tt (h', m') ∧
    rep int_hash h' m' bs'.
Proof.
  cbv zeta. split; [apply ex_rep|]. split; [intros [=]|].
  split; [by split|]. split; [by vm_compute|]. split; [done|].
  apply (calls_keep_the_invariant int_hash
           [Insert 2 20; Insert 3 30; Begin; Next; Erase 1; Rehash 1;
            Insert 4 40; Clear] false ex_heap ex_map ex_buckets 2 ex_rep);
    [intros [=]|by split|by vm_compute|done].
Defined.

(** X26 at a program on the table of [(1, 10)], alone in its store. *)
Lemma calls_leak_no_node_witness :
  let ops := [Insert 2 20; Insert 3 30; Insert 1 11; Erase 1; Rehash 1;
              Insert 4 40; Erase 9] in
  rep int_hash ex_heap ex_map ex_buckets ∧
  (false = true → ∃ rem, cursor ex_heap ex_map ex_buckets rem) ∧
  within 2 ex_map ∧ 2 + total_cost ops < size_bound ∧
  well_used false ops = true ∧
  ∃ h' m',
    run int_hash ops (ex_heap, ex_map) = Ok tt (h', m') ∧
    Z.of_nat (base.size h') - size m'
      = Z.of_nat (base.size ex_heap) - size ex_map ∧
    (Z.of_nat (base.size ex_heap) = size ex_map →
     Z.of_nat (base.size h') = size m').
Proof.
  cbv zeta. split; [apply ex_rep|]. split; [intros [=]|].
  split; [by split|]. split; [by vm_compute|]. split; [done|].
  apply (calls_leak_no_node int_hash
           [Insert 2 20; Insert 3 30; Insert 1 11; Erase 1; Rehash 1;
            Insert 4 40; Erase 9] false ex_heap ex_map ex_buckets 2 ex_rep);
    [intros [=]|by split|by vm_compute|done].
Defined.
